(** * The avatar animation engine of wtah/ai-avatar, embedded and verified

    Sources embedded here:
    - [src/components/AIAvatar.tsx]: the viseme table, the speech animator
      (three [useEffect] hooks and one 100 ms timeout), the blink and
      distraction cycles, and the geometry helpers of the eyes, their
      highlights and the mouth;
    - [src/App.tsx]: the producer that streams typed characters into the
      [textChunks] prop and owns the [isSpeaking] flag.

    Conventions of the embedding.
    - A JavaScript string is a [string] of code units; the model covers the
      code units U+0000..U+00FF, on which [toLowerCase] is written out.
    - A JavaScript number used in arithmetic is a binary64 [float]; array
      indices and lengths are [nat].
    - A React component is a record of its props, state cells and refs.  An
      event (new props, an expired timeout) is a function on that record
      which runs the effects whose dependencies changed, in declaration
      order, until the component is settled.
    - [Math.random()] is an argument of the function that calls it. *)

From Stdlib Require Import ZArith NArith QArith Lqa Floats String Ascii.
From stdpp Require Import base strings gmap list.

(* Decimal literals denote the nearest binary64 number, as in JavaScript. *)
Set Warnings "-inexact-float".

Local Open Scope string_scope.
Local Open Scope nat_scope.

(** ** Data model *)

Module Shape.
  (** [type Viseme = 'A' | 'B' | 'C' | 'D' | 'E' | 'F' | 'G' | 'H' | 'X'] *)
Inductive Viseme := A | B | C | D | E | F | G | H | X.
End Shape.

Abbreviation Viseme := Shape.Viseme.

#[global] Instance Viseme_eq_dec : EqDecision Viseme.
Proof. solve_decision. Defined.

(** [type EyeEmotion = 'neutral' | 'happy' | 'sad' | 'angry' | 'surprised'] *)
Inductive EyeEmotion := neutral | happy | sad | angry | surprised.

#[global] Instance EyeEmotion_eq_dec : EqDecision EyeEmotion.
Proof. solve_decision. Defined.

(** ** Viseme resolver *)

Module Resolver.

(** [VISEME_MAP]: a JavaScript object used as a map from one-character keys
    to visemes.  (The inherited property names of a plain object all have
    seven or more characters, so no lower-cased first character reaches
    them: the own keys are the whole map.) *)
Definition VISEME_MAP : gmap string Viseme :=
  list_to_map
    [ ("a", Shape.A); ("b", Shape.B); ("c", Shape.C); ("d", Shape.D);
      ("e", Shape.E); ("f", Shape.F); ("g", Shape.G); ("h", Shape.H);
      ("i", Shape.C); ("j", Shape.H); ("k", Shape.G); ("l", Shape.C);
      ("m", Shape.B); ("n", Shape.C); ("o", Shape.H); ("p", Shape.B);
      ("q", Shape.G); ("r", Shape.C); ("s", Shape.C); ("t", Shape.C);
      ("u", Shape.H); ("v", Shape.F); ("w", Shape.H); ("x", Shape.C);
      ("y", Shape.C); ("z", Shape.C);
      (" ", Shape.X); (".", Shape.X); (",", Shape.X);
      ("?", Shape.D); ("!", Shape.D) ].

(** [String.prototype.toLowerCase] on one code unit below U+0100:
    A..Z and the Latin-1 capitals U+00C0..U+00DE (without the
    multiplication sign U+00D7) move up by 32, the rest is unchanged. *)
Definition lowerCodeUnit (c : ascii) : ascii :=
  let n := N_of_ascii c in
  if ((65 <=? n) && (n <=? 90))%N
     || ((192 <=? n) && (n <=? 222) && negb (n =? 215))%N
  then ascii_of_N (n + 32)
  else c.

Fixpoint toLowerCase (s : string) : string :=
  match s with
  | EmptyString => EmptyString
  | String c rest => String (lowerCodeUnit c) (toLowerCase rest)
  end.

(** The lookup of [processChunks], for a chunk that passed the guard
    [chunk && chunk.length > 0]:
    [[
      const firstChar = chunk[0].toLowerCase();
      const viseme = VISEME_MAP[firstChar] || 'X';
    ]] *)
Definition resolve (c : ascii) : Viseme :=
  let firstChar := toLowerCase (String c EmptyString) in
  default Shape.X (VISEME_MAP !! firstChar).

(** The viseme a chunk sets, if it sets one: an empty chunk fails the guard
    and leaves the current viseme alone. *)
Definition chunkViseme (chunk : string) : option Viseme :=
  match chunk with
  | EmptyString => None
  | String c _ => Some (resolve c)
  end.

End Resolver.

(** ** Speech animator ([AIAvatar], the viseme hooks) *)

Module Avatar.

(** What the pending 100 ms timeout closed over: the [chunkIndex] and the
    length of [textChunks] of the render that scheduled it. *)
Record Closure := { seenIndex : nat; seenLength : nat }.

Record State := {
  textChunks : list string;          (* prop *)
  isSpeaking : bool;                 (* prop *)
  currentViseme : Viseme;            (* useState('X') *)
  chunkIndex : nat;                  (* useState(0) *)
  visemeTimerRef : option Closure    (* pending timeout, if any *)
}.

Definition setCurrentViseme (v : Viseme) (a : State) : State :=
  {| textChunks := textChunks a; isSpeaking := isSpeaking a;
     currentViseme := v; chunkIndex := chunkIndex a;
     visemeTimerRef := visemeTimerRef a |}.

Definition setChunkIndex (i : nat) (a : State) : State :=
  {| textChunks := textChunks a; isSpeaking := isSpeaking a;
     currentViseme := currentViseme a; chunkIndex := i;
     visemeTimerRef := visemeTimerRef a |}.

Definition setVisemeTimer (t : option Closure) (a : State) : State :=
  {| textChunks := textChunks a; isSpeaking := isSpeaking a;
     currentViseme := currentViseme a; chunkIndex := chunkIndex a;
     visemeTimerRef := t |}.

Definition withProps (chunks : list string) (speaking : bool) (a : State) : State :=
  {| textChunks := chunks; isSpeaking := speaking;
     currentViseme := currentViseme a; chunkIndex := chunkIndex a;
     visemeTimerRef := visemeTimerRef a |}.

(** [useEffect(() => { if (!isSpeaking) setCurrentViseme('X') }, [isSpeaking])] *)
Definition speakingEffect (a : State) : State :=
  if negb (isSpeaking a) then setCurrentViseme Shape.X a else a.

(** [processChunks]: show the chunk under the cursor and arm the timeout. *)
Definition processChunks (a : State) : State :=
  if chunkIndex a <? length (textChunks a) then
    let shown :=
      match textChunks a !! chunkIndex a with
      | Some chunk =>
          match Resolver.chunkViseme chunk with
          | Some viseme => setCurrentViseme viseme a
          | None => a
          end
      | None => a
      end in
    setVisemeTimer
      (Some {| seenIndex := chunkIndex a; seenLength := length (textChunks a) |})
      shown
  else a.

(** The viseme effect, dependencies [[textChunks, chunkIndex, isSpeaking]].
    Its cleanup and its first statement both clear the timeout. *)
Definition visemeEffect (a : State) : State :=
  let a := setVisemeTimer None a in
  if negb (isSpeaking a) || (length (textChunks a) =? 0)
  then setCurrentViseme Shape.X a
  else processChunks a.

(** The reset effect, dependencies [[textChunks, isSpeaking]]:
    [if (textChunks.length === 0 || !isSpeaking) setChunkIndex(0)]. *)
Definition resetEffect (a : State) : State :=
  if (length (textChunks a) =? 0) || negb (isSpeaking a)
  then setChunkIndex 0 a
  else a.

(** One commit: the effects whose dependencies changed run in declaration
    order on the rendered state; when the reset effect changed [chunkIndex]
    the component renders again and the viseme effect, the only one that
    depends on [chunkIndex], runs once more. *)
Definition commit (speakingChanged chunksChanged : bool) (a : State) : State :=
  let a1 := if speakingChanged then speakingEffect a else a in
  let a2 := if speakingChanged || chunksChanged then visemeEffect a1 else a1 in
  let a3 := if speakingChanged || chunksChanged then resetEffect a2 else a2 in
  if chunkIndex a3 =? chunkIndex a then a3 else visemeEffect a3.

(** First render: initial state cells, every effect runs. *)
Definition mount (chunks : list string) (speaking : bool) : State :=
  commit true true
    {| textChunks := chunks; isSpeaking := speaking;
       currentViseme := Shape.X; chunkIndex := 0; visemeTimerRef := None |}.

(** The parent renders again.  [chunks = Some l] hands over a new array [l]
    (a new reference, whatever its contents); [None] hands over the same
    array as before. *)
Definition render (chunks : option (list string)) (speaking : bool) (a : State) : State :=
  let speakingChanged := negb (eqb speaking (isSpeaking a)) in
  let chunksChanged := bool_decide (is_Some chunks) in
  commit speakingChanged chunksChanged
    (withProps (default (textChunks a) chunks) speaking a).

(** The timeout expires, 100 ms after it was armed:
    [[
      if (chunkIndex < textChunks.length - 1) setChunkIndex(prev => prev + 1);
      else setCurrentViseme('X');
    ]]
    The comparison reads the closure; the update reads the state cell.  A new
    [chunkIndex] makes the viseme effect run again. *)
Definition tick (a : State) : State :=
  match visemeTimerRef a with
  | None => a
  | Some seen =>
      let a := setVisemeTimer None a in
      if seenIndex seen <? seenLength seen - 1
      then visemeEffect (setChunkIndex (chunkIndex a + 1) a)
      else setCurrentViseme Shape.X a
  end.

Inductive Event :=
  | Render (chunks : option (list string)) (speaking : bool)
  | Tick.

Definition step (a : State) (e : Event) : State :=
  match e with
  | Render chunks speaking => render chunks speaking a
  | Tick => tick a
  end.

Definition run (events : list Event) (a : State) : State :=
  foldl step a events.

(** [n] consecutive 100 ms periods with no new props. *)
Fixpoint ticks (n : nat) (a : State) : State :=
  match n with
  | 0 => a
  | S k => ticks k (tick a)
  end.

End Avatar.

(** ** Blink cycle ([AIAvatar], the first effect) *)

Module Blink.

Inductive Callback := BlinkStart | BlinkEnd.

(** A pending [setTimeout]: its handle, the delay it was given, and which of
    the two callbacks of the effect it runs. *)
Record Timeout := { handle : nat; delay : float; callback : Callback }.

Record State := {
  isBlinking : bool;                 (* useState(false) *)
  blinkIntervalRef : option nat;     (* useRef(null): the last outer handle *)
  timeouts : list Timeout;           (* the pending timeouts of this effect *)
  nextHandle : nat                   (* handles are positive and fresh *)
}.

Definition setIsBlinking (b : bool) (s : State) : State :=
  {| isBlinking := b; blinkIntervalRef := blinkIntervalRef s;
     timeouts := timeouts s; nextHandle := nextHandle s |}.

Definition setTimeout (cb : Callback) (ms : float) (s : State) : nat * State :=
  (nextHandle s,
   {| isBlinking := isBlinking s; blinkIntervalRef := blinkIntervalRef s;
      timeouts := timeouts s ++ [ {| handle := nextHandle s; delay := ms; callback := cb |} ];
      nextHandle := S (nextHandle s) |}).

(** [clearTimeout] of a handle that is not pending does nothing. *)
Definition clearTimeout (h : nat) (s : State) : State :=
  {| isBlinking := isBlinking s; blinkIntervalRef := blinkIntervalRef s;
     timeouts := filter (λ t, handle t ≠ h) (timeouts s);
     nextHandle := nextHandle s |}.

(** [Math.random() * 3000 + 2000], in binary64 as JavaScript computes it. *)
Definition nextBlinkDelay (random : float) : float :=
  (random * 3000 + 2000)%float.

(** [[
      if (blinkIntervalRef.current) clearTimeout(blinkIntervalRef.current);
      const nextBlinkDelay = Math.random() * 3000 + 2000;
      blinkIntervalRef.current = setTimeout(() => { ... }, nextBlinkDelay);
    ]] *)
Definition scheduleNextBlink (random : float) (s : State) : State :=
  let s := match blinkIntervalRef s with
           | Some h => clearTimeout h s
           | None => s
           end in
  let '(h, s) := setTimeout BlinkStart (nextBlinkDelay random) s in
  {| isBlinking := isBlinking s; blinkIntervalRef := Some h;
     timeouts := timeouts s; nextHandle := nextHandle s |}.

(** The timeout [t] expires and its callback runs.  The outer callback
    closes the eyes and arms the untracked 150 ms timeout; the inner one
    opens them and schedules the next blink with a fresh random number. *)
Definition expire (t : Timeout) (random : float) (s : State) : State :=
  let s := clearTimeout (handle t) s in
  match callback t with
  | BlinkStart => snd (setTimeout BlinkEnd 150%float (setIsBlinking true s))
  | BlinkEnd => scheduleNextBlink random (setIsBlinking false s)
  end.

(** The effect on mount. *)
Definition mount (random : float) : State :=
  scheduleNextBlink random
    {| isBlinking := false; blinkIntervalRef := None; timeouts := []; nextHandle := 1 |}.

(** The cleanup of the blink effect, on unmount:
    [if (blinkIntervalRef.current) clearTimeout(blinkIntervalRef.current)]. *)
Definition cleanup (s : State) : State :=
  match blinkIntervalRef s with
  | Some h => clearTimeout h s
  | None => s
  end.

End Blink.

(** ** Eye geometry ([AIAvatar], the path helpers and the eyebrow blocks) *)

Module Eyes.

Local Open Scope float_scope.

Definition eyeOffsetX : float := 20.
Definition eyeOffsetY : float := -8.
Definition eyeWidth : float := 18.
Definition eyeHeight : float := 24.

(** The commands of an SVG path, with the numbers the template strings
    interpolate.  Upper-case commands are absolute, lower-case relative. *)
Inductive PathCommand :=
  | MoveTo (x y : float)                              (* M x y *)
  | MoveBy (dx dy : float)                            (* m dx, dy *)
  | HLineTo (x : float)                               (* H x *)
  | LineTo (x y : float)                              (* L x y *)
  | QuadTo (x1 y1 x y : float)                        (* Q x1 y1 x y *)
  | ArcBy (rx ry : float) (rotation : float)
          (largeArc sweep : bool) (dx dy : float)     (* a rx,ry rot large,sweep dx,dy *)
  | ClosePath.                                        (* Z *)

(** [Math.min] on two numbers (neither is NaN here). *)
Definition min (a b : float) : float := if a <? b then a else b.

Definition eyePathWidth (emotion : EyeEmotion) : float :=
  if bool_decide (emotion = neutral) || bool_decide (emotion = surprised)
  then eyeWidth * 1.25 else eyeWidth.



Record Point := { px : float; py : float }.

(** The vertical offset of the highlight from the eye centre ([offsetY]). *)
Definition shineOffsetY (emotion : EyeEmotion) : float :=
  if bool_decide (emotion = sad) then eyeHeight * 0.15
  else if bool_decide (emotion = surprised) then - eyeHeight * 0.2
  else - eyeHeight * 0.2.

Definition shineOffsetX (emotion : EyeEmotion) : float :=
  if bool_decide (emotion = sad) then eyeWidth * 0.2
  else if bool_decide (emotion = surprised) then 0
  else eyeWidth * 0.2.

Definition getEyeShinePosition (emotion : EyeEmotion) (isLeft : bool) : Point :=
  let baseX := if isLeft then - eyeOffsetX else eyeOffsetX in
  {| px := baseX + shineOffsetX emotion; py := eyeOffsetY + shineOffsetY emotion |}.




End Eyes.

(** ** Eye highlights ([AIAvatar], [getEyeShineSize] and the two circles) *)

Module Highlight.
Import Eyes.
Local Open Scope float_scope.

(** [emotion === 'surprised' ? eyeWidth * 0.195 : eyeWidth * 0.15] *)
Definition getEyeShineSize (emotion : EyeEmotion) : float :=
  if bool_decide (emotion = surprised) then eyeWidth * 0.195 else eyeWidth * 0.15.

Record Circle := { cx : float; cy : float; r : float }.

(** The highlight circles of one render: the block [!isBlinking && (...)],
    left eye first. *)
Definition eyeShines (eyeEmotion : EyeEmotion) (isBlinking : bool) : list Circle :=
  let leftShinePos := getEyeShinePosition eyeEmotion true in
  let rightShinePos := getEyeShinePosition eyeEmotion false in
  let shineSize := getEyeShineSize eyeEmotion in
  if negb isBlinking
  then [ {| cx := px leftShinePos; cy := py leftShinePos; r := shineSize |};
         {| cx := px rightShinePos; cy := py rightShinePos; r := shineSize |} ]
  else [].

End Highlight.

(** ** Mouth geometry ([AIAvatar], [getMouthPath] and the mouth element) *)

Module Mouth.

Local Open Scope float_scope.

Definition mouthOffsetY : float := 25.

(** The commands of the mouth paths: move, cubic curve, close. *)
Inductive PathCommand :=
  | MoveTo (x y : float)                       (* M x y *)
  | CurveTo (x1 y1 x2 y2 x y : float)          (* C x1 y1, x2 y2, x y *)
  | ClosePath.                                 (* Z *)

(** [getMouthPath].  A template writes [-${n}] for a number [n]: the
    digits of [n] after a minus sign, which reads back as [- n] (every [n]
    here is positive). *)
Definition getMouthPath (viseme : Viseme) : list PathCommand :=
  let mouthWidth := 40 in
  let halfWidth := mouthWidth / 2 in
  let y := mouthOffsetY in
  match viseme with
  | Shape.A =>
      [ MoveTo (- halfWidth) y;
        CurveTo (- (halfWidth * 0.7)) (y + 8) (halfWidth * 0.7) (y + 8) halfWidth y;
        CurveTo (halfWidth * 0.7) (y - 8) (- (halfWidth * 0.7)) (y - 8) (- halfWidth) y;
        ClosePath ]
  | Shape.B =>
      [ MoveTo (- halfWidth) y;
        CurveTo (- (halfWidth * 0.6)) (y - 1) (halfWidth * 0.6) (y - 1) halfWidth y ]
  | Shape.C =>
      [ MoveTo (- halfWidth) y;
        CurveTo (- (halfWidth * 0.7)) (y + 6) (halfWidth * 0.7) (y + 6) halfWidth y;
        CurveTo (halfWidth * 0.7) (y - 4) (- (halfWidth * 0.7)) (y - 4) (- halfWidth) y;
        ClosePath ]
  | Shape.D =>
      [ MoveTo (- halfWidth) y;
        CurveTo (- (halfWidth * 0.7)) (y + 16) (halfWidth * 0.7) (y + 16) halfWidth y;
        CurveTo (halfWidth * 0.7) (y - 12) (- (halfWidth * 0.7)) (y - 12) (- halfWidth) y;
        ClosePath ]
  | Shape.E =>
      [ MoveTo (- halfWidth) (y + 3);
        CurveTo (- (halfWidth * 0.6)) (y - 6) (halfWidth * 0.6) (y - 6) halfWidth (y + 3) ]
  | Shape.F =>
      [ MoveTo (- halfWidth) (y - 2);
        CurveTo (- (halfWidth * 0.7)) (y - 4) (halfWidth * 0.7) (y - 4) halfWidth (y - 2);
        CurveTo (halfWidth * 0.7) (y + 7) (- (halfWidth * 0.7)) (y + 7)
          (- halfWidth) (y - 2);
        ClosePath ]
  | Shape.G =>
      [ MoveTo (- halfWidth) (y - 2);
        CurveTo (- (halfWidth * 0.7)) (y + 4) (halfWidth * 0.7) (y + 4) halfWidth (y - 2);
        CurveTo (halfWidth * 0.7) (y - 8) (- (halfWidth * 0.7)) (y - 8)
          (- halfWidth) (y - 2);
        ClosePath ]
  | Shape.H =>
      [ MoveTo (- (halfWidth * 0.7)) y;
        CurveTo (- (halfWidth * 0.5)) (y + 8) (halfWidth * 0.5) (y + 8)
          (halfWidth * 0.7) y;
        CurveTo (halfWidth * 0.5) (y - 6) (- (halfWidth * 0.5)) (y - 6)
          (- (halfWidth * 0.7)) y;
        ClosePath ]
  | Shape.X =>
      [ MoveTo (- halfWidth) y;
        CurveTo (- (halfWidth * 0.7)) (y + 2) (halfWidth * 0.7) (y + 2) halfWidth y ]
  end.

(** The [fill] attribute of the mouth element:
    [currentViseme !== 'B' && currentViseme !== 'E' && currentViseme !== 'X'
       ? "rgba(0,0,0,0.1)" : "none"]. *)
Definition mouthFill (currentViseme : Viseme) : string :=
  if negb (bool_decide (currentViseme = Shape.B))
     && negb (bool_decide (currentViseme = Shape.E))
     && negb (bool_decide (currentViseme = Shape.X))
  then "rgba(0,0,0,0.1)" else "none".

End Mouth.

(** ** Distraction cycle ([AIAvatar], the second effect) *)

Module Gaze.

Inductive Callback := DistractionStart | DistractionEnd.

(** The build of the bundle.  The animation controls of framer-motion
    check that they are mounted in a development build only. *)
Inductive Build := Development | Production.

Record Timeout := { handle : nat; delay : float; callback : Callback }.

Record State := {
  isDistracted : bool;                    (* useState(false) *)
  distractionIntervalRef : option nat;    (* useRef(null): the last outer handle *)
  leftEyeShineX : option float;           (* the x leftEyeShineControls.start last sent the highlight to *)
  rightEyeShineX : option float;          (* the x rightEyeShineControls.start last sent the highlight to *)
  hasMounted : bool;                      (* useAnimationControls(): both controls, from mount to unmount *)
  timeouts : list Timeout;                (* the pending timeouts of this effect *)
  nextHandle : nat                        (* handles are positive and fresh *)
}.

Definition setTimeout (cb : Callback) (ms : float) (s : State) : nat * State :=
  (nextHandle s,
   {| isDistracted := isDistracted s; distractionIntervalRef := distractionIntervalRef s;
      leftEyeShineX := leftEyeShineX s; rightEyeShineX := rightEyeShineX s;
      hasMounted := hasMounted s;
      timeouts := timeouts s ++ [ {| handle := nextHandle s; delay := ms; callback := cb |} ];
      nextHandle := S (nextHandle s) |}).

Definition clearTimeout (h : nat) (s : State) : State :=
  {| isDistracted := isDistracted s; distractionIntervalRef := distractionIntervalRef s;
     leftEyeShineX := leftEyeShineX s; rightEyeShineX := rightEyeShineX s;
     hasMounted := hasMounted s;
     timeouts := filter (λ t, handle t ≠ h) (timeouts s);
     nextHandle := nextHandle s |}.

(** [setIsDistracted(b)] and the two [controls.start({ x })] calls that
    follow it in both callbacks.  While the avatar is mounted the flag is
    set and both highlights are sent to their [x].  After unmount the state
    cell is gone and no highlight is subscribed to the controls: the first
    [start] raises an error in a development build, which ends the callback
    ([None]), and has nothing to animate in a production build. *)
Definition look (build : Build) (b : bool) (left right : float) (s : State)
  : option State :=
  if hasMounted s
  then Some {| isDistracted := b; distractionIntervalRef := distractionIntervalRef s;
               leftEyeShineX := Some left; rightEyeShineX := Some right;
               hasMounted := hasMounted s;
               timeouts := timeouts s; nextHandle := nextHandle s |}
  else match build with
       | Development => None
       | Production => Some s
       end.

(** [Math.random() * 5000 + 3000] *)
Definition nextDistractionDelay (random : float) : float :=
  (random * 5000 + 3000)%float.

(** [-distEyeWidth * (0.22 + Math.random() * 0.06)], with
    [distEyeWidth = eyeWidth]. *)
Definition leftOffset (random : float) : float :=
  (- Eyes.eyeWidth * (0.22 + random * 0.06))%float.

(** [-distEyeWidth * (0.20 + Math.random() * 0.08)] *)
Definition rightOffset (random : float) : float :=
  (- Eyes.eyeWidth * (0.20 + random * 0.08))%float.

(** [800 + Math.random() * 200] *)
Definition distractionDuration (random : float) : float :=
  (800 + random * 200)%float.

(** [[
      if (distractionIntervalRef.current) clearTimeout(distractionIntervalRef.current);
      const nextDistractionDelay = Math.random() * 5000 + 3000;
      distractionIntervalRef.current = setTimeout(() => { ... }, nextDistractionDelay);
    ]] *)
Definition scheduleNextDistraction (random : float) (s : State) : State :=
  let s := match distractionIntervalRef s with
           | Some h => clearTimeout h s
           | None => s
           end in
  let '(h, s) := setTimeout DistractionStart (nextDistractionDelay random) s in
  {| isDistracted := isDistracted s; distractionIntervalRef := Some h;
     leftEyeShineX := leftEyeShineX s; rightEyeShineX := rightEyeShineX s;
     hasMounted := hasMounted s;
     timeouts := timeouts s; nextHandle := nextHandle s |}.

(** The timeout [t] expires and its callback runs.  The outer callback
    draws three random numbers, in this order: for the left offset, the
    right offset and the duration.  The inner callback moves both
    highlights back and schedules the next distraction with one more.  A
    callback that [start] ends with an error sets no timeout. *)
Definition expire (build : Build) (t : Timeout) (random1 random2 random3 : float)
    (s : State) : State :=
  let s := clearTimeout (handle t) s in
  match callback t with
  | DistractionStart =>
      match look build true (leftOffset random1) (rightOffset random2) s with
      | Some s => snd (setTimeout DistractionEnd (distractionDuration random3) s)
      | None => s
      end
  | DistractionEnd =>
      match look build false 0%float 0%float s with
      | Some s => scheduleNextDistraction random1 s
      | None => s
      end
  end.

(** The effect on mount; the controls are mounted by then. *)
Definition mount (random : float) : State :=
  scheduleNextDistraction random
    {| isDistracted := false; distractionIntervalRef := None;
       leftEyeShineX := None; rightEyeShineX := None;
       hasMounted := true;
       timeouts := []; nextHandle := 1 |}.

(** The cleanup of the effect:
    [if (distractionIntervalRef.current) clearTimeout(distractionIntervalRef.current)]. *)
Definition cleanup (s : State) : State :=
  match distractionIntervalRef s with
  | Some h => clearTimeout h s
  | None => s
  end.

(** Unmount: the cleanup of the effect runs, and the controls are no
    longer mounted.  The pending timeouts stay with the browser. *)
Definition unmount (s : State) : State :=
  let s := cleanup s in
  {| isDistracted := isDistracted s; distractionIntervalRef := distractionIntervalRef s;
     leftEyeShineX := leftEyeShineX s; rightEyeShineX := rightEyeShineX s;
     hasMounted := false;
     timeouts := timeouts s; nextHandle := nextHandle s |}.

End Gaze.

(** ** Producer ([App]) *)

Module App.

Record State := {
  textChunks : list string;            (* useState([]), the avatar's prop *)
  inputText : string;                  (* useState(sampleText) *)
  isSpeaking : bool;                   (* useState(false), the avatar's prop *)
  streamingSpeed : nat;                (* useState(100) *)
  streamTimerRef : option bool;        (* pending stream timeout and the
                                          [isSpeaking] its closure saw *)
  currentTokenRef : nat;               (* useRef(0) *)
  tokensToStreamRef : list string;     (* useRef([]) *)
  typingTimeoutRef : bool;             (* is the 1500 ms timeout pending *)
  lastTypedTextRef : string            (* useRef("") *)
}.

Definition sampleText : string := "Start typing here and I will speak in real-time!".

Definition initial : State :=
  {| textChunks := []; inputText := sampleText; isSpeaking := false;
     streamingSpeed := 100; streamTimerRef := None; currentTokenRef := 0;
     tokensToStreamRef := []; typingTimeoutRef := false; lastTypedTextRef := "" |}.

(** [text.slice(n)] for [0 <= n]: the string without its first [n] code units. *)
Fixpoint slice (n : nat) (text : string) : string :=
  match n, text with
  | 0, _ => text
  | S _, EmptyString => EmptyString
  | S k, String _ rest => slice k rest
  end.

(** [text.split('')]: one string per code unit. *)
Fixpoint split (text : string) : list string :=
  match text with
  | EmptyString => []
  | String c rest => String c EmptyString :: split rest
  end.

(** The updater passed to [setTextChunks]:
    [[
      const maxChunks = 20;
      const updatedChunks = [...prev, newToken];
      if (updatedChunks.length > maxChunks) return updatedChunks.slice(-maxChunks);
      return updatedChunks;
    ]] *)
Definition appendChunk (newToken : string) (prev : list string) : list string :=
  let maxChunks := 20 in
  let updatedChunks := (prev ++ [newToken])%list in
  if maxChunks <? length updatedChunks
  then drop (length updatedChunks - maxChunks) updatedChunks
  else updatedChunks.

(** [setIsSpeaking(false)] followed by the cleanup of the streaming effect
    (dependencies [[isSpeaking]]), which clears the stream timeout.  React
    skips an update to the value the cell already holds. *)
Definition lowerFlag (s : State) : State :=
  if isSpeaking s then
    {| textChunks := textChunks s; inputText := inputText s; isSpeaking := false;
       streamingSpeed := streamingSpeed s; streamTimerRef := None;
       currentTokenRef := currentTokenRef s; tokensToStreamRef := tokensToStreamRef s;
       typingTimeoutRef := typingTimeoutRef s; lastTypedTextRef := lastTypedTextRef s |}
  else s.

(** [streamNextToken], as the closure of a render that saw
    [isSpeaking = closureSpeaking]. *)
Definition streamNextToken (closureSpeaking : bool) (s : State) : State :=
  if negb closureSpeaking then s
  else if currentTokenRef s <? length (tokensToStreamRef s) then
    match tokensToStreamRef s !! currentTokenRef s with
    | Some newToken =>
        {| textChunks := appendChunk newToken (textChunks s);
           inputText := inputText s; isSpeaking := isSpeaking s;
           streamingSpeed := streamingSpeed s;
           streamTimerRef := Some closureSpeaking;
           currentTokenRef := currentTokenRef s + 1;
           tokensToStreamRef := tokensToStreamRef s;
           typingTimeoutRef := typingTimeoutRef s;
           lastTypedTextRef := lastTypedTextRef s |}
    | None => s
    end
  else if 0 <? length (tokensToStreamRef s) then
    {| textChunks := textChunks s; inputText := inputText s; isSpeaking := isSpeaking s;
       streamingSpeed := streamingSpeed s; streamTimerRef := Some closureSpeaking;
       currentTokenRef := currentTokenRef s; tokensToStreamRef := tokensToStreamRef s;
       typingTimeoutRef := typingTimeoutRef s; lastTypedTextRef := lastTypedTextRef s |}
  else lowerFlag s.

(** [setIsSpeaking(true)] followed by the streaming effect, which starts
    [streamNextToken] of the new render. *)
Definition raiseFlag (s : State) : State :=
  if isSpeaking s then s
  else
    streamNextToken true
      {| textChunks := textChunks s; inputText := inputText s; isSpeaking := true;
         streamingSpeed := streamingSpeed s; streamTimerRef := None;
         currentTokenRef := currentTokenRef s; tokensToStreamRef := tokensToStreamRef s;
         typingTimeoutRef := typingTimeoutRef s; lastTypedTextRef := lastTypedTextRef s |}.

Definition setIsSpeaking (b : bool) (s : State) : State :=
  if b then raiseFlag s else lowerFlag s.

Definition processText (text : string) (s : State) : State :=
  let newTextPortion := slice (String.length (lastTypedTextRef s)) text in
  if 0 <? String.length newTextPortion then
    let newChunks := split newTextPortion in
    let s :=
      {| textChunks := textChunks s; inputText := inputText s; isSpeaking := isSpeaking s;
         streamingSpeed := streamingSpeed s; streamTimerRef := streamTimerRef s;
         currentTokenRef := currentTokenRef s;
         tokensToStreamRef := (tokensToStreamRef s ++ newChunks)%list;
         typingTimeoutRef := typingTimeoutRef s; lastTypedTextRef := text |} in
    if negb (isSpeaking s) then setIsSpeaking true s else s
  else s.

(** [handleTextChange]: store the text, re-arm the 1500 ms typing timeout,
    process the new text. *)
Definition handleTextChange (newText : string) (s : State) : State :=
  processText newText
    {| textChunks := textChunks s; inputText := newText; isSpeaking := isSpeaking s;
       streamingSpeed := streamingSpeed s; streamTimerRef := streamTimerRef s;
       currentTokenRef := currentTokenRef s; tokensToStreamRef := tokensToStreamRef s;
       typingTimeoutRef := true; lastTypedTextRef := lastTypedTextRef s |}.

(** The typing timeout expires after 1.5 s without a change event:
    [if (currentTokenRef.current >= tokensToStreamRef.current.length) setIsSpeaking(false)]. *)
Definition typingTimeoutExpires (s : State) : State :=
  if typingTimeoutRef s then
    let s :=
      {| textChunks := textChunks s; inputText := inputText s; isSpeaking := isSpeaking s;
         streamingSpeed := streamingSpeed s; streamTimerRef := streamTimerRef s;
         currentTokenRef := currentTokenRef s; tokensToStreamRef := tokensToStreamRef s;
         typingTimeoutRef := false; lastTypedTextRef := lastTypedTextRef s |} in
    if length (tokensToStreamRef s) <=? currentTokenRef s then setIsSpeaking false s else s
  else s.

(** The stream timeout expires and runs the [streamNextToken] it holds. *)
Definition streamTimeoutExpires (s : State) : State :=
  match streamTimerRef s with
  | None => s
  | Some closureSpeaking =>
      streamNextToken closureSpeaking
        {| textChunks := textChunks s; inputText := inputText s; isSpeaking := isSpeaking s;
           streamingSpeed := streamingSpeed s; streamTimerRef := None;
           currentTokenRef := currentTokenRef s; tokensToStreamRef := tokensToStreamRef s;
           typingTimeoutRef := typingTimeoutRef s; lastTypedTextRef := lastTypedTextRef s |}
  end.

Definition handleSpeedChange (speed : nat) (s : State) : State :=
  {| textChunks := textChunks s; inputText := inputText s; isSpeaking := isSpeaking s;
     streamingSpeed := speed; streamTimerRef := streamTimerRef s;
     currentTokenRef := currentTokenRef s; tokensToStreamRef := tokensToStreamRef s;
     typingTimeoutRef := typingTimeoutRef s; lastTypedTextRef := lastTypedTextRef s |}.

(** [handleReset]: both timeouts cleared, state and refs back to empty. *)
Definition handleReset (s : State) : State :=
  {| textChunks := []; inputText := ""; isSpeaking := false;
     streamingSpeed := streamingSpeed s; streamTimerRef := None;
     currentTokenRef := 0; tokensToStreamRef := [];
     typingTimeoutRef := false; lastTypedTextRef := "" |}.

Inductive Event :=
  | TextChange (newText : string)     (* the user edits the textarea *)
  | StreamTimeout                     (* the stream timeout expires *)
  | TypingTimeout                     (* 1.5 s of typing inactivity *)
  | SpeedChange (speed : nat)         (* the speed slider moves *)
  | ResetClick.                       (* the reset button *)

Definition step (s : State) (e : Event) : State :=
  match e with
  | TextChange newText => handleTextChange newText s
  | StreamTimeout => streamTimeoutExpires s
  | TypingTimeout => typingTimeoutExpires s
  | SpeedChange speed => handleSpeedChange speed s
  | ResetClick => handleReset s
  end.

Definition run (events : list Event) (s : State) : State := foldl step s events.

End App.

(** * Vocabulary of the statements

    Predicates and sample inputs the theorems below are stated with.  None
    of them comes from the source. *)

Section ResolverVocabulary.
Import Resolver.

(** The keys of [VISEME_MAP], in source order. *)
Definition VISEME_KEYS : list string :=
  [ "a"; "b"; "c"; "d"; "e"; "f"; "g"; "h"; "i"; "j"; "k"; "l"; "m";
    "n"; "o"; "p"; "q"; "r"; "s"; "t"; "u"; "v"; "w"; "x"; "y"; "z";
    " "; "."; ","; "?"; "!" ].

(** The upper-case form of a lower-case letter: 32 code units below it. *)
Definition upperCaseOf (c : ascii) : ascii := ascii_of_N (N_of_ascii c - 32).

Definition isLowerCaseLetter (c : ascii) : Prop :=
  (97 <= N_of_ascii c <= 122)%N.

(** The 31 keys as code units: a..z, then space, '.', ',', '?', '!'. *)
Definition keyCodeUnits : list ascii :=
  [ "a"; "b"; "c"; "d"; "e"; "f"; "g"; "h"; "i"; "j"; "k"; "l"; "m";
    "n"; "o"; "p"; "q"; "r"; "s"; "t"; "u"; "v"; "w"; "x"; "y"; "z";
    " "; "."; ","; "?"; "!" ]%char.

End ResolverVocabulary.

Section AvatarVocabulary.
Import Avatar.

(** The invariant behind C5: with the flag down the mouth is at rest and no
    viseme timeout is pending. *)
Definition restWhenSilent (a : State) : Prop :=
  isSpeaking a = false → currentViseme a = Shape.X ∧ visemeTimerRef a = None.

Definition hello : list string := [ "h"; "e"; "l"; "l"; "o" ].

(** A speaking session over tokens buffered beforehand: the avatar is
    mounted idle and empty, receives the buffer while the flag is down, and
    then sees the flag go up (time 0). *)
Definition session (tokens : list string) : State :=
  render None true (render (Some tokens) false (mount [] false)).

(** The events of a session in which the flag stays up and no further
    token arrives after [tokens]: a timeout, a render with the same array,
    and a render with a new array that holds the same tokens. *)
Definition noFurtherToken (tokens : list string) (e : Event) : bool :=
  match e with
  | Tick => true
  | Render None speaking => speaking
  | Render (Some chunks) speaking => speaking && bool_decide (chunks = tokens)
  end.

End AvatarVocabulary.

(** The binary64 format as [SpecFloat] describes it. *)
Module Binary64.
Local Open Scope Z_scope.

(** The two low flags of a shift record say whether bits were lost. *)
Definition inexact (mrs : shr_record) : bool := shr_r mrs || shr_s mrs.

(** [fexp] at precision 53 and largest exponent 1024. *)
Definition fexp64 (e : Z) : Z := Z.max (e - 53) (-1074).

(** The constants 3000, 2000 and 5000 as mantissa and exponent. *)
Definition c3000 : spec_float := S754_finite false 6597069766656000 (-41).
Definition c2000 : spec_float := S754_finite false 8796093022208000 (-42).
Definition c5000 : spec_float := S754_finite false 5497558138880000 (-40).

(** Shape of a result: zero, or finite and positive. *)
Definition positive_or_zero (m e : Z) : spec_float :=
  match m with
  | Z0 => S754_zero false
  | Zpos q => S754_finite false q e
  | Zneg _ => S754_nan
  end.

End Binary64.

Section BlinkVocabulary.
Import Blink.

(** Off-phase: eyes open, and the only pending timeout is the outer one,
    tracked by [blinkIntervalRef], armed with [nextBlinkDelay random]. *)
Definition offPhase (random : float) (s : State) : Prop :=
  isBlinking s = false
  ∧ ∃ h, blinkIntervalRef s = Some h ∧ h < nextHandle s
       ∧ timeouts s =
           [ {| handle := h; delay := nextBlinkDelay random; callback := BlinkStart |} ].

(** On-phase: eyes closed, and the only pending timeout is the inner one,
    armed with 150 ms. *)
Definition onPhase (s : State) : Prop :=
  isBlinking s = true
  ∧ ∃ h, h < nextHandle s
       ∧ (∀ h0, blinkIntervalRef s = Some h0 → h0 < nextHandle s)
       ∧ timeouts s = [ {| handle := h; delay := 150%float; callback := BlinkEnd |} ].

(** Handles in use lie below the next fresh one. *)
Definition freshHandles (s : State) : Prop :=
  (∀ h0, blinkIntervalRef s = Some h0 → h0 < nextHandle s)
  ∧ Forall (λ t, handle t < nextHandle s) (timeouts s).

(** [nextBlinkDelay] without rounding: the same expression over the
    rationals. *)
Definition exactBlinkDelay (random : Q) : Q := (random * 3000 + 2000)%Q.

(** The largest binary64 number below 1, [1 - 2^-53]. *)
Definition largestBelowOne : float := 0x1.fffffffffffffp-1%float.

End BlinkVocabulary.

Section EyeVocabulary.
Import Eyes.
Local Open Scope float_scope.


End EyeVocabulary.

Section ProducerVocabulary.
Import App.

(** The avatar never receives more than 20 chunks. *)
Definition chunksBounded (s : State) : Prop := length (textChunks s) ≤ 20.

End ProducerVocabulary.

Section PlaybackVocabulary.
Import Avatar.

(** The viseme on display after [chunks] were shown in turn on a mouth that
    showed [v]: a chunk with a first character sets its viseme, an empty
    chunk leaves the mouth as it is. *)
Definition shownAfter (v : Viseme) (chunks : list string) : Viseme :=
  foldl (λ shown chunk, default shown (Resolver.chunkViseme chunk)) v chunks.

(** Idle or out of tokens: cursor on 0, mouth at rest, no timeout. *)
Definition atRest (a : State) : Prop :=
  chunkIndex a = 0 ∧ currentViseme a = Shape.X ∧ visemeTimerRef a = None.

(** The animator's invariant.  With the flag down or the buffer empty the
    animator is at rest; a pending timeout was armed by the current render:
    the flag is up and its closure holds the current cursor, which lies in
    the buffer, and the current buffer length. *)
Definition settled (a : State) : Prop :=
  (isSpeaking a = false ∨ textChunks a = [] → atRest a)
  ∧ (∀ seen, visemeTimerRef a = Some seen →
       isSpeaking a = true
       ∧ seen = {| seenIndex := chunkIndex a; seenLength := length (textChunks a) |}
       ∧ chunkIndex a < length (textChunks a)).

(** Playing [tokens] with the cursor on [k], the mouth showing [v] and the
    timeout of this render pending. *)
Definition playing (tokens : list string) (k : nat) (v : Viseme) : State :=
  {| textChunks := tokens; isSpeaking := true; currentViseme := v; chunkIndex := k;
     visemeTimerRef := Some {| seenIndex := k; seenLength := length tokens |} |}.

(** All tokens played: at rest on the last token, waiting for more. *)
Definition waiting (tokens : list string) : State :=
  {| textChunks := tokens; isSpeaking := true; currentViseme := Shape.X;
     chunkIndex := length tokens - 1; visemeTimerRef := None |}.

End PlaybackVocabulary.

Section CleanupVocabulary.
Import Blink.

(** Eyes closed: the on-phase, with the handle that [blinkIntervalRef]
    still holds (of the outer timeout that has expired) older than the
    pending inner timeout. *)
Definition eyesClosed (s : State) : Prop :=
  onPhase s
  ∧ ∀ t h0, t ∈ timeouts s → blinkIntervalRef s = Some h0 → h0 < handle t.

End CleanupVocabulary.

(** Finite binary64 numbers as integers: their value in units of
    [2 ^ - depth], a unit small enough for every product of two of them. *)
Module Scaled.
Local Open Scope Z_scope.

Definition depth : Z := 2200.

Definition magnitude (m e : Z) : Z := m * 2 ^ (e + depth).

(** The value of a zero or finite number (0 for the others). *)
Definition val (f : spec_float) : Z :=
  match f with
  | S754_finite s m e => cond_Zopp s (magnitude (Zpos m) e)
  | _ => 0
  end.

Definition finite (f : spec_float) : bool :=
  match f with
  | S754_zero _ | S754_finite _ _ _ => true
  | _ => false
  end.

Definition nonneg (f : spec_float) : bool :=
  match f with
  | S754_zero _ | S754_finite false _ _ => true
  | _ => false
  end.

(** The number a rounding returns from its rounded mantissa [m2] at the
    exponent [e1]: a mantissa of 54 bits is halved. *)
Definition finish (sx : bool) (m2 e1 : Z) : spec_float :=
  if m2 =? 2 ^ 53 then
    if e1 + 1 <=? 971 then S754_finite sx (2 ^ 52) (e1 + 1) else S754_infinity sx
  else
    match m2 with
    | Z0 => S754_zero sx
    | Zpos m => if e1 <=? 971 then S754_finite sx m e1 else S754_infinity sx
    | Zneg _ => S754_nan
    end.

(** The shape of a rounded result: zero, or finite with the sign [sx]. *)
Definition rounded (sx : bool) (m e : Z) : spec_float :=
  match m with
  | Z0 => S754_zero sx
  | Zpos q => S754_finite sx q e
  | Zneg _ => S754_nan
  end.

(** The value of a primitive float. *)
Definition value (x : float) : Z := val (Prim2SF x).

(** A primitive float that is zero or finite and positive. *)
Definition proper (x : float) : Prop := nonneg (Prim2SF x) = true.

End Scaled.

Section GazeVocabulary.
Import Gaze.

(** Looking ahead: mounted and not distracted, and the only pending
    timeout is the outer one, tracked by [distractionIntervalRef]. *)
Definition lookingAhead (random : float) (s : State) : Prop :=
  hasMounted s = true
  ∧ isDistracted s = false
  ∧ ∃ h, distractionIntervalRef s = Some h ∧ h < nextHandle s
       ∧ timeouts s =
           [ {| handle := h; delay := nextDistractionDelay random;
                callback := DistractionStart |} ].

(** Looking away: mounted and distracted, both highlights sent to their
    offsets, and the only pending timeout is the inner one, which no ref
    tracks. *)
Definition lookingAway (random1 random2 random3 : float) (s : State) : Prop :=
  hasMounted s = true
  ∧ isDistracted s = true
  ∧ leftEyeShineX s = Some (leftOffset random1)
  ∧ rightEyeShineX s = Some (rightOffset random2)
  ∧ ∃ h, h < nextHandle s
       ∧ (∀ h0, distractionIntervalRef s = Some h0 → h0 < h)
       ∧ timeouts s =
           [ {| handle := h; delay := distractionDuration random3;
                callback := DistractionEnd |} ].

(** The largest binary64 numbers below 5000 and below 8000. *)
Definition below5000 : float := 0x1.387ffffffffffp+12%float.
Definition below8000 : float := 0x1.f3fffffffffffp+12%float.

End GazeVocabulary.

Section MouthVocabulary.
Import Mouth.
Local Open Scope float_scope.

(** A path that ends with the close command. *)
Definition closed (path : list PathCommand) : Prop := last path = Some ClosePath.

(** The commands from the point [(x0, y0)] on draw curves that are their
    own mirror images in the vertical axis: each curve ends at the mirror
    image of its start, and its control points mirror each other. *)
Fixpoint mirrored (x0 y0 : float) (path : list PathCommand) : bool :=
  match path with
  | [] => true
  | MoveTo x y :: rest => mirrored x y rest
  | CurveTo x1 y1 x2 y2 x y :: rest =>
      (x =? - x0) && (y =? y0) && (x2 =? - x1) && (y2 =? y1) && mirrored x y rest
  | ClosePath :: rest => mirrored x0 y0 rest
  end.

(** The numbers of a path, each as the sign, mantissa and exponent of its
    binary64 value. *)
Definition numbers (path : list PathCommand) : list (list spec_float) :=
  map (λ c, match c with
            | MoveTo x y => map Prim2SF [ x; y ]
            | CurveTo x1 y1 x2 y2 x y => map Prim2SF [ x1; y1; x2; y2; x; y ]
            | ClosePath => []
            end) path.

End MouthVocabulary.

Section StreamVocabulary.
Import App.

(** The tokens streamed so far: those before the cursor. *)
Definition streamed (s : State) : list string :=
  take (currentTokenRef s) (tokensToStreamRef s).

(** The last [n] elements of a list (all of them when it is shorter). *)
Definition lastN {A : Type} (n : nat) (l : list A) : list A :=
  drop (length l - n) l.

(** The bookkeeping of the producer: the cursor lies within the token
    stream, the stream has one token per code unit of the last processed
    text, and the avatar is shown the last 20 streamed tokens. *)
Definition bookkeeping (s : State) : Prop :=
  currentTokenRef s ≤ length (tokensToStreamRef s)
  ∧ length (tokensToStreamRef s) = String.length (lastTypedTextRef s)
  ∧ textChunks s = lastN 20 (streamed s).

(** The stream timeout is pending exactly while the flag is up, with the
    closure of a speaking render, and then there is a token in the stream. *)
Definition streaming (s : State) : Prop :=
  streamTimerRef s = (if isSpeaking s then Some true else None)
  ∧ (isSpeaking s = true → tokensToStreamRef s ≠ []).

(** Events that neither edit the text nor reset. *)
Definition passive (e : Event) : bool :=
  match e with
  | StreamTimeout | TypingTimeout | SpeedChange _ => true
  | TextChange _ | ResetClick => false
  end.

(** Two producer states that differ at most in the stored input text and
    the speed setting. *)
Definition sameEngine (s1 s2 : State) : Prop :=
  textChunks s1 = textChunks s2 ∧ isSpeaking s1 = isSpeaking s2
  ∧ streamTimerRef s1 = streamTimerRef s2
  ∧ currentTokenRef s1 = currentTokenRef s2
  ∧ tokensToStreamRef s1 = tokensToStreamRef s2
  ∧ typingTimeoutRef s1 = typingTimeoutRef s2
  ∧ lastTypedTextRef s1 = lastTypedTextRef s2.

(** A run in which every text change extends the last processed text. *)
Fixpoint appendOnly (s : State) (events : list Event) : bool :=
  match events with
  | [] => true
  | e :: rest =>
      match e with
      | TextChange newText => String.prefix (lastTypedTextRef s) newText
      | _ => true
      end && appendOnly (step s e) rest
  end.

(** [tokens.join('')] *)
Fixpoint join (tokens : list string) : string :=
  match tokens with
  | [] => ""
  | token :: rest => token +:+ join rest
  end.

End StreamVocabulary.

(** * Verification *)

(** A closed decidable proposition, settled by evaluating its decision
    procedure. *)
Ltac by_decision := apply (bool_decide_unpack _); vm_compute; exact I.

(** Case analysis on the eight bits of a code unit. *)
Ltac each_code_unit c := destruct c as [[] [] [] [] [] [] [] []].

(** ** The viseme resolver *)

Section ResolverFacts.
Import Resolver.

Example resolve_samples :
  map resolve [ "a"; "A"; "m"; "M"; "?"; "7"; "_" ]%char
  = [ Shape.A; Shape.A; Shape.B; Shape.B; Shape.D; Shape.X; Shape.X ].
Proof. reflexivity. Qed.

Example chunkViseme_samples :
  map chunkViseme [ "Hello"; ""; " world" ] = [ Some Shape.H; None; Some Shape.X ].
Proof. reflexivity. Qed.

(** [VISEME_KEYS] lists every own key of [VISEME_MAP]. *)
Lemma VISEME_MAP_keys (k : string) :
  k ∉ VISEME_KEYS → VISEME_MAP !! k = None.
Proof.
  intros Hk. unfold VISEME_MAP. by apply not_elem_of_list_to_map_1.
Qed.

Lemma lowerCodeUnit_idempotent (c : ascii) :
  lowerCodeUnit (lowerCodeUnit c) = lowerCodeUnit c.
Proof. each_code_unit c; reflexivity. Qed.

Lemma resolve_lowerCodeUnit (c : ascii) :
  resolve (lowerCodeUnit c) = resolve c.
Proof.
  unfold resolve. cbn [toLowerCase]. by rewrite lowerCodeUnit_idempotent.
Qed.

(** C1, the claim as stated, fails: an upper-case letter is none of the 26
    lower-case letters and five marks, and it does not resolve to rest. *)
Lemma C1_other_characters_rest_fails :
  ¬ (∀ c : ascii, String c "" ∉ VISEME_KEYS → resolve c = Shape.X).
Proof.
  intros Hall.
  assert (Hrest : resolve "A" = Shape.X) by (apply Hall; by_decision).
  discriminate Hrest.
Qed.

(** C1 (amended).  The resolver is a total function on code units.  Each of
    the 26 lower-case letters and the marks space, '.', ',', '?', '!'
    resolves to its table entry (b/m/p to 'B', f/v to 'F', k/q/g to 'G',
    '?' and '!' to 'D', space, '.' and ',' to 'X').  Every other character
    whose lower-case form is not one of these 31 keys - digits and unmapped
    punctuation included - resolves to rest 'X'; a character whose
    lower-case form is a key (an upper-case letter) resolves as that key. *)
Theorem C1_resolve_table (c : ascii) :
  map (λ k, String k "") keyCodeUnits = VISEME_KEYS
  ∧ map resolve keyCodeUnits =
      [ Shape.A; Shape.B; Shape.C; Shape.D; Shape.E; Shape.F; Shape.G;
        Shape.H; Shape.C; Shape.H; Shape.G; Shape.C; Shape.B; Shape.C;
        Shape.H; Shape.B; Shape.G; Shape.C; Shape.C; Shape.C; Shape.H;
        Shape.F; Shape.H; Shape.C; Shape.C; Shape.C;
        Shape.X; Shape.X; Shape.X; Shape.D; Shape.D ]
  ∧ (toLowerCase (String c "") ∉ VISEME_KEYS → resolve c = Shape.X)
  ∧ (String c "" ∉ VISEME_KEYS → ¬ isLowerCaseLetter (lowerCodeUnit c) →
     resolve c = Shape.X)
  ∧ resolve c = resolve (lowerCodeUnit c).
Proof.
  assert (Hmiss : toLowerCase (String c "") ∉ VISEME_KEYS → resolve c = Shape.X).
  { intros Hk. unfold resolve. by rewrite (VISEME_MAP_keys _ Hk). }
  split_and!; [reflexivity | reflexivity | exact Hmiss | | ].
  - intros Hk Hletter. apply Hmiss. cbn [toLowerCase]. revert Hk Hletter.
    unfold isLowerCaseLetter.
    each_code_unit c; intros Hk Hletter;
      first [ by_decision
            | exfalso; apply Hk; by_decision
            | exfalso; apply Hletter; vm_compute; split; discriminate ].
  - symmetry. apply resolve_lowerCodeUnit.
Qed.

Lemma C1_resolve_table_witness :
  Resolver.resolve "7" = Shape.X ∧ Resolver.resolve "#" = Shape.X.
Proof.
  split.
  - destruct (C1_resolve_table "7") as (_ & _ & Hmiss & _).
    apply Hmiss. by_decision.
  - destruct (C1_resolve_table "#") as (_ & _ & _ & Hother & _).
    apply Hother; [ by_decision | ].
    vm_compute. intros [Hlo _]. by apply Hlo.
Defined.

(** C6.  For each of the 26 letters, the upper-case form resolves to the
    same viseme as the lower-case form: lower-casing the upper-case form
    gives back the letter, and only that lower-case form is looked up. *)
Theorem C6_case_invariance (c : ascii) :
  isLowerCaseLetter c →
  lowerCodeUnit (upperCaseOf c) = c
  ∧ resolve (upperCaseOf c) = resolve c.
Proof.
  unfold isLowerCaseLetter. intros Hc.
  assert (Hlow : lowerCodeUnit (upperCaseOf c) = c).
  { revert Hc. each_code_unit c; intros Hc; vm_compute in Hc;
      first [ reflexivity
            | exfalso; destruct Hc as [Hlo Hhi];
              first [ by apply Hlo | by apply Hhi ] ]. }
  split; [ exact Hlow | ].
  rewrite <- (resolve_lowerCodeUnit (upperCaseOf c)). by rewrite Hlow.
Qed.

Lemma C6_case_invariance_witness :
  Resolver.resolve "A" = Resolver.resolve "a"
  ∧ Resolver.resolve "Z" = Resolver.resolve "z".
Proof.
  split.
  - refine (proj2 (C6_case_invariance "a" _)). vm_compute. split; discriminate.
  - refine (proj2 (C6_case_invariance "z" _)). vm_compute. split; discriminate.
Defined.

End ResolverFacts.

(** ** The speech animator *)

Section AvatarFacts.
Import Avatar.

(** A single token: shown at once, at rest 100 ms later, cursor still on it. *)
Example single_token :
  let a := mount [ "m" ] true in
  (currentViseme a, chunkIndex a) = (Shape.B, 0)
  ∧ (currentViseme (tick a), chunkIndex (tick a), visemeTimerRef (tick a))
    = (Shape.X, 0, None).
Proof. split; reflexivity. Qed.

(** An empty chunk leaves the mouth as it is and still takes its 100 ms. *)
Example empty_chunk :
  map (λ k, currentViseme (ticks k (mount [ "a"; ""; "b" ] true))) [ 0; 1; 2; 3 ]
  = [ Shape.A; Shape.A; Shape.B; Shape.X ].
Proof. reflexivity. Qed.

(** What each effect leaves alone. *)
Lemma processChunks_frame (a : State) :
  isSpeaking (processChunks a) = isSpeaking a
  ∧ textChunks (processChunks a) = textChunks a
  ∧ chunkIndex (processChunks a) = chunkIndex a.
Proof. unfold processChunks. repeat case_match; done. Qed.

Lemma visemeEffect_frame (a : State) :
  isSpeaking (visemeEffect a) = isSpeaking a
  ∧ textChunks (visemeEffect a) = textChunks a
  ∧ chunkIndex (visemeEffect a) = chunkIndex a.
Proof.
  unfold visemeEffect. case_match; [done|].
  apply (processChunks_frame (setVisemeTimer None a)).
Qed.

(** With the flag down the viseme effect puts the mouth at rest and leaves
    no timeout behind. *)
Lemma visemeEffect_silent (a : State) :
  isSpeaking a = false →
  currentViseme (visemeEffect a) = Shape.X ∧ visemeTimerRef (visemeEffect a) = None.
Proof. intros Hs. unfold visemeEffect. cbn. by rewrite Hs. Qed.

Lemma speakingEffect_frame (a : State) :
  isSpeaking (speakingEffect a) = isSpeaking a.
Proof. unfold speakingEffect. by case_match. Qed.

Lemma resetEffect_frame (a : State) :
  isSpeaking (resetEffect a) = isSpeaking a
  ∧ currentViseme (resetEffect a) = currentViseme a
  ∧ visemeTimerRef (resetEffect a) = visemeTimerRef a.
Proof. unfold resetEffect. by case_match. Qed.

Lemma commit_isSpeaking (p q : bool) (a : State) :
  isSpeaking (commit p q a) = isSpeaking a.
Proof.
  unfold commit.
  repeat case_match;
    rewrite ?(proj1 (visemeEffect_frame _)), ?(proj1 (resetEffect_frame _)),
      ?(proj1 (visemeEffect_frame _)), ?speakingEffect_frame; done.
Qed.

Lemma commit_silent (p q : bool) (a : State) :
  isSpeaking a = false → p || q = true →
  currentViseme (commit p q a) = Shape.X ∧ visemeTimerRef (commit p q a) = None.
Proof.
  intros Hs Hpq. unfold commit. rewrite Hpq.
  set (a1 := if p then speakingEffect a else a).
  assert (Hs1 : isSpeaking a1 = false).
  { subst a1. destruct p; by rewrite ?speakingEffect_frame. }
  destruct (visemeEffect_frame a1) as (Hs2 & _ & _). rewrite Hs1 in Hs2.
  destruct (visemeEffect_silent a1 Hs1) as [Hv Ht].
  set (a3 := resetEffect (visemeEffect a1)).
  assert (H3 : isSpeaking a3 = false ∧ currentViseme a3 = Shape.X ∧ visemeTimerRef a3 = None).
  { subst a3. destruct (resetEffect_frame (visemeEffect a1)) as (-> & -> & ->). done. }
  destruct H3 as (Hs3 & Hv3 & Ht3).
  case_match; [done|]. by apply visemeEffect_silent.
Qed.

Lemma commit_unchanged (a : State) : commit false false a = a.
Proof. unfold commit. cbn. by rewrite Nat.eqb_refl. Qed.

Lemma render_isSpeaking chunks (speaking : bool) (a : State) :
  isSpeaking (render chunks speaking a) = speaking.
Proof. unfold render. by rewrite commit_isSpeaking. Qed.

Lemma tick_isSpeaking (a : State) : isSpeaking (tick a) = isSpeaking a.
Proof.
  unfold tick. repeat case_match; try done.
  by rewrite (proj1 (visemeEffect_frame _)).
Qed.

Lemma tick_idle (a : State) : visemeTimerRef a = None → tick a = a.
Proof. intros Ht. unfold tick. by rewrite Ht. Qed.

Lemma ticks_idle (n : nat) (a : State) : visemeTimerRef a = None → ticks n a = a.
Proof.
  intros Ht. induction n as [|n IH]; [done|]. cbn [ticks]. by rewrite tick_idle.
Qed.

Lemma render_silent (chunks : option (list string)) (a : State) :
  restWhenSilent a →
  currentViseme (render chunks false a) = Shape.X
  ∧ visemeTimerRef (render chunks false a) = None.
Proof.
  intros Hinv. unfold render.
  destruct (isSpeaking a) eqn:Hs.
  - by apply commit_silent.
  - destruct chunks as [l|].
    + by apply commit_silent.
    + change (commit _ _ ?b) with (commit false false b).
      rewrite commit_unchanged. cbn. by apply Hinv.
Qed.

Lemma restWhenSilent_mount chunks speaking : restWhenSilent (mount chunks speaking).
Proof.
  intros Hs. unfold mount in *. rewrite commit_isSpeaking in Hs.
  by apply commit_silent.
Qed.

Lemma restWhenSilent_step (a : State) (e : Event) :
  restWhenSilent a → restWhenSilent (step a e).
Proof.
  intros Hinv. destruct e as [chunks [] | ]; cbn [step].
  - intros Hs. by rewrite render_isSpeaking in Hs.
  - intros _. by apply render_silent.
  - intros Hs. rewrite tick_isSpeaking in Hs.
    destruct (Hinv Hs) as [Hv Ht]. by rewrite tick_idle.
Qed.

Lemma restWhenSilent_run (events : list Event) (a : State) :
  restWhenSilent a → restWhenSilent (run events a).
Proof.
  revert a. induction events as [|e events IH]; intros a Hinv; [done|].
  cbn. apply IH. by apply restWhenSilent_step.
Qed.

Lemma render_silent_again (a : State) :
  isSpeaking a = false → render None false a = a.
Proof.
  intros Hs. unfold render. rewrite Hs.
  change (commit _ _ ?b) with (commit false false b).
  rewrite commit_unchanged. destruct a; cbn in *. by subst.
Qed.

(** The timeout never moves the cursor back: it keeps it or advances it by one. *)
Lemma tick_chunkIndex (a : State) :
  chunkIndex (tick a) = chunkIndex a ∨ chunkIndex (tick a) = chunkIndex a + 1.
Proof.
  unfold tick. repeat case_match; try (by left).
  right. by destruct (visemeEffect_frame
    (setChunkIndex (chunkIndex (setVisemeTimer None a) + 1) (setVisemeTimer None a)))
    as (_ & _ & ->).
Qed.

(** C2, evaluated where it fails.  With "h","e","l","l","o" buffered
    before the flag goes up, the mouth sampled at 0, 100, 200, 300 and
    400 ms shows the visemes of h, e, l, l, o, that is H, E, C, C, H, and
    from 500 ms on it is at rest with the flag up for as long as no props
    change; the same holds when the avatar is mounted with the buffer and
    the flag already up.  But the rest does not hold in every session in
    which the flag stays up and no further token arrives.  The cursor has
    stayed on the last token (index 4), so a render that hands over a new
    array with the same five tokens runs [processChunks] there and the
    mouth shows the viseme of "o" again, until the next timeout. *)
Theorem C2_rest_lost_on_rerender (n : nat) :
  let exhausted := ticks (5 + n) (session hello) in
  let again := render (Some hello) true exhausted in
  (map Resolver.resolve [ "h"; "e"; "l"; "l"; "o" ]%char
     = [ Shape.H; Shape.E; Shape.C; Shape.C; Shape.H ]
   ∧ map (λ k, currentViseme (ticks k (session hello))) [ 0; 1; 2; 3; 4 ]
     = [ Shape.H; Shape.E; Shape.C; Shape.C; Shape.H ]
   ∧ map (λ k, currentViseme (ticks k (mount hello true))) [ 0; 1; 2; 3; 4 ]
     = [ Shape.H; Shape.E; Shape.C; Shape.C; Shape.H ])
  ∧ (currentViseme exhausted = Shape.X ∧ isSpeaking exhausted = true
     ∧ textChunks exhausted = hello ∧ chunkIndex exhausted = 4
     ∧ visemeTimerRef exhausted = None
     ∧ ticks (5 + n) (mount hello true) = exhausted)
  ∧ (isSpeaking again = true ∧ textChunks again = hello ∧ chunkIndex again = 4
     ∧ currentViseme again = Resolver.resolve "o"
     ∧ currentViseme again = Shape.H)
  ∧ currentViseme (tick again) = Shape.X
  ∧ ¬ (∀ events, forallb (noFurtherToken hello) events = true →
         currentViseme (run events exhausted) = Shape.X).
Proof.
  assert (Hwait : ∀ a, visemeTimerRef (ticks 5 a) = None →
                       ticks (5 + n) a = ticks 5 a).
  { intros a Ht. change (ticks (5 + n) a) with (ticks n (ticks 5 a)).
    by apply ticks_idle. }
  cbv zeta. rewrite !Hwait by (vm_compute; reflexivity).
  assert (Hagain : currentViseme (render (Some hello) true (ticks 5 (session hello)))
                   = Shape.H) by (vm_compute; reflexivity).
  repeat match goal with |- _ ∧ _ => split end.
  all: try (intros Hrest;
            specialize (Hrest [ Render (Some hello) true ] eq_refl);
            cbn [run foldl step] in Hrest; rewrite Hagain in Hrest;
            discriminate Hrest).
  all: vm_compute; reflexivity.
Qed.

(** C3, evaluated where it fails.  After "hello" is consumed the cursor
    rests on the last token (index 4) with the mouth at rest and no timeout
    pending.  Appending "x" leaves the cursor at 4, so the sequence does not
    restart, but the render that brings the new token shows the viseme of
    the already consumed "o" once more; the viseme of "x" follows one
    timeout later. *)
Theorem C3_append_after_exhaustion :
  let exhausted := ticks 5 (session hello) in
  let appended := render (Some (hello ++ [ "x" ])%list) true exhausted in
  (chunkIndex exhausted = 4 ∧ currentViseme exhausted = Shape.X
   ∧ visemeTimerRef exhausted = None ∧ isSpeaking exhausted = true)
  ∧ (chunkIndex appended = 4 ∧ textChunks appended !! 4 = Some "o"
     ∧ currentViseme appended = Resolver.resolve "o"
     ∧ currentViseme appended = Shape.H)
  ∧ (chunkIndex (tick appended) = 5 ∧ textChunks appended !! 5 = Some "x"
     ∧ currentViseme (tick appended) = Resolver.resolve "x"
     ∧ currentViseme (tick appended) = Shape.C).
Proof. vm_compute. split_and!; reflexivity. Qed.

(** C4, evaluated where it fails.  Two timeouts into "hello" the cursor is
    at 2; lowering the flag, with the same buffer and no reset, puts it back
    to 0.  (With the flag up and a non-empty buffer the reset effect does
    nothing, and a timeout alone never moves the cursor back.) *)
Theorem C4_flag_lowered_resets_cursor :
  let speaking := ticks 2 (session hello) in
  (chunkIndex speaking = 2 ∧ isSpeaking speaking = true
   ∧ textChunks speaking = hello)
  ∧ (chunkIndex (render None false speaking) = 0
     ∧ textChunks (render None false speaking) = hello)
  ∧ (∀ a, isSpeaking a = true → textChunks a ≠ [] → resetEffect a = a)
  ∧ (∀ a, chunkIndex a ≤ chunkIndex (tick a)).
Proof.
  split_and!; try (vm_compute; reflexivity).
  - intros a Hs Hchunks. unfold resetEffect. rewrite Hs.
    by destruct (textChunks a).
  - intros a. destruct (tick_chunkIndex a) as [-> | ->]; lia.
Qed.

(** C5.  In every state the avatar reaches, a lowered flag means the mouth
    is at rest, whatever the buffer holds.  Lowering the flag puts the mouth
    at rest in that very render, with no timeout involved, and lowering it
    again changes nothing. *)
Theorem C5_silent_is_rest
    (chunks : list string) (speaking : bool) (events : list Event)
    (chunks' : option (list string)) :
  let a := run events (mount chunks speaking) in
  (isSpeaking a = false → currentViseme a = Shape.X)
  ∧ currentViseme (render chunks' false a) = Shape.X
  ∧ render None false (render chunks' false a) = render chunks' false a.
Proof.
  intros a.
  assert (Hinv : restWhenSilent a).
  { apply restWhenSilent_run, restWhenSilent_mount. }
  split_and!.
  - intros Hs. by apply Hinv.
  - by apply render_silent.
  - apply render_silent_again, render_isSpeaking.
Qed.

Lemma C5_silent_is_rest_witness :
  let a := Avatar.run [ Avatar.Render None true; Avatar.Tick;
                        Avatar.Render None false ]
             (Avatar.mount hello false) in
  Avatar.textChunks a = hello ∧ Avatar.currentViseme a = Shape.X.
Proof.
  split; [ reflexivity | ].
  refine (proj1 (C5_silent_is_rest hello false
            [ Render None true; Tick; Render None false ] None) _).
  reflexivity.
Defined.

End AvatarFacts.

(** ** Binary64 rounding of [r * 3000 + 2000]

    The primitive floats are specified by [SpecFloat] through the axioms of
    [FloatAxioms].  This module bounds the rounded product and sum by
    integer arithmetic on mantissas: rounding a positive number never
    crosses a number of the result's own grid. *)

Module Binary64Facts.
Import Binary64.
Local Open Scope Z_scope.

(** *** Number of bits of a mantissa *)

Lemma digits2_size (p : positive) : digits2_pos p = Pos.size p.
Proof. induction p; cbn; congruence. Qed.

Lemma digits2_gt (p : positive) : Zpos p < 2 ^ Zpos (digits2_pos p).
Proof.
  rewrite digits2_size. pose proof (Pos.size_gt p) as Hgt.
  apply Pos2Z.pos_lt_pos in Hgt. by rewrite Pos2Z.inj_pow in Hgt.
Qed.

Lemma digits2_le (p : positive) : 2 ^ Zpos (digits2_pos p) ≤ 2 * Zpos p.
Proof.
  rewrite digits2_size. pose proof (Pos.size_le p) as Hle.
  apply Pos2Z.pos_le_pos in Hle. by rewrite Pos2Z.inj_pow in Hle.
Qed.

Lemma digits2_upper (p : positive) (k : Z) :
  0 ≤ k → Zpos p < 2 ^ k → Zpos (digits2_pos p) ≤ k.
Proof.
  intros Hk Hp. destruct (Z_le_gt_dec (Zpos (digits2_pos p)) k) as [|Hgt]; [done|].
  exfalso. pose proof (digits2_le p) as Hle.
  assert (2 ^ (k + 1) ≤ 2 ^ Zpos (digits2_pos p)) by (apply Z.pow_le_mono_r; lia).
  rewrite Z.pow_add_r in * by lia. lia.
Qed.

Lemma digits2_lower (p : positive) (k : Z) :
  0 ≤ k → 2 ^ k ≤ Zpos p → k < Zpos (digits2_pos p).
Proof.
  intros Hk Hp. pose proof (digits2_gt p) as Hgt.
  apply (Z.pow_lt_mono_r_iff 2); lia.
Qed.

(** *** Shifting a mantissa right

    [shr] drops the low bits of a mantissa and keeps, in two flags, whether
    any of them was set. *)

Lemma iter_pos_nat {A : Type} (f : A → A) (p : positive) (x : A) :
  SpecFloat.iter_pos f p x = Nat.iter (Pos.to_nat p) f x.
Proof.
  revert x. induction p as [p IH|p IH|]; intros x; cbn [SpecFloat.iter_pos].
  - rewrite !IH.
    replace (Pos.to_nat p~1) with (S (Pos.to_nat p + Pos.to_nat p))%nat by lia.
    rewrite Nat.iter_succ_r. by rewrite Nat.iter_add.
  - rewrite !IH.
    replace (Pos.to_nat p~0) with (Pos.to_nat p + Pos.to_nat p)%nat by lia.
    by rewrite Nat.iter_add.
  - done.
Qed.

Lemma shr_1_spec (mrs : shr_record) :
  0 ≤ shr_m mrs →
  shr_m (shr_1 mrs) = shr_m mrs / 2
  ∧ (inexact (shr_1 mrs) = true → inexact mrs = true ∨ shr_m mrs mod 2 = 1).
Proof.
  destruct mrs as [m r s]. unfold inexact. cbn [shr_m shr_r shr_s]. intros Hm.
  destruct m as [|[p|p|]|p]; cbn [shr_1 shr_m shr_r shr_s]; try lia.
  - split; [done|]. intros Hi. left. by destruct r, s.
  - split; [Z.div_mod_to_equations; lia|]. intros _. right.
    Z.div_mod_to_equations; lia.
  - split; [Z.div_mod_to_equations; lia|]. intros Hi. left. by destruct r, s.
  - split; [done|]. intros _. by right.
Qed.

Lemma shr_iter_spec (M : Z) (k : nat) :
  0 ≤ M →
  let mrs := Nat.iter k shr_1 {| shr_m := M; shr_r := false; shr_s := false |} in
  shr_m mrs = M / 2 ^ Z.of_nat k
  ∧ (inexact mrs = true → M mod 2 ^ Z.of_nat k ≠ 0).
Proof.
  intros HM. induction k as [|k IH]; cbn zeta.
  - cbn. rewrite Z.div_1_r. split; [done|]. discriminate.
  - cbn zeta in IH. destruct IH as [IHm IHi].
    rewrite Nat.iter_succ.
    set (mrs := Nat.iter k shr_1 _) in *.
    assert (Hpos : 0 < 2 ^ Z.of_nat k) by (apply Z.pow_pos_nonneg; lia).
    destruct (shr_1_spec mrs) as [Hm Hi].
    { rewrite IHm. apply Z.div_pos; lia. }
    rewrite Nat2Z.inj_succ, Z.pow_succ_r by lia.
    split.
    + rewrite Hm, IHm, Z.div_div by lia. f_equal. lia.
    + intros Hinex Hmod. destruct (Hi Hinex) as [Hprev | Hodd].
      * apply IHi; [done|].
        apply Z.mod_divide in Hmod; [|lia]. apply Z.mod_divide; [lia|].
        destruct Hmod as [c Hc]. exists (c * 2). lia.
      * rewrite IHm in Hodd.
        apply Z.mod_divide in Hmod; [|lia]. destruct Hmod as [c Hc].
        rewrite Hc in Hodd.
        replace (c * (2 * 2 ^ Z.of_nat k)) with ((c * 2) * 2 ^ Z.of_nat k) in Hodd by lia.
        rewrite Z.div_mul in Hodd by lia.
        rewrite Z.mod_mul in Hodd by lia. lia.
Qed.

Lemma shr_exact_spec (M E n : Z) :
  0 ≤ M →
  ∃ mrs,
    shr {| shr_m := M; shr_r := false; shr_s := false |} E n
      = (mrs, E + Z.max n 0)
    ∧ shr_m mrs = M / 2 ^ Z.max n 0
    ∧ (inexact mrs = true → M mod 2 ^ Z.max n 0 ≠ 0).
Proof.
  intros HM. destruct n as [|p|p]; cbn [shr].
  - eexists. split; [by rewrite Z.add_0_r|]. cbn. rewrite Z.div_1_r.
    split; [done|]. discriminate.
  - rewrite iter_pos_nat. eexists. split; [by rewrite Z.max_l by lia|].
    rewrite Z.max_l by lia. rewrite <- (positive_nat_Z p).
    by apply shr_iter_spec.
  - eexists. split; [by rewrite Z.max_r, Z.add_0_r by lia|].
    rewrite Z.max_r by lia. cbn. rewrite Z.div_1_r.
    split; [done|]. discriminate.
Qed.

(** *** Rounding to nearest, ties to even *)

Lemma round_nearest_even_bounds (mrs : shr_record) :
  let m' := round_nearest_even (shr_m mrs) (loc_of_shr_record mrs) in
  shr_m mrs ≤ m' ≤ shr_m mrs + 1 ∧ (inexact mrs = false → m' = shr_m mrs).
Proof.
  destruct mrs as [m [] []]; unfold inexact; cbn; repeat case_match; (split; [lia|]);
    intros; try done; discriminate.
Qed.

Lemma fexp64_eq (e : Z) : fexp prec emax e = fexp64 e.
Proof. reflexivity. Qed.

(** The result of rounding a positive number [M * 2^E]: its mantissa lies
    between the floor and the ceiling of the number in units of the result
    exponent. *)
Lemma binary_round_aux_spec (M : positive) (E : Z) :
  let e1 := Z.max E (fexp64 (Zpos (digits2_pos M) + E)) in
  ∃ mf ef : Z,
    binary_round_aux prec emax false (Zpos M) E loc_Exact
      = match mf with
        | Z0 => S754_zero false
        | Zpos m => if ef <=? emax - prec then S754_finite false m ef
                    else S754_infinity false
        | Zneg _ => S754_nan
        end
    ∧ 0 ≤ mf ∧ e1 ≤ ef ≤ e1 + 1
    ∧ (∀ k, Zpos M ≤ k * 2 ^ (ef - E) → mf ≤ k)
    ∧ (∀ k, k * 2 ^ (ef - E) ≤ Zpos M → k ≤ mf).
Proof.
  intros e1. unfold binary_round_aux, shr_fexp.
  cbn [shr_record_of_loc Zdigits2]. rewrite fexp64_eq.
  set (d := Zpos (digits2_pos M)) in *.
  set (n1 := fexp64 (d + E) - E).
  destruct (shr_exact_spec (Zpos M) E n1) as (mrs1 & -> & Hm1 & Hi1); [lia|].
  set (k1 := Z.max n1 0) in *.
  assert (He1 : E + k1 = e1) by (subst e1 k1 n1; lia).
  rewrite He1.
  destruct (round_nearest_even_bounds mrs1) as [Hr1 Hr2].
  set (m2 := round_nearest_even (shr_m mrs1) (loc_of_shr_record mrs1)) in *.
  assert (Hk1 : 0 ≤ k1) by lia.
  assert (Hp1 : 0 < 2 ^ k1) by (by apply Z.pow_pos_nonneg).
  assert (Hm1pos : 0 ≤ shr_m mrs1).
  { rewrite Hm1. apply Z.div_pos; lia. }
  assert (Hm1lt : shr_m mrs1 < 2 ^ 53).
  { rewrite Hm1. apply Z.div_lt_upper_bound; [lia|].
    pose proof (digits2_gt M) as Hgt. fold d in Hgt.
    rewrite <- Z.pow_add_r by lia.
    eapply Z.lt_le_trans; [exact Hgt|].
    apply Z.pow_le_mono_r; [lia|]. subst k1 n1. unfold fexp64. lia. }
  rewrite fexp64_eq.
  set (n2 := fexp64 (Zdigits2 m2 + e1) - e1).
  destruct (shr_exact_spec m2 e1 n2) as (mrs2 & -> & Hm2 & _); [lia|].
  set (k2 := Z.max n2 0) in *.
  assert (Hk2 : 0 ≤ k2 ≤ 1).
  { split; [lia|]. subst k2 n2.
    assert (Zdigits2 m2 ≤ 54).
    { destruct m2 as [|p|p] eqn:Hm2eq; cbn [Zdigits2]; try lia.
      apply digits2_upper; [lia|]. lia. }
    assert (-1074 ≤ e1) by (subst e1; unfold fexp64; lia).
    unfold fexp64. lia. }
  assert (Hp2 : 0 < 2 ^ k2) by (apply Z.pow_pos_nonneg; lia).
  exists (shr_m mrs2), (e1 + k2).
  assert (Hmf : 0 ≤ shr_m mrs2).
  { rewrite Hm2. apply Z.div_pos; lia. }
  replace (e1 + k2 - E) with (k1 + k2) by lia.
  rewrite Z.pow_add_r by lia.
  split_and!; try lia.
  - destruct (shr_m mrs2) as [|p|p]; [done | done | lia].
  - intros k Hk. rewrite Hm2.
    assert (Hm2le : m2 ≤ k * 2 ^ k2).
    { destruct (inexact mrs1) eqn:Hinex.
      - specialize (Hi1 eq_refl).
        assert (shr_m mrs1 < k * 2 ^ k2); [|lia].
        rewrite Hm1. apply Z.div_lt_upper_bound; [lia|].
        assert (Zpos M ≠ 2 ^ k1 * (k * 2 ^ k2)); [|lia].
        intros Heq. apply Hi1. rewrite Heq, Z.mul_comm. by apply Z.mod_mul, Z.neq_sym, Z.lt_neq.
      - rewrite (Hr2 eq_refl), Hm1.
        apply Z.div_le_upper_bound; lia. }
    apply Z.div_le_upper_bound; lia.
  - intros k Hk. rewrite Hm2. apply Z.div_le_lower_bound; [lia|].
    assert (k * 2 ^ k2 ≤ shr_m mrs1); [|lia].
    rewrite Hm1. apply Z.div_le_lower_bound; lia.
Qed.


(** *** Aligning mantissas before an addition *)

Lemma iter_xO_spec (m d : positive) :
  Zpos (Pos.iter xO m d) = Zpos m * 2 ^ Zpos d.
Proof.
  induction d as [|d IH] using Pos.peano_ind.
  - cbn. lia.
  - rewrite Pos.iter_succ, Pos2Z.inj_xO, IH, Pos2Z.inj_succ, Z.pow_succ_r; lia.
Qed.

Lemma shl_align_spec (mx : positive) (ex ex' : Z) :
  ∃ mz, shl_align mx ex ex' = (mz, Z.min ex ex')
        ∧ Zpos mz = Zpos mx * 2 ^ (ex - Z.min ex ex').
Proof.
  unfold shl_align. destruct (ex' - ex) as [|d|d] eqn:Hd.
  - exists mx. rewrite Z.min_l by lia. rewrite Z.sub_diag. split; [done|]. cbn. lia.
  - exists mx. rewrite Z.min_l by lia. rewrite Z.sub_diag. split; [done|]. cbn. lia.
  - eexists. rewrite Z.min_r by lia. split; [done|].
    rewrite iter_xO_spec. f_equal. f_equal. lia.
Qed.

(** Validity of a finite number gives a mantissa of at most 53 bits and the
    exponent the mantissa calls for. *)
Lemma bounded_spec (m : positive) (e : Z) :
  bounded prec emax m e = true →
  fexp64 (Zpos (digits2_pos m) + e) = e ∧ Zpos m < 2 ^ 53.
Proof.
  unfold bounded, canonical_mantissa. rewrite fexp64_eq.
  intros [Hc _]%andb_prop. apply Z.eqb_eq in Hc. split; [done|].
  pose proof (digits2_gt m) as Hgt.
  eapply Z.lt_le_trans; [exact Hgt|].
  apply Z.pow_le_mono_r; [lia|]. unfold fexp64 in Hc. lia.
Qed.

(** *** The product with 3000 and the sum with 2000 *)

Lemma constants :
  Prim2SF 3000 = c3000 ∧ Prim2SF 2000 = c2000 ∧ Prim2SF 5000 = c5000
  ∧ Prim2SF 0 = S754_zero false
  ∧ Prim2SF 1 = S754_finite false 4503599627370496 (-52).
Proof. split_and!; vm_compute; reflexivity. Qed.

(** A valid number below 1 times 3000: zero, or positive and at most 3000. *)
Lemma mul3000_spec (m : positive) (e : Z) :
  bounded prec emax m e = true → e ≤ -53 →
  ∃ mp ep,
    SF64mul (S754_finite false m e) c3000 = positive_or_zero mp ep
    ∧ 0 ≤ mp ∧ ep ≤ -40 ∧ mp ≤ 3000 * 2 ^ (- ep).
Proof.
  intros [_ Hm]%bounded_spec He.
  unfold SF64mul, c3000. cbn [SFmul xorb].
  set (M := (m * 6597069766656000)%positive).
  destruct (binary_round_aux_spec M (e + -41)) as (mf & ef & -> & Hmf & Hef & Hup & _).
  assert (HM : Zpos M = Zpos m * 3000 * 2 ^ 41) by (subst M; lia).
  assert (Hd : Zpos (digits2_pos M) ≤ 106).
  { apply digits2_upper; [lia|]. rewrite HM.
    change (2 ^ 106) with (2 ^ 53 * 2 ^ 12 * 2 ^ 41).
    change (2 ^ 12) with 4096. nia. }
  assert (Hef' : e + -41 ≤ ef ≤ -40) by (unfold fexp64 in Hef; lia).
  exists mf, ef. split_and!; try lia.
  - unfold positive_or_zero. destruct mf as [|q|q]; try done.
    change (emax - prec) with 971. by rewrite (proj2 (Z.leb_le _ _)) by lia.
  - apply Hup.
    assert (Hsplit : 2 ^ (- ef) * 2 ^ (ef - (e + -41)) = 2 ^ 41 * 2 ^ (- e)).
    { rewrite <- !Z.pow_add_r by lia. f_equal. lia. }
    rewrite <- Z.mul_assoc, Hsplit, HM.
    assert (2 ^ 53 ≤ 2 ^ (- e)) by (apply Z.pow_le_mono_r; lia).
    nia.
Qed.


(** A positive number of at most 3000 plus 2000: between 2000 and 5000. *)
Lemma add2000_spec (mp : positive) (ep : Z) :
  ep ≤ -40 → Zpos mp ≤ 3000 * 2 ^ (- ep) →
  ∃ mt et,
    SF64add (S754_finite false mp ep) c2000 = S754_finite false mt et
    ∧ et ≤ -39
    ∧ 2000 * 2 ^ (- et) ≤ Zpos mt ≤ 5000 * 2 ^ (- et).
Proof.
  intros Hep Hmp. unfold SF64add, c2000. cbn [SFadd cond_Zopp].
  set (ez := Z.min ep (-42)).
  destruct (shl_align_spec mp ep ez) as (a & -> & Ha).
  destruct (shl_align_spec 8796093022208000 (-42) ez) as (b & -> & Hb).
  cbn [fst]. replace (Z.min ep ez) with ez in Ha by lia.
  replace (Z.min (-42) ez) with ez in Hb by lia.
  change (Zpos a + Zpos b) with (Zpos (a + b)).
  cbn [binary_normalize]. unfold binary_round. rewrite fexp64_eq.
  set (target := fexp64 (Zpos (digits2_pos (a + b)) + ez)).
  destruct (shl_align_spec (a + b) ez target) as (mz & -> & Hmz).
  set (ez' := Z.min ez target) in *.
  (* the sum, in units of 2^ez and of 2^ez' *)
  assert (HU : 2 ^ (- ez) = 2 ^ 42 * 2 ^ (-42 - ez)).
  { rewrite <- Z.pow_add_r by lia. f_equal. lia. }
  assert (HUp : 2 ^ (- ez) = 2 ^ (- ep) * 2 ^ (ep - ez)).
  { rewrite <- Z.pow_add_r by lia. f_equal. lia. }
  assert (HU' : 2 ^ (- ez') = 2 ^ (- ez) * 2 ^ (ez - ez')).
  { rewrite <- Z.pow_add_r by lia. f_equal. lia. }
  assert (Hp1 : 0 < 2 ^ (-42 - ez)) by (apply Z.pow_pos_nonneg; lia).
  assert (Hp2 : 0 < 2 ^ (ep - ez)) by (apply Z.pow_pos_nonneg; lia).
  assert (Hp3 : 0 < 2 ^ (ez - ez')) by (apply Z.pow_pos_nonneg; lia).
  assert (Hb' : Zpos b = 2000 * 2 ^ (- ez)).
  { rewrite Hb, HU. change (2 ^ 42) with 4398046511104. lia. }
  assert (Ha' : Zpos a ≤ 3000 * 2 ^ (- ez)).
  { rewrite Ha, HUp. nia. }
  assert (Hsum : 2000 * 2 ^ (- ez') ≤ Zpos mz ≤ 5000 * 2 ^ (- ez')).
  { rewrite Hmz, HU', Pos2Z.inj_add. nia. }
  destruct (binary_round_aux_spec mz ez') as (mf & ef & -> & Hmf & Hef & Hup & Hlo).
  assert (Hd : Zpos (digits2_pos mz) ≤ 13 - ez').
  { apply digits2_upper; [lia|].
    replace (13 - ez') with (13 + - ez') by lia. rewrite Z.pow_add_r by lia.
    change (2 ^ 13) with 8192.
    assert (0 < 2 ^ (- ez')) by (apply Z.pow_pos_nonneg; lia). lia. }
  assert (Hef' : ez' ≤ ef ≤ -39) by (unfold fexp64 in Hef; lia).
  assert (Hsplit : 2 ^ (- ef) * 2 ^ (ef - ez') = 2 ^ (- ez')).
  { rewrite <- Z.pow_add_r by lia. f_equal. lia. }
  assert (Hhi : mf ≤ 5000 * 2 ^ (- ef)).
  { apply Hup. rewrite <- Z.mul_assoc, Hsplit. lia. }
  assert (Hlow : 2000 * 2 ^ (- ef) ≤ mf).
  { apply Hlo. rewrite <- Z.mul_assoc, Hsplit. lia. }
  assert (0 < 2 ^ (- ef)) by (apply Z.pow_pos_nonneg; lia).
  destruct mf as [|mt|mt]; try lia.
  exists mt, ef. change (emax - prec) with 971.
  rewrite (proj2 (Z.leb_le _ _)) by lia. split_and!; [done | lia | lia | lia].
Qed.

(** Comparison of two finite positive numbers goes by exponent, then by
    mantissa. *)
Lemma SFleb_finite (m1 : positive) (e1 : Z) (m2 : positive) (e2 : Z) :
  e1 < e2 ∨ (e1 = e2 ∧ Zpos m1 ≤ Zpos m2) →
  SFleb (S754_finite false m1 e1) (S754_finite false m2 e2) = true.
Proof.
  intros Hle. unfold SFleb. cbn [SFcompare].
  destruct (Z.compare_spec e1 e2) as [Heq | Hlt | Hgt]; [| done | lia].
  change (Pos.compare_cont Eq m1 m2) with (m1 ?= m2)%positive.
  destruct (Pos.compare_spec m1 m2) as [? | ? | Hgt]; [done | done | lia].
Qed.

Lemma SFltb_finite (m1 : positive) (e1 : Z) (m2 : positive) (e2 : Z) :
  SFltb (S754_finite false m1 e1) (S754_finite false m2 e2) = true →
  e1 < e2 ∨ (e1 = e2 ∧ Zpos m1 < Zpos m2).
Proof.
  unfold SFltb. cbn [SFcompare].
  destruct (Z.compare_spec e1 e2) as [Heq | Hlt | Hgt]; [| by left | done].
  change (Pos.compare_cont Eq m1 m2) with (m1 ?= m2)%positive.
  destruct (Pos.compare_spec m1 m2) as [? | Hlt | ?]; [done | | done].
  intros _. right. lia.
Qed.

(** A valid finite number between 2000 and 5000 has exponent -42, -41 or
    -40, and compares with the two bounds as its value does. *)
Lemma in_range_compare (mt : positive) (et : Z) :
  bounded prec emax mt et = true → et ≤ -39 →
  2000 * 2 ^ (- et) ≤ Zpos mt ≤ 5000 * 2 ^ (- et) →
  SFleb c2000 (S754_finite false mt et) = true
  ∧ SFleb (S754_finite false mt et) c5000 = true.
Proof.
  intros [Hcanon _]%bounded_spec Het [Hlo Hhi].
  assert (Hpos : 0 < 2 ^ (- et)) by (apply Z.pow_pos_nonneg; lia).
  assert (Hdlo : 10 - et < Zpos (digits2_pos mt)).
  { apply digits2_lower; [lia|].
    replace (10 - et) with (10 + - et) by lia. rewrite Z.pow_add_r by lia.
    change (2 ^ 10) with 1024. lia. }
  assert (Hdhi : Zpos (digits2_pos mt) ≤ 13 - et).
  { apply digits2_upper; [lia|].
    replace (13 - et) with (13 + - et) by lia. rewrite Z.pow_add_r by lia.
    change (2 ^ 13) with 8192. lia. }
  assert (Hrange : -42 ≤ et ≤ -40) by (unfold fexp64 in Hcanon; lia).
  assert (H42 : et = -42 → 2 ^ (- et) = 4398046511104) by (by intros ->).
  assert (H40 : et = -40 → 2 ^ (- et) = 1099511627776) by (by intros ->).
  unfold c2000, c5000. split; apply SFleb_finite.
  - destruct (Z.eq_dec et (-42)) as [Heq | Hne]; [right | left; lia].
    rewrite (H42 Heq) in Hlo. lia.
  - destruct (Z.eq_dec et (-40)) as [Heq | Hne]; [right | left; lia].
    rewrite (H40 Heq) in Hhi. lia.
Qed.

(** For every binary64 number [r] with [0 <= r < 1], the number
    [r * 3000 + 2000], as binary64 arithmetic computes it, lies between
    2000 and 5000, both ends included. *)
Theorem blink_delay_range (r : float) :
  (0 <=? r)%float = true → (r <? 1)%float = true →
  (2000 <=? r * 3000 + 2000)%float = true
  ∧ (r * 3000 + 2000 <=? 5000)%float = true.
Proof.
  destruct constants as (H3000 & H2000 & H5000 & H0 & H1).
  rewrite !leb_spec, ltb_spec.
  pose proof (Prim2SF_valid r) as Hvr.
  pose proof (Prim2SF_valid (r * 3000 + 2000)) as Hvt.
  revert Hvt. rewrite add_spec, mul_spec, H0, H1, H2000, H3000, H5000.
  destruct (Prim2SF r) as [s | s | | s m e]; intros Hvt Hge Hlt.
  - (* zero *) clear. destruct s; vm_compute; by split.
  - (* infinity *) exfalso. clear -Hge Hlt. destruct s; vm_compute in Hge, Hlt; congruence.
  - (* NaN *) exfalso. clear -Hge. vm_compute in Hge. congruence.
  - (* finite *)
    destruct s; [exfalso; clear -Hge; vm_compute in Hge; congruence|]. clear Hge.
    change (bounded prec emax m e = true) in Hvr.
    destruct (bounded_spec m e Hvr) as [Hcanon Hm].
    assert (He : e ≤ -53).
    { apply SFltb_finite in Hlt. destruct Hlt as [Hlt | [-> Hlt]]; [lia|].
      exfalso.
      assert (Hd : Zpos (digits2_pos m) = 53) by (unfold fexp64 in Hcanon; lia).
      pose proof (digits2_le m) as Hle. rewrite Hd in Hle.
      change (2 ^ 53) with 9007199254740992 in Hle. lia. }
    destruct (mul3000_spec m e Hvr He) as (mp & ep & Hmul & Hmp0 & Hep & Hmp).
    rewrite Hmul in *. clear Hmul.
    destruct mp as [|mp|mp]; cbn [positive_or_zero] in *; [ | | lia].
    { clear. vm_compute. by split. }
    destruct (add2000_spec mp ep Hep Hmp) as (mt & et & Hadd & Het & Hmt).
    rewrite Hadd in *.
    change (bounded prec emax mt et = true) in Hvt.
    by apply in_range_compare.
Qed.

End Binary64Facts.

(** ** The blink cycle *)

Section BlinkFacts.
Import Blink.

Example nextBlinkDelay_samples :
  map nextBlinkDelay [ 0; 0.25; 0.5 ]%float = [ 2000; 2750; 3500 ]%float.
Proof. reflexivity. Qed.

Lemma mount_offPhase (random : float) : offPhase random (mount random).
Proof.
  split; [done|]. exists 1. split_and!.
  - done.
  - vm_compute. lia.
  - done.
Qed.

Lemma expire_offPhase (random random' : float) (s : State) (t : Timeout) :
  offPhase random s → t ∈ timeouts s → onPhase (expire t random' s).
Proof.
  intros (Hb & h & Href & Hh & Hts) Ht.
  rewrite Hts in Ht. apply list_elem_of_singleton in Ht. subst t.
  unfold expire, clearTimeout, setTimeout, setIsBlinking. cbn.
  rewrite Hts. cbn. rewrite decide_False by (intros Hne; by apply Hne).
  split; [done|]. exists (nextHandle s). split_and!; [cbn; lia | | done].
  cbn. intros h0 Hh0. rewrite Href in Hh0. injection Hh0 as <-. lia.
Qed.

Lemma expire_onPhase (random' : float) (s : State) (t : Timeout) :
  onPhase s → t ∈ timeouts s → offPhase random' (expire t random' s).
Proof.
  intros (Hb & h & Hh & Href & Hts) Ht.
  rewrite Hts in Ht. apply list_elem_of_singleton in Ht. subst t.
  unfold expire, scheduleNextBlink, clearTimeout, setTimeout, setIsBlinking. cbn.
  rewrite Hts. cbn. rewrite decide_False by (intros Hne; by apply Hne).
  destruct (blinkIntervalRef s) as [h0|]; cbn.
  all: split; [done|]; exists (nextHandle s); split_and!; [done | cbn; lia | done].
Qed.

(** Scheduling cancels the timeout that [blinkIntervalRef] tracks before it
    arms the new one. *)
Lemma scheduleNextBlink_cancels (random : float) (s : State) (h0 : nat) :
  freshHandles s → blinkIntervalRef s = Some h0 →
  Forall (λ t, handle t ≠ h0) (timeouts (scheduleNextBlink random s))
  ∧ ∃ rest, timeouts (scheduleNextBlink random s) =
      (rest ++ [ {| handle := nextHandle s; delay := nextBlinkDelay random;
                    callback := BlinkStart |} ])%list
      ∧ rest = filter (λ t, handle t ≠ h0) (timeouts s)
      ∧ Forall (λ t, callback t = BlinkStart → handle t ≠ h0 ∧ t ∈ timeouts s) rest.
Proof.
  intros [Href Hts] Hh0. specialize (Href h0 Hh0).
  unfold scheduleNextBlink. rewrite Hh0. cbn.
  split.
  - apply Forall_app. split.
    + apply list.Forall_forall. intros t Ht. by apply list_elem_of_filter in Ht as [? _].
    + apply Forall_singleton. cbn. lia.
  - eexists. split_and!; [done | done |].
    apply list.Forall_forall. intros t Ht _. by apply list_elem_of_filter in Ht.
Qed.

(** In exact arithmetic the delay stays below 5000: the half-open range of
    the specification. *)
Lemma exactBlinkDelay_range (q : Q) :
  (0 <= q)%Q → (q < 1)%Q →
  (2000 <= exactBlinkDelay q)%Q ∧ (exactBlinkDelay q < 5000)%Q.
Proof. intros Hq0 Hq1. unfold exactBlinkDelay. split; lra. Qed.

(** C7, the claim as stated, fails in the arithmetic of the code: for the
    largest binary64 number below 1 the product and the sum round up, and
    the delay is exactly 5000, outside [2000, 5000). *)
Lemma C7_delay_reaches_5000 :
  ¬ (∀ random : float,
       (0 <=? random)%float = true → (random <? 1)%float = true →
       (2000 <=? nextBlinkDelay random)%float = true
       ∧ (nextBlinkDelay random <? 5000)%float = true).
Proof.
  intros Hall.
  destruct (Hall largestBelowOne) as [_ Hlt]; [ reflexivity | reflexivity | ].
  vm_compute in Hlt. discriminate Hlt.
Qed.

(** C7 (amended).  For every r in [0, 1) the scheduled inter-blink delay is
    [r * 3000 + 2000] as binary64 arithmetic computes it, and it lies in
    [2000, 5000]: the upper end is reached, by rounding, for the largest r
    below 1.  Scheduling cancels the timeout tracked by [blinkIntervalRef]
    first.  When the scheduled timeout expires, BlinkState becomes true and
    the only pending timeout is the 150 ms one; when that expires,
    BlinkState is false again and the only pending timeout is the next
    inter-blink one. *)
Theorem C7_blink_cycle
    (random random' : float) (s : State) (t t' : Timeout) :
  (0 <=? random)%float = true → (random <? 1)%float = true →
  offPhase random s → t ∈ timeouts s → t' ∈ timeouts (expire t random' s) →
  (delay t = nextBlinkDelay random
   ∧ (2000 <=? delay t)%float = true ∧ (delay t <=? 5000)%float = true)
  ∧ ((largestBelowOne <? 1)%float = true
     ∧ nextBlinkDelay largestBelowOne = 5000%float)
  ∧ (onPhase (expire t random' s) ∧ delay t' = 150%float)
  ∧ offPhase random' (expire t' random' (expire t random' s))
  ∧ (∀ h0, freshHandles s → blinkIntervalRef s = Some h0 →
       Forall (λ u, handle u ≠ h0) (timeouts (scheduleNextBlink random' s))).
Proof.
  intros Hr0 Hr1 Hoff Ht Ht'.
  pose proof (expire_offPhase random random' s t Hoff Ht) as Hon.
  assert (Hdelay : delay t = nextBlinkDelay random).
  { destruct Hoff as (_ & h & _ & _ & Hts). rewrite Hts in Ht.
    apply list_elem_of_singleton in Ht. by subst t. }
  split_and!.
  - exact Hdelay.
  - rewrite Hdelay. by apply Binary64Facts.blink_delay_range.
  - rewrite Hdelay. by apply Binary64Facts.blink_delay_range.
  - reflexivity.
  - reflexivity.
  - exact Hon.
  - destruct Hon as (_ & h & _ & _ & Hts). rewrite Hts in Ht'.
    apply list_elem_of_singleton in Ht'. by subst t'.
  - by apply expire_onPhase.
  - intros h0 Hfresh Hh0. by apply scheduleNextBlink_cancels.
Qed.

Lemma C7_blink_cycle_witness :
  offPhase 0.25%float
    (Blink.expire
       {| Blink.handle := 2; Blink.delay := 150%float; Blink.callback := Blink.BlinkEnd |}
       0.25%float
       (Blink.expire
          {| Blink.handle := 1; Blink.delay := 3500%float;
             Blink.callback := Blink.BlinkStart |}
          0.25%float (Blink.mount 0.5%float))).
Proof.
  refine (proj1 (proj2 (proj2 (proj2
    (C7_blink_cycle 0.5%float 0.25%float (mount 0.5%float)
       {| handle := 1; delay := 3500%float; callback := BlinkStart |}
       {| handle := 2; delay := 150%float; callback := BlinkEnd |}
       _ _ _ _ _))))).
  - reflexivity.
  - reflexivity.
  - apply mount_offPhase.
  - apply list_elem_of_singleton. reflexivity.
  - apply list_elem_of_singleton. reflexivity.
Defined.

End BlinkFacts.

(** ** The eye geometry *)

Section EyeFacts.
Import Eyes.
Local Open Scope float_scope.



End EyeFacts.

(** ** The producer *)

Section ProducerFacts.
Import App.

(** Typing "hi": the first token is streamed with the change event, the
    second by the stream timeout, and then the producer waits. *)
Example typing_hi :
  map (λ events, textChunks (run events initial))
    [ [ TextChange "hi" ];
      [ TextChange "hi"; StreamTimeout ];
      [ TextChange "hi"; StreamTimeout; StreamTimeout ] ]
  = [ [ "h" ]; [ "h"; "i" ]; [ "h"; "i" ] ].
Proof. reflexivity. Qed.

Example appendChunk_at_capacity :
  appendChunk "u" (replicate 19 "a" ++ [ "b" ])%list
  = (replicate 18 "a" ++ [ "b"; "u" ])%list.
Proof. reflexivity. Qed.

Lemma appendChunk_length (newToken : string) (prev : list string) :
  length (appendChunk newToken prev) ≤ 20.
Proof.
  unfold appendChunk. case_match eqn:Hlong.
  - rewrite length_drop. apply Nat.ltb_lt in Hlong. lia.
  - apply Nat.ltb_ge in Hlong. lia.
Qed.

Lemma appendChunk_drop (newToken : string) (prev : list string) :
  appendChunk newToken prev
  = drop (length (prev ++ [ newToken ]) - 20) (prev ++ [ newToken ])%list.
Proof.
  unfold appendChunk. case_match eqn:Hlong; [done|].
  apply Nat.ltb_ge in Hlong.
  by replace (length (prev ++ [ newToken ]) - 20) with 0 by lia.
Qed.

Lemma lowerFlag_frame (s : State) :
  textChunks (lowerFlag s) = textChunks s
  ∧ tokensToStreamRef (lowerFlag s) = tokensToStreamRef s.
Proof. unfold lowerFlag. by case_match. Qed.

(** [streamNextToken] either leaves [textChunks] alone or replaces it by
    the result of the updater. *)
Lemma streamNextToken_textChunks (closureSpeaking : bool) (s : State) :
  textChunks (streamNextToken closureSpeaking s) = textChunks s
  ∨ ∃ newToken,
      tokensToStreamRef s !! currentTokenRef s = Some newToken
      ∧ textChunks (streamNextToken closureSpeaking s)
        = appendChunk newToken (textChunks s).
Proof.
  unfold streamNextToken. repeat case_match; try (by left).
  - right. by eexists.
  - left. apply lowerFlag_frame.
Qed.

Lemma streamNextToken_tokens (closureSpeaking : bool) (s : State) :
  tokensToStreamRef (streamNextToken closureSpeaking s) = tokensToStreamRef s.
Proof.
  unfold streamNextToken. repeat case_match; try done. apply lowerFlag_frame.
Qed.

(** With a token in the stream, [streamNextToken] leaves the flag alone. *)
Lemma streamNextToken_isSpeaking (closureSpeaking : bool) (s : State) :
  tokensToStreamRef s ≠ [] →
  isSpeaking (streamNextToken closureSpeaking s) = isSpeaking s.
Proof.
  intros Htokens. unfold streamNextToken. repeat case_match; try done.
  destruct (tokensToStreamRef s); [done|]. cbn in *. discriminate.
Qed.

Lemma chunksBounded_streamNextToken (closureSpeaking : bool) (s : State) :
  chunksBounded s → chunksBounded (streamNextToken closureSpeaking s).
Proof.
  unfold chunksBounded. intros Hs.
  destruct (streamNextToken_textChunks closureSpeaking s) as [-> | (tok & _ & ->)];
    [done | apply appendChunk_length].
Qed.

Lemma chunksBounded_raiseFlag (s : State) :
  chunksBounded s → chunksBounded (raiseFlag s).
Proof.
  intros Hs. unfold raiseFlag. case_match; [done|].
  by apply chunksBounded_streamNextToken.
Qed.

Lemma chunksBounded_step (s : State) (e : Event) :
  chunksBounded s → chunksBounded (step s e).
Proof.
  intros Hs. destruct e; cbn [step].
  - unfold handleTextChange, processText.
    repeat case_match; try done.
    change (setIsSpeaking true ?x) with (raiseFlag x).
    by apply chunksBounded_raiseFlag.
  - unfold streamTimeoutExpires. case_match; [|done].
    by apply chunksBounded_streamNextToken.
  - unfold typingTimeoutExpires. repeat case_match; try done.
    unfold chunksBounded, setIsSpeaking. by rewrite (proj1 (lowerFlag_frame _)).
  - done.
  - unfold chunksBounded. cbn. lia.
Qed.

Lemma chunksBounded_run (events : list Event) (s : State) :
  chunksBounded s → chunksBounded (run events s).
Proof.
  revert s. induction events as [|e events IH]; intros s Hs; [done|].
  cbn. apply IH. by apply chunksBounded_step.
Qed.

(** C9.  The updater of [streamNextToken] returns at most 20 chunks: it
    keeps the last 20 of the old chunks followed by the new token and drops
    the oldest ones beyond that.  So every update [streamNextToken] makes,
    and every state the producer reaches, hands the avatar at most 20
    chunks. *)
Theorem C9_chunks_bounded
    (newToken : string) (prev : list string)
    (closureSpeaking : bool) (s : State) (events : list Event) :
  length (appendChunk newToken prev) ≤ 20
  ∧ (∃ oldest,
       (prev ++ [ newToken ])%list = (oldest ++ appendChunk newToken prev)%list
       ∧ length oldest = length (prev ++ [ newToken ]) - 20)
  ∧ (textChunks (streamNextToken closureSpeaking s) = textChunks s
     ∨ length (textChunks (streamNextToken closureSpeaking s)) ≤ 20)
  ∧ length (textChunks (run events initial)) ≤ 20.
Proof.
  split_and!.
  - apply appendChunk_length.
  - exists (take (length (prev ++ [ newToken ]) - 20) (prev ++ [ newToken ])%list).
    rewrite appendChunk_drop, take_drop. split; [done|].
    rewrite length_take. lia.
  - destruct (streamNextToken_textChunks closureSpeaking s) as [-> | (tok & _ & ->)];
      [by left | right; apply appendChunk_length].
  - apply chunksBounded_run. unfold chunksBounded. cbn. lia.
Qed.

(** Tokens stay in the stream until the reset button empties it. *)
Lemma raiseFlag_tokens (s : State) :
  tokensToStreamRef (raiseFlag s) = tokensToStreamRef s.
Proof.
  unfold raiseFlag. case_match; [done|]. by rewrite streamNextToken_tokens.
Qed.

Lemma tokens_stay (s : State) (e : Event) :
  tokensToStreamRef s ≠ [] → e ≠ ResetClick → tokensToStreamRef (step s e) ≠ [].
Proof.
  intros Htokens He.
  assert (Hmore : ∀ more, (tokensToStreamRef s ++ more)%list ≠ []).
  { intros more Happ. by apply app_eq_nil in Happ as [? _]. }
  destruct e; cbn [step]; try done.
  - unfold handleTextChange, processText.
    repeat case_match; try done.
    + change (setIsSpeaking true ?x) with (raiseFlag x).
      rewrite raiseFlag_tokens. apply Hmore.
    + apply Hmore.
  - unfold streamTimeoutExpires. case_match; [|done].
    by rewrite streamNextToken_tokens.
  - unfold typingTimeoutExpires. repeat case_match; try done.
    unfold setIsSpeaking. by rewrite (proj2 (lowerFlag_frame _)).
Qed.

(** C10.  While the token stream of the session is not empty,
    [streamNextToken] never changes the flag: with every token streamed it
    only arms its timeout again and waits.  The flag then goes down only
    when the typing timeout expires or the reset button is clicked.  The
    stream stays non-empty until a reset. *)
Theorem C10_stream_keeps_flag (closureSpeaking : bool) (s : State) (e : Event) :
  tokensToStreamRef s ≠ [] →
  isSpeaking (streamNextToken closureSpeaking s) = isSpeaking s
  ∧ (length (tokensToStreamRef s) ≤ currentTokenRef s →
     streamTimerRef (streamNextToken true s) = Some true
     ∧ isSpeaking (streamNextToken true s) = isSpeaking s
     ∧ textChunks (streamNextToken true s) = textChunks s
     ∧ currentTokenRef (streamNextToken true s) = currentTokenRef s)
  ∧ (isSpeaking s = true → isSpeaking (step s e) = false →
     e = TypingTimeout ∨ e = ResetClick)
  ∧ (e ≠ ResetClick → tokensToStreamRef (step s e) ≠ []).
Proof.
  intros Htokens. split_and!.
  - by apply streamNextToken_isSpeaking.
  - intros Hdone. unfold streamNextToken. cbn [negb].
    destruct (currentTokenRef s <? length (tokensToStreamRef s)) eqn:Hlt.
    { apply Nat.ltb_lt in Hlt. lia. }
    destruct (tokensToStreamRef s) as [|tok rest]; [done|]. done.
  - intros Hup Hdown. destruct e; auto; exfalso; cbn [step] in Hdown.
    + revert Hdown. unfold handleTextChange, processText.
      cbn [isSpeaking]. rewrite Hup. cbn [negb].
      case_match; cbn [isSpeaking]; congruence.
    + unfold streamTimeoutExpires in Hdown.
      destruct (streamTimerRef s) as [c|]; [|congruence].
      rewrite streamNextToken_isSpeaking in Hdown by done. cbn in Hdown.
      congruence.
    + cbn in Hdown. congruence.
  - by apply tokens_stay.
Qed.

Lemma C10_stream_keeps_flag_witness :
  let typed := App.run [ App.TextChange "hi"; App.StreamTimeout; App.StreamTimeout ]
                 App.initial in
  App.tokensToStreamRef typed = [ "h"; "i" ]
  ∧ App.currentTokenRef typed = 2
  ∧ App.isSpeaking (App.streamNextToken true typed) = true.
Proof.
  split_and!; [ reflexivity | reflexivity | ].
  refine (proj1 (C10_stream_keeps_flag true
            (run [ TextChange "hi"; StreamTimeout; StreamTimeout ] initial)
            StreamTimeout _)).
  discriminate.
Defined.

End ProducerFacts.

(** ** The speech animator: playing a buffer *)

Section PlaybackFacts.
Import Avatar.

Lemma shownAfter_snoc (v : Viseme) (chunks : list string) (chunk : string) :
  shownAfter v (chunks ++ [chunk])
  = default (shownAfter v chunks) (Resolver.chunkViseme chunk).
Proof. unfold shownAfter. by rewrite foldl_app. Qed.

(** The viseme effect on a speaking render over a non-empty buffer with the
    cursor inside it: the chunk under the cursor is shown and the timeout
    armed. *)
Lemma visemeEffect_playing (a : State) (chunk : string) :
  isSpeaking a = true → textChunks a !! chunkIndex a = Some chunk →
  visemeEffect a
  = playing (textChunks a) (chunkIndex a)
      (default (currentViseme a) (Resolver.chunkViseme chunk)).
Proof.
  intros Hup Hchunk.
  assert (Hlt : chunkIndex a < length (textChunks a)) by (by eapply lookup_lt_Some).
  unfold visemeEffect, processChunks.
  cbn [setVisemeTimer isSpeaking textChunks chunkIndex].
  rewrite Hup, Hchunk.
  replace (length (textChunks a) =? 0) with false
    by (symmetry; apply Nat.eqb_neq; lia).
  cbn [negb orb].
  rewrite (proj2 (Nat.ltb_lt _ _) Hlt).
  unfold playing.
  destruct (Resolver.chunkViseme chunk);
    unfold setVisemeTimer, setCurrentViseme; cbn; by rewrite Hup.
Qed.

(** The viseme effect with the flag down or on an empty buffer. *)
Lemma visemeEffect_rest (a : State) :
  isSpeaking a = false ∨ textChunks a = [] →
  visemeEffect a
  = {| textChunks := textChunks a; isSpeaking := isSpeaking a;
       currentViseme := Shape.X; chunkIndex := chunkIndex a; visemeTimerRef := None |}.
Proof.
  intros Hrest. unfold visemeEffect.
  cbn [setVisemeTimer isSpeaking textChunks].
  replace (negb (isSpeaking a) || (length (textChunks a) =? 0)) with true; [done|].
  destruct Hrest as [-> | ->]; [done|]. cbn. by rewrite orb_true_r.
Qed.

(** The viseme effect with the cursor at or past the end of a non-empty
    buffer while speaking: the timeout is cleared and nothing else happens. *)
Lemma visemeEffect_past_end (a : State) :
  isSpeaking a = true → textChunks a ≠ [] →
  length (textChunks a) ≤ chunkIndex a →
  visemeEffect a = setVisemeTimer None a.
Proof.
  intros Hup Hne Hpast. unfold visemeEffect, processChunks.
  cbn [setVisemeTimer isSpeaking textChunks chunkIndex].
  rewrite Hup.
  assert (Hlen : length (textChunks a) ≠ 0).
  { intros Hnil. by apply Hne, nil_length_inv. }
  replace (length (textChunks a) =? 0) with false
    by (symmetry; by apply Nat.eqb_neq).
  cbn [negb orb].
  by rewrite (proj2 (Nat.ltb_ge _ _) Hpast).
Qed.

Lemma speakingEffect_speaking (a : State) :
  isSpeaking a = true → speakingEffect a = a.
Proof. intros Hup. unfold speakingEffect. by rewrite Hup. Qed.

Lemma speakingEffect_props (a : State) :
  isSpeaking (speakingEffect a) = isSpeaking a
  ∧ textChunks (speakingEffect a) = textChunks a
  ∧ chunkIndex (speakingEffect a) = chunkIndex a.
Proof. unfold speakingEffect. by case_match. Qed.

(** A commit with the flag down or the buffer empty ends at rest. *)
Lemma commit_rest (p q : bool) (a : State) :
  p || q = true → isSpeaking a = false ∨ textChunks a = [] →
  commit p q a
  = {| textChunks := textChunks a; isSpeaking := isSpeaking a;
       currentViseme := Shape.X; chunkIndex := 0; visemeTimerRef := None |}.
Proof.
  intros Hpq Hrest. unfold commit. rewrite Hpq.
  set (a1 := if p then speakingEffect a else a).
  assert (H1 : isSpeaking a1 = isSpeaking a ∧ textChunks a1 = textChunks a
               ∧ chunkIndex a1 = chunkIndex a).
  { subst a1. destruct p; [apply speakingEffect_props | done]. }
  destruct H1 as (Hs1 & Hc1 & Hi1).
  rewrite (visemeEffect_rest a1) by (by rewrite Hs1, Hc1).
  rewrite Hs1, Hc1, Hi1.
  assert (Hreset : ∀ i, resetEffect
            {| textChunks := textChunks a; isSpeaking := isSpeaking a;
               currentViseme := Shape.X; chunkIndex := i; visemeTimerRef := None |}
          = {| textChunks := textChunks a; isSpeaking := isSpeaking a;
               currentViseme := Shape.X; chunkIndex := 0; visemeTimerRef := None |}).
  { intros i. unfold resetEffect. cbn [textChunks isSpeaking].
    replace ((length (textChunks a) =? 0) || negb (isSpeaking a)) with true; [done|].
    destruct Hrest as [-> | ->]; [by rewrite orb_true_r | done]. }
  rewrite Hreset. cbn [chunkIndex]. case_match; [done|].
  by rewrite visemeEffect_rest.
Qed.

(** A commit of a speaking render with the cursor on a chunk shows that
    chunk and arms the timeout. *)
Lemma commit_playing (p q : bool) (a : State) (chunk : string) :
  p || q = true → isSpeaking a = true → textChunks a !! chunkIndex a = Some chunk →
  commit p q a
  = playing (textChunks a) (chunkIndex a)
      (default (currentViseme a) (Resolver.chunkViseme chunk)).
Proof.
  intros Hpq Hup Hchunk. unfold commit. rewrite Hpq.
  replace (if p then speakingEffect a else a) with a
    by (destruct p; by rewrite ?speakingEffect_speaking).
  rewrite (visemeEffect_playing a chunk) by done.
  assert (Hne : textChunks a ≠ []).
  { intros Hnil. by rewrite Hnil in Hchunk. }
  unfold resetEffect, playing. cbn [textChunks isSpeaking negb orb chunkIndex].
  destruct (textChunks a) as [|c0 rest]; [done|]. cbn [length Nat.eqb orb].
  by rewrite Nat.eqb_refl.
Qed.

(** A commit of a speaking render with the cursor at or past the end of a
    non-empty buffer only clears the timeout. *)
Lemma commit_past_end (p q : bool) (a : State) :
  p || q = true → isSpeaking a = true → textChunks a ≠ [] →
  length (textChunks a) ≤ chunkIndex a →
  commit p q a = setVisemeTimer None a.
Proof.
  intros Hpq Hup Hne Hpast. unfold commit. rewrite Hpq.
  replace (if p then speakingEffect a else a) with a
    by (destruct p; by rewrite ?speakingEffect_speaking).
  rewrite visemeEffect_past_end by done.
  unfold resetEffect. cbn [setVisemeTimer textChunks isSpeaking chunkIndex].
  rewrite Hup. destruct (textChunks a) as [|c0 rest]; [done|].
  cbn [length Nat.eqb orb negb]. by rewrite Nat.eqb_refl.
Qed.

Lemma withProps_same (a : State) :
  withProps (textChunks a) (isSpeaking a) a = a.
Proof. by destruct a. Qed.

(** *** The invariant *)

Lemma settled_render (chunks : option (list string)) (speaking : bool) (a : State) :
  settled a → settled (render chunks speaking a).
Proof.
  intros Ha. unfold render.
  set (p := negb (eqb speaking (isSpeaking a))).
  set (q := bool_decide (is_Some chunks)).
  set (a0 := withProps (default (textChunks a) chunks) speaking a).
  destruct (p || q) eqn:Hpq.
  - destruct (decide (isSpeaking a0 = false ∨ textChunks a0 = [])) as [Hrest | Hplay].
    + rewrite commit_rest by done. split; [done|]. intros seen Hseen. discriminate Hseen.
    + assert (Hup : isSpeaking a0 = true).
      { destruct (isSpeaking a0); [done|]. exfalso. apply Hplay. by left. }
      assert (Hne : textChunks a0 ≠ []).
      { intros Hnil. apply Hplay. by right. }
      destruct (textChunks a0 !! chunkIndex a0) as [chunk|] eqn:Hchunk.
      * rewrite (commit_playing p q a0 chunk) by done.
        apply lookup_lt_Some in Hchunk.
        split.
        -- intros [Hdown | Hnil]; [discriminate Hdown | done].
        -- intros seen Hseen. injection Hseen as <-. done.
      * apply lookup_ge_None in Hchunk. rewrite commit_past_end by done.
        split.
        -- intros [Hdown | Hnil]; cbn in *; congruence.
        -- intros seen Hseen. discriminate Hseen.
  - apply orb_false_elim in Hpq as [Hp Hq]. rewrite Hp, Hq, commit_unchanged.
    subst p q.
    assert (Hsame : a0 = a).
    { subst a0. apply negb_false_iff, eqb_prop in Hp. subst speaking.
      destruct chunks as [l|]; [done|]. apply withProps_same. }
    by rewrite Hsame.
Qed.

Lemma tick_playing (a : State) (seen : Closure) :
  settled a → visemeTimerRef a = Some seen →
  (∃ chunk, textChunks a !! S (chunkIndex a) = Some chunk
            ∧ tick a = playing (textChunks a) (S (chunkIndex a))
                         (default (currentViseme a) (Resolver.chunkViseme chunk)))
  ∨ (S (chunkIndex a) = length (textChunks a)
     ∧ tick a = {| textChunks := textChunks a; isSpeaking := true;
                   currentViseme := Shape.X; chunkIndex := chunkIndex a;
                   visemeTimerRef := None |}).
Proof.
  intros [_ Htimer] Hseen. destruct (Htimer seen Hseen) as (Hup & -> & Hlt).
  unfold tick. rewrite Hseen. cbn [seenIndex seenLength setVisemeTimer chunkIndex].
  destruct (chunkIndex a <? length (textChunks a) - 1) eqn:Hnext.
  - left. apply Nat.ltb_lt in Hnext.
    destruct (lookup_lt_is_Some_2 (textChunks a) (S (chunkIndex a))) as [chunk Hchunk];
      [lia|].
    exists chunk. split; [done|].
    rewrite Nat.add_1_r.
    rewrite (visemeEffect_playing _ chunk); cbn; done.
  - right. apply Nat.ltb_ge in Hnext. split; [lia|].
    unfold setCurrentViseme. cbn. by rewrite Hup.
Qed.

Lemma settled_tick (a : State) : settled a → settled (tick a).
Proof.
  intros Ha. destruct (visemeTimerRef a) as [seen|] eqn:Hseen.
  - destruct (tick_playing a seen Ha Hseen) as [(chunk & Hchunk & ->) | (Hlast & ->)].
    + apply lookup_lt_Some in Hchunk. split.
      * intros [Hdown | Hnil]; [discriminate Hdown|]. cbn in Hnil.
        rewrite Hnil in Hchunk. cbn in Hchunk. lia.
      * intros seen' Hseen'. injection Hseen' as <-. done.
    + split.
      * intros [Hdown | Hnil]; [discriminate Hdown|]. cbn in Hnil.
        rewrite Hnil in Hlast. cbn in Hlast. lia.
      * intros seen' Hseen'. discriminate Hseen'.
  - by rewrite tick_idle.
Qed.

Lemma settled_mount (chunks : list string) (speaking : bool) :
  settled (mount chunks speaking).
Proof.
  unfold mount.
  set (a0 := Build_State _ _ _ _ _).
  destruct (decide (isSpeaking a0 = false ∨ textChunks a0 = [])) as [Hrest | Hplay].
  - rewrite commit_rest by done. split; [done|]. intros seen Hseen. discriminate Hseen.
  - assert (Hup : isSpeaking a0 = true).
    { destruct (isSpeaking a0); [done|]. exfalso. apply Hplay. by left. }
    destruct chunks as [|chunk rest]; [exfalso; apply Hplay; by right|].
    rewrite (commit_playing true true a0 chunk) by done.
    split.
    + intros [Hdown | Hnil]; [discriminate Hdown | done].
    + intros seen Hseen. injection Hseen as <-. split_and!; [done | done | cbn; lia].
Qed.

Lemma settled_run (events : list Event) (a : State) :
  settled a → settled (run events a).
Proof.
  revert a. induction events as [|e events IH]; intros a Ha; [done|].
  cbn. apply IH. destruct e; [by apply settled_render | by apply settled_tick].
Qed.

(** X1.  In every state the animator reaches: with the flag down or the
    buffer empty the cursor is on 0, the mouth at rest and no timeout
    pending; a pending timeout was armed by the current render (the flag
    is up, its closure holds the current cursor and buffer length, and the
    cursor is on a token); and a timeout that expires with the cursor in
    the buffer leaves it in the buffer. *)
Theorem animator_invariant
    (chunks : list string) (speaking : bool) (events : list Event) :
  let a := run events (mount chunks speaking) in
  (isSpeaking a = false ∨ textChunks a = [] →
   chunkIndex a = 0 ∧ currentViseme a = Shape.X ∧ visemeTimerRef a = None)
  ∧ (∀ seen, visemeTimerRef a = Some seen →
       isSpeaking a = true
       ∧ seen = {| seenIndex := chunkIndex a; seenLength := length (textChunks a) |}
       ∧ chunkIndex a < length (textChunks a))
  ∧ (chunkIndex a < length (textChunks a) →
     chunkIndex (tick a) < length (textChunks (tick a))).
Proof.
  intros a.
  assert (Ha : settled a) by apply settled_run, settled_mount.
  split_and!; [apply Ha | apply Ha |].
  intros Hin. destruct (visemeTimerRef a) as [seen|] eqn:Hseen.
  - destruct (tick_playing a seen Ha Hseen) as [(chunk & Hchunk & ->) | (Hlast & ->)].
    + apply lookup_lt_Some in Hchunk. done.
    + done.
  - by rewrite tick_idle.
Qed.

(** *** Playing a buffer *)

Lemma ticks_add (n m : nat) (a : State) : ticks (n + m) a = ticks m (ticks n a).
Proof. revert a. induction n as [|n IH]; intros a; [done|]. cbn [Nat.add ticks]. apply IH. Qed.

Lemma ticks_succ (n : nat) (a : State) : ticks (S n) a = tick (ticks n a).
Proof. rewrite <- Nat.add_1_r. by rewrite ticks_add. Qed.

Lemma settled_playing (tokens : list string) (k : nat) (v : Viseme) :
  k < length tokens → settled (playing tokens k v).
Proof.
  intros Hk. split.
  - intros [Hdown | Hnil]; [discriminate Hdown|]. cbn in Hnil. subst tokens.
    cbn in Hk. lia.
  - intros seen Hseen. injection Hseen as <-. done.
Qed.

(** After [k] timeouts the cursor is on token [k] and the mouth shows what
    the first [k + 1] tokens leave on it. *)
Lemma ticks_playing (tokens : list string) (k : nat) :
  k < length tokens →
  ticks k (playing tokens 0 (shownAfter Shape.X (take 1 tokens)))
  = playing tokens k (shownAfter Shape.X (take (S k) tokens)).
Proof.
  induction k as [|k IH]; intros Hk; [done|].
  rewrite ticks_succ, IH by lia.
  destruct (tick_playing (playing tokens k (shownAfter Shape.X (take (S k) tokens)))
              {| seenIndex := k; seenLength := length tokens |})
    as [(chunk & Hchunk & ->) | (Hlast & _)]; [ apply settled_playing; lia | done | | ].
  - cbn [textChunks chunkIndex currentViseme playing] in *.
    by rewrite (take_S_r _ _ _ Hchunk), shownAfter_snoc.
  - cbn in Hlast. lia.
Qed.

Lemma ticks_waiting (tokens : list string) (n : nat) :
  tokens ≠ [] →
  ticks (length tokens + n) (playing tokens 0 (shownAfter Shape.X (take 1 tokens)))
  = waiting tokens.
Proof.
  intros Hne.
  assert (Hlen : length tokens ≠ 0) by (intros Hnil; by apply Hne, nil_length_inv).
  rewrite ticks_add.
  replace (length tokens) with (S (length tokens - 1)) at 1 by lia.
  rewrite ticks_succ, ticks_playing by lia.
  destruct (tick_playing
              (playing tokens (length tokens - 1)
                 (shownAfter Shape.X (take (S (length tokens - 1)) tokens)))
              {| seenIndex := length tokens - 1; seenLength := length tokens |})
    as [(chunk & Hchunk & _) | (_ & ->)]; [ apply settled_playing; lia | done | | ].
  - apply lookup_lt_Some in Hchunk. cbn in Hchunk. lia.
  - by apply ticks_idle.
Qed.

(** The render that raises the flag on an animator at rest. *)
Lemma render_raises (chunks : option (list string)) (a : State) :
  isSpeaking a = false → atRest a →
  let tokens := default (textChunks a) chunks in
  render chunks true a
  = match tokens with
    | [] => waiting tokens
    | _ :: _ => playing tokens 0 (shownAfter Shape.X (take 1 tokens))
    end.
Proof.
  intros Hdown (Hindex & Hviseme & _) tokens. unfold render. rewrite Hdown.
  cbn [eqb negb orb]. fold tokens.
  assert (Hprops : textChunks (withProps tokens true a) = tokens
                   ∧ isSpeaking (withProps tokens true a) = true
                   ∧ chunkIndex (withProps tokens true a) = 0
                   ∧ currentViseme (withProps tokens true a) = Shape.X) by done.
  destruct Hprops as (Hchunks & Hup & Hindex0 & Hviseme0).
  set (a0 := withProps tokens true a) in *.
  destruct tokens as [|chunk rest].
  - rewrite commit_rest; [ | done | by right ].
    by rewrite Hchunks, Hup.
  - rewrite (commit_playing _ _ a0 chunk); [ | done | done | ].
    + by rewrite Hchunks, Hindex0, Hviseme0.
    + by rewrite Hchunks, Hindex0.
Qed.

(** X2.  Whenever the flag goes up on an animator whose flag was down,
    whatever happened before, the buffer is played from its first token:
    after [k] timeouts (100 ms each) with no new props the cursor is on
    token [k] and the mouth shows the viseme of token [k], or of the last
    non-empty token before it when token [k] is empty; after as many
    timeouts as there are tokens, and ever after, the mouth is at rest with
    the flag still up and no timeout pending. *)
Theorem playback
    (chunks : list string) (speaking : bool) (events : list Event)
    (chunks' : option (list string)) (k n : nat) :
  let a := run events (mount chunks speaking) in
  let tokens := default (textChunks a) chunks' in
  let b := render chunks' true a in
  isSpeaking a = false →
  (k < length tokens →
   chunkIndex (ticks k b) = k
   ∧ currentViseme (ticks k b) = shownAfter Shape.X (take (S k) tokens)
   ∧ visemeTimerRef (ticks k b)
     = Some {| seenIndex := k; seenLength := length tokens |})
  ∧ (∀ c rest, tokens !! k = Some (String c rest) →
       currentViseme (ticks k b) = Resolver.resolve c)
  ∧ (currentViseme (ticks (length tokens + n) b) = Shape.X
     ∧ isSpeaking (ticks (length tokens + n) b) = true
     ∧ visemeTimerRef (ticks (length tokens + n) b) = None).
Proof.
  intros a tokens b Hdown.
  assert (Ha : settled a) by apply settled_run, settled_mount.
  assert (Hrest : atRest a) by (apply Ha; by left).
  pose proof (render_raises chunks' a Hdown Hrest) as Hb. cbv zeta in Hb.
  fold tokens b in Hb.
  assert (Hplay : k < length tokens →
            ticks k b = playing tokens k (shownAfter Shape.X (take (S k) tokens))).
  { intros Hk. destruct tokens as [|chunk rest] eqn:Htokens; [cbn in Hk; lia|].
    rewrite Hb. by apply ticks_playing. }
  split; [|split].
  - intros Hk. by rewrite Hplay.
  - intros c rest Hchunk. rewrite Hplay by (by eapply lookup_lt_Some).
    cbn [playing currentViseme]. by rewrite (take_S_r _ _ _ Hchunk), shownAfter_snoc.
  - destruct tokens as [|chunk rest] eqn:Htokens.
    + rewrite Hb. by rewrite ticks_idle.
    + rewrite Hb, ticks_waiting by done. done.
Qed.

Lemma playback_witness :
  let a := Avatar.run [ Avatar.Render None true; Avatar.Tick; Avatar.Tick;
                        Avatar.Render None false ]
             (Avatar.mount [ "Hi"; ""; "there"; "!" ] false) in
  map (λ k, Avatar.currentViseme (Avatar.ticks k (Avatar.render None true a)))
    [ 0; 1; 2; 3; 4 ]
  = [ Shape.H; Shape.H; Shape.C; Shape.D; Shape.X ]
  ∧ Avatar.currentViseme (Avatar.ticks 2 (Avatar.render None true a))
    = Resolver.resolve "t".
Proof.
  split; [ reflexivity | ].
  refine (proj1 (proj2 (playback [ "Hi"; ""; "there"; "!" ] false
            [ Render None true; Tick; Tick; Render None false ] None 2 0 _))
            "t"%char "here" _); reflexivity.
Defined.

(** *** Tokens that arrive after the last one was played *)

Lemma commit_textChunks (p q : bool) (a : State) :
  textChunks (commit p q a) = textChunks a.
Proof.
  assert (Hreset : ∀ b, textChunks (resetEffect b) = textChunks b).
  { intros b. unfold resetEffect. by case_match. }
  unfold commit.
  repeat case_match;
    rewrite ?(proj1 (proj2 (visemeEffect_frame _))), ?Hreset,
      ?(proj1 (proj2 (visemeEffect_frame _))), ?(proj1 (proj2 (speakingEffect_props _)));
    done.
Qed.

Lemma render_textChunks (chunks : option (list string)) (speaking : bool) (a : State) :
  textChunks (render chunks speaking a) = default (textChunks a) chunks.
Proof. unfold render. by rewrite commit_textChunks. Qed.

Lemma session_playing (tokens : list string) :
  tokens ≠ [] →
  session tokens = playing tokens 0 (shownAfter Shape.X (take 1 tokens)).
Proof.
  intros Hne. unfold session.
  set (a := render (Some tokens) false (mount [] false)).
  assert (Hdown : isSpeaking a = false) by apply render_isSpeaking.
  assert (Hchunks : textChunks a = tokens) by apply render_textChunks.
  assert (Hrest : atRest a).
  { apply (settled_render (Some tokens) false (mount [] false) (settled_mount [] false)).
    by left. }
  pose proof (render_raises None a Hdown Hrest) as Hb. cbv zeta in Hb.
  cbn [default] in Hb. rewrite Hchunks in Hb. rewrite Hb.
  by destruct tokens.
Qed.

(** X3.  After the last token of a buffer was played the cursor stays on
    it.  A render that then brings a new array with more tokens behind
    the old ones (or the same tokens once more) shows the last old token
    again: its viseme is on display until the next timeout, and only then
    the first new token follows. *)
Theorem last_token_shown_again
    (tokens more : list string) (final : string) (n : nat) :
  last tokens = Some final →
  let exhausted := ticks (length tokens + n) (session tokens) in
  let appended := render (Some (tokens ++ more)%list) true exhausted in
  (currentViseme exhausted = Shape.X ∧ chunkIndex exhausted = length tokens - 1
   ∧ visemeTimerRef exhausted = None)
  ∧ chunkIndex appended = length tokens - 1
  ∧ currentViseme appended = default Shape.X (Resolver.chunkViseme final)
  ∧ (∀ chunk, more !! 0 = Some chunk →
       chunkIndex (tick appended) = length tokens
       ∧ currentViseme (tick appended)
         = default (currentViseme appended) (Resolver.chunkViseme chunk)).
Proof.
  intros Hlast exhausted appended.
  assert (Hne : tokens ≠ []) by (intros ->; discriminate Hlast).
  assert (Hlen : length tokens ≠ 0) by (intros Hnil; by apply Hne, nil_length_inv).
  assert (Hexhausted : exhausted = waiting tokens).
  { subst exhausted. rewrite session_playing by done. by apply ticks_waiting. }
  assert (Hfinal : (tokens ++ more)%list !! (length tokens - 1) = Some final).
  { rewrite lookup_app_l by lia. rewrite last_lookup in Hlast.
    by replace (length tokens - 1) with (Nat.pred (length tokens)) by lia. }
  assert (Happended : appended
            = playing (tokens ++ more) (length tokens - 1)
                (default Shape.X (Resolver.chunkViseme final))).
  { subst appended. rewrite Hexhausted. unfold render.
    cbn [waiting isSpeaking eqb negb orb default].
    by rewrite (commit_playing _ _ _ final). }
  split_and!.
  - by rewrite Hexhausted.
  - by rewrite Hexhausted.
  - by rewrite Hexhausted.
  - by rewrite Happended.
  - by rewrite Happended.
  - intros chunk Hchunk.
    assert (Hnext : (tokens ++ more)%list !! S (length tokens - 1) = Some chunk).
    { replace (S (length tokens - 1)) with (length tokens + 0) by lia.
      by rewrite lookup_app_r, Nat.add_comm, Nat.add_sub by lia. }
    destruct (tick_playing appended
                {| seenIndex := length tokens - 1;
                   seenLength := length (tokens ++ more) |})
      as [(chunk' & Hchunk' & Htick) | (Hlast' & _)].
    + rewrite Happended. apply settled_playing. rewrite length_app. lia.
    + by rewrite Happended.
    + rewrite Happended in Hchunk'. cbn [playing textChunks chunkIndex] in Hchunk'.
      rewrite Hnext in Hchunk'. injection Hchunk' as <-.
      rewrite Htick. rewrite Happended. cbn [playing chunkIndex currentViseme textChunks].
      split; [lia | done].
    + rewrite Happended in Hlast'. cbn [playing textChunks chunkIndex] in Hlast'.
      apply lookup_lt_Some in Hnext. lia.
Qed.

Lemma last_token_shown_again_witness :
  let exhausted := Avatar.ticks 2 (session [ "a"; "m" ]) in
  Avatar.currentViseme exhausted = Shape.X
  ∧ Avatar.currentViseme (Avatar.render (Some [ "a"; "m"; "o" ]) true exhausted)
    = Shape.B.
Proof.
  destruct (last_token_shown_again [ "a"; "m" ] [ "o" ] "m" 0) as ((Hrest & _) & _ & Hshown & _);
    [ reflexivity | ].
  split; [ exact Hrest | exact Hshown ].
Defined.

(** *** A buffer that shrinks under the cursor *)

(** X4.  When a speaking animator receives a non-empty buffer that ends at
    or before its cursor, it shows no chunk and arms no timeout: the mouth
    keeps the shape it had (it is not put at rest) and the cursor stays
    where it was, until the props change again. *)
Theorem shorter_buffer_stalls (shorter : list string) (a : State) (n : nat) :
  isSpeaking a = true → shorter ≠ [] → length shorter ≤ chunkIndex a →
  render (Some shorter) true a
  = {| textChunks := shorter; isSpeaking := true; currentViseme := currentViseme a;
       chunkIndex := chunkIndex a; visemeTimerRef := None |}
  ∧ ticks n (render (Some shorter) true a) = render (Some shorter) true a.
Proof.
  intros Hup Hne Hpast.
  assert (Hrender : render (Some shorter) true a
    = {| textChunks := shorter; isSpeaking := true; currentViseme := currentViseme a;
         chunkIndex := chunkIndex a; visemeTimerRef := None |}).
  { unfold render. rewrite Hup. cbn [eqb negb orb default].
    by rewrite commit_past_end. }
  split; [done|]. rewrite Hrender. by apply ticks_idle.
Qed.

Lemma shorter_buffer_stalls_witness :
  let a := Avatar.ticks 3 (session hello) in
  Avatar.chunkIndex a = 3
  ∧ Avatar.currentViseme (Avatar.ticks 7 (Avatar.render (Some [ "a"; "b" ]) true a))
    = Shape.C.
Proof.
  split; [ reflexivity | ].
  destruct (shorter_buffer_stalls [ "a"; "b" ] (ticks 3 (session hello)) 7)
    as [_ Hstays]; [ reflexivity | discriminate | vm_compute; lia | ].
  rewrite Hstays. reflexivity.
Defined.

End PlaybackFacts.

(** ** The blink cycle on unmount *)

Section CleanupFacts.
Import Blink.

Lemma expire_eyesClosed (random random' : float) (s : State) (t : Timeout) :
  offPhase random s → t ∈ timeouts s → eyesClosed (expire t random' s).
Proof.
  intros Hoff Ht. split; [by eapply expire_offPhase|].
  destruct Hoff as (_ & h & Href & Hh & Hts).
  rewrite Hts in Ht. apply list_elem_of_singleton in Ht. subst t.
  unfold expire, clearTimeout, setTimeout, setIsBlinking. cbn.
  rewrite Hts. cbn. rewrite decide_False by (intros Hne; by apply Hne). cbn.
  intros t h0 Ht Hh0. apply list_elem_of_singleton in Ht. subst t. cbn.
  rewrite Href in Hh0. by injection Hh0 as <-.
Qed.

Lemma cleanup_offPhase (random : float) (s : State) :
  offPhase random s → timeouts (cleanup s) = [].
Proof.
  intros (_ & h & Href & _ & Hts). unfold cleanup, clearTimeout. rewrite Href. cbn.
  rewrite Hts. cbn. by rewrite decide_False by (intros Hne; by apply Hne).
Qed.

Lemma cleanup_eyesClosed (s : State) : eyesClosed s → cleanup s = s.
Proof.
  intros [(_ & h & _ & _ & Hts) Hold]. unfold cleanup, clearTimeout.
  destruct (blinkIntervalRef s) as [h0|] eqn:Hh0; [|done].
  assert (Hlt : h0 < h).
  { apply (Hold {| handle := h; delay := 150%float; callback := BlinkEnd |});
      [rewrite Hts; apply list_elem_of_singleton; reflexivity | done]. }
  rewrite Hts. cbn. rewrite decide_True by lia.
  destruct s; cbn in *. by subst.
Qed.

(** X5.  The cleanup of the blink effect cancels only the timeout that
    [blinkIntervalRef] tracks.  Between two blinks that is the one pending
    timeout, and the cycle stops.  During a blink the pending timeout is
    the untracked 150 ms one: the cleanup changes nothing, and when that
    timeout expires the next blink is scheduled as if the component were
    still mounted. *)
Theorem blink_cleanup
    (random random' random'' : float) (s : State) (t t' : Timeout) :
  offPhase random s → t ∈ timeouts s → t' ∈ timeouts (expire t random' s) →
  timeouts (cleanup s) = []
  ∧ cleanup (expire t random' s) = expire t random' s
  ∧ t' ∈ timeouts (cleanup (expire t random' s))
  ∧ offPhase random'' (expire t' random'' (cleanup (expire t random' s))).
Proof.
  intros Hoff Ht Ht'.
  pose proof (expire_eyesClosed random random' s t Hoff Ht) as Hclosed.
  pose proof (cleanup_eyesClosed _ Hclosed) as Hclean.
  split_and!.
  - by eapply cleanup_offPhase.
  - exact Hclean.
  - by rewrite Hclean.
  - rewrite Hclean. apply expire_onPhase; [apply Hclosed | done].
Qed.

Lemma blink_cleanup_witness :
  let blinking :=
    Blink.expire
      {| Blink.handle := 1; Blink.delay := 3500%float; Blink.callback := Blink.BlinkStart |}
      0.25%float (Blink.mount 0.5%float) in
  Blink.timeouts (Blink.cleanup blinking)
  = [ {| Blink.handle := 2; Blink.delay := 150%float; Blink.callback := Blink.BlinkEnd |} ]
  ∧ offPhase 0.75%float
      (Blink.expire
         {| Blink.handle := 2; Blink.delay := 150%float; Blink.callback := Blink.BlinkEnd |}
         0.75%float (Blink.cleanup blinking)).
Proof.
  split; [ reflexivity | ].
  refine (proj2 (proj2 (proj2
    (blink_cleanup 0.5%float 0.25%float 0.75%float (mount 0.5%float)
       {| handle := 1; delay := 3500%float; callback := BlinkStart |}
       {| handle := 2; delay := 150%float; callback := BlinkEnd |}
       _ _ _)))).
  - apply mount_offPhase.
  - apply list_elem_of_singleton. reflexivity.
  - apply list_elem_of_singleton. reflexivity.
Defined.

End CleanupFacts.

(** ** Binary64 rounding between representable bounds

    Values are integers in units of [2 ^ - depth].  Rounding to nearest
    never crosses a valid number of the format, whatever its exponent, and
    in the normal range it changes a number by at most one part in
    [2 ^ 53]. *)

Module RoundingFacts.
Import Binary64 Binary64Facts Scaled.
Local Open Scope Z_scope.

Lemma shr_r_spec (M : Z) (k : nat) :
  0 ≤ M →
  let mrs := Nat.iter k shr_1 {| shr_m := M; shr_r := false; shr_s := false |} in
  shr_r mrs = true → 2 ^ Z.of_nat k ≤ 2 * (M mod 2 ^ Z.of_nat k).
Proof.
  intros HM. destruct k as [|k]; cbn zeta; [discriminate|].
  rewrite Nat.iter_succ.
  destruct (shr_iter_spec M k HM) as [Hm _]. cbn zeta in Hm.
  set (mrs := Nat.iter k shr_1 _) in *.
  assert (Hpos : 0 < 2 ^ Z.of_nat k) by (apply Z.pow_pos_nonneg; lia).
  assert (Hodd : shr_r (shr_1 mrs) = true → shr_m mrs mod 2 = 1).
  { destruct mrs as [m r s]. cbn [shr_m].
    destruct m as [|[p|p|]|[p|p|]]; cbn [shr_1 shr_r]; try discriminate;
      intros _; Z.div_mod_to_equations; lia. }
  intros Hr. specialize (Hodd Hr). rewrite Hm in Hodd.
  rewrite Nat2Z.inj_succ, Z.pow_succ_r by lia.
  rewrite (Z.mul_comm 2 (2 ^ Z.of_nat k)), Z.rem_mul_r by lia.
  rewrite Hodd. pose proof (Z.mod_pos_bound M (2 ^ Z.of_nat k) Hpos). lia.
Qed.

Lemma shr_stage (M E n : Z) :
  0 ≤ M →
  ∃ mrs,
    shr {| shr_m := M; shr_r := false; shr_s := false |} E n = (mrs, E + Z.max n 0)
    ∧ shr_m mrs = M / 2 ^ Z.max n 0
    ∧ (inexact mrs = true → M mod 2 ^ Z.max n 0 ≠ 0)
    ∧ (shr_r mrs = true → 2 ^ Z.max n 0 ≤ 2 * (M mod 2 ^ Z.max n 0)).
Proof.
  intros HM. destruct (shr_exact_spec M E n HM) as (mrs & Hshr & Hm & Hi).
  exists mrs. split_and!; [done | done | done |].
  apply (f_equal fst) in Hshr. cbn [fst] in Hshr. subst mrs.
  destruct n as [|p|p]; cbn [shr fst]; try discriminate.
  rewrite iter_pos_nat.
  rewrite Z.max_l by lia. rewrite <- (positive_nat_Z p).
  by apply shr_r_spec.
Qed.

Lemma round_nearest_even_cases (mrs : shr_record) :
  let m' := round_nearest_even (shr_m mrs) (loc_of_shr_record mrs) in
  (m' = shr_m mrs ∧ (inexact mrs = false ∨ shr_r mrs = false ∨ shr_s mrs = false))
  ∨ (m' = shr_m mrs + 1 ∧ shr_r mrs = true).
Proof.
  destruct mrs as [m [] []]; unfold inexact; cbn; repeat case_match; auto.
Qed.

(** Rounding a positive number [M * 2^E] to nearest: the rounded mantissa
    [m2], at the exponent [e1] the number calls for, lies between the floor
    and the ceiling of the number in units of [2^e1], and at most half a
    unit above it. *)
Lemma round_stage (sx : bool) (M : positive) (E : Z) :
  let e1 := Z.max E (fexp64 (Zpos (digits2_pos M) + E)) in
  ∃ m2 : Z,
    binary_round_aux prec emax sx (Zpos M) E loc_Exact = finish sx m2 e1
    ∧ 0 ≤ m2 ≤ 2 ^ 53
    ∧ (∀ k, Zpos M ≤ k * 2 ^ (e1 - E) → m2 ≤ k)
    ∧ (∀ k, k * 2 ^ (e1 - E) ≤ Zpos M → k ≤ m2)
    ∧ (2 * m2 - 1) * 2 ^ (e1 - E) ≤ 2 * Zpos M.
Proof.
  intros e1. unfold binary_round_aux, shr_fexp.
  cbn [shr_record_of_loc Zdigits2]. rewrite fexp64_eq.
  set (d := Zpos (digits2_pos M)) in *.
  set (n1 := fexp64 (d + E) - E).
  destruct (shr_stage (Zpos M) E n1) as (mrs1 & -> & Hm1 & Hi1 & Hr1); [lia|].
  set (k1 := Z.max n1 0) in *.
  assert (He1 : E + k1 = e1) by (subst e1 k1 n1; lia).
  rewrite He1. replace (e1 - E) with k1 by lia.
  pose proof (round_nearest_even_bounds mrs1) as [Hb1 Hb2].
  pose proof (round_nearest_even_cases mrs1) as Hcases.
  set (m2 := round_nearest_even (shr_m mrs1) (loc_of_shr_record mrs1)) in *.
  assert (Hk1 : 0 ≤ k1) by lia.
  assert (Hp1 : 0 < 2 ^ k1) by (by apply Z.pow_pos_nonneg).
  assert (Hm1pos : 0 ≤ shr_m mrs1).
  { rewrite Hm1. apply Z.div_pos; lia. }
  assert (Hm1lt : shr_m mrs1 < 2 ^ 53).
  { rewrite Hm1. apply Z.div_lt_upper_bound; [lia|].
    pose proof (digits2_gt M) as Hgt. fold d in Hgt.
    rewrite <- Z.pow_add_r by lia.
    eapply Z.lt_le_trans; [exact Hgt|].
    apply Z.pow_le_mono_r; [lia|]. subst k1 n1. unfold fexp64. lia. }
  assert (Hdiv : Zpos M = 2 ^ k1 * shr_m mrs1 + Zpos M mod 2 ^ k1).
  { rewrite Hm1. apply Z.div_mod. lia. }
  pose proof (Z.mod_pos_bound (Zpos M) (2 ^ k1) Hp1) as Hmod.
  assert (He1min : -1074 ≤ e1) by (subst e1; unfold fexp64; lia).
  exists m2. split_and!.
  - rewrite fexp64_eq. unfold finish.
    destruct (Z.eqb_spec m2 (2 ^ 53)) as [Hfull | Hpart].
    + rewrite Hfull. change (Zdigits2 (2 ^ 53)) with 54.
      replace (fexp64 (54 + e1) - e1) with 1 by (unfold fexp64; lia).
      cbn [shr SpecFloat.iter_pos]. change (emax - prec) with 971.
      reflexivity.
    + assert (Hn2 : fexp64 (Zdigits2 m2 + e1) - e1 ≤ 0).
      { assert (Zdigits2 m2 ≤ 53).
        { destruct m2 as [|p|p] eqn:Hm2eq; cbn [Zdigits2]; try lia.
          apply digits2_upper; lia. }
        unfold fexp64. lia. }
      destruct (fexp64 (Zdigits2 m2 + e1) - e1) as [|p|p] eqn:Hn; try lia;
        cbn [shr shr_m]; rewrite ?Z.add_0_r; change (emax - prec) with 971; done.
  - lia.
  - lia.
  - intros k Hk.
    destruct (inexact mrs1) eqn:Hinex.
    + specialize (Hi1 eq_refl).
      assert (shr_m mrs1 < k); [|lia].
      rewrite Hm1. apply Z.div_lt_upper_bound; [lia|].
      assert (Zpos M ≠ 2 ^ k1 * k); [|lia].
      intros Heq. apply Hi1. rewrite Heq, Z.mul_comm. apply Z.mod_mul. lia.
    + rewrite (Hb2 eq_refl). rewrite Hm1. apply Z.div_le_upper_bound; lia.
  - intros k Hk.
    assert (k ≤ shr_m mrs1); [|lia].
    rewrite Hm1. apply Z.div_le_lower_bound; lia.
  - destruct Hcases as [[-> _] | [-> Hr]]; [nia|].
    specialize (Hr1 Hr). nia.
Qed.

(** *** Values *)

Lemma pow_split (a b : Z) :
  0 ≤ a → 0 ≤ b → 2 ^ (a + b) = 2 ^ a * 2 ^ b.
Proof. intros. by apply Z.pow_add_r. Qed.

Lemma pow_pos (a : Z) : 0 ≤ a → 0 < 2 ^ a.
Proof. intros. by apply Z.pow_pos_nonneg. Qed.

(** A valid finite number: exponent range, mantissa below [2^53], and a
    full mantissa above the smallest exponent. *)
Lemma bounded_range (m : positive) (e : Z) :
  bounded prec emax m e = true →
  -1074 ≤ e ≤ 971 ∧ Zpos m < 2 ^ 53 ∧ (-1074 < e → 2 ^ 52 ≤ Zpos m).
Proof.
  intros Hb. destruct (bounded_spec m e Hb) as [Hcanon Hm].
  unfold bounded in Hb. apply andb_prop in Hb as [_ He].
  apply Z.leb_le in He. change (emax - prec) with 971 in He.
  split_and!; [unfold fexp64 in Hcanon; lia | done | done |].
  intros Hnormal.
  assert (Hd : Zpos (digits2_pos m) = 53) by (unfold fexp64 in Hcanon; lia).
  pose proof (digits2_le m) as Hle. rewrite Hd in Hle.
  change (2 ^ 53) with (2 * 2 ^ 52) in Hle. lia.
Qed.

(** Rounding respects representable bounds: the rounded value of a positive
    number is at most every valid finite number above it and at least
    every valid finite number below it. *)
Lemma round_between (sx : bool) (M : positive) (E : Z) (mh : positive) (eh : Z) :
  - depth ≤ E →
  (fexp64 (Zpos (digits2_pos M) + E) ≤ E → E ≤ 971) →
  bounded prec emax mh eh = true →
  magnitude (Zpos M) E ≤ magnitude (Zpos mh) eh →
  ∃ mf ef : Z,
    binary_round_aux prec emax sx (Zpos M) E loc_Exact = rounded sx mf ef
    ∧ 0 ≤ mf ∧ - depth ≤ ef
    ∧ magnitude mf ef ≤ magnitude (Zpos mh) eh
    ∧ (∀ (ml : positive) (el : Z),
         bounded prec emax ml el = true →
         magnitude (Zpos ml) el ≤ magnitude (Zpos M) E →
         magnitude (Zpos ml) el ≤ magnitude mf ef)
    ∧ (2 ^ 53 * magnitude mf ef ≤ (2 ^ 53 + 1) * magnitude (Zpos M) E
       ∨ magnitude mf ef ≤ magnitude 1 (-1021)).
Proof.
  intros HE Hexact Hbh HXH.
  destruct (bounded_range mh eh Hbh) as (Heh & Hmh & _).
  destruct (round_stage sx M E) as (m2 & -> & Hm2 & Hup & Hlo & Hnear).
  set (d := Zpos (digits2_pos M)) in *.
  assert (He1min : -1074 ≤ Z.max E (fexp64 (d + E))) by (unfold fexp64; lia).
  set (e1 := Z.max E (fexp64 (d + E))) in *.
  pose proof (digits2_le M) as HdM. fold d in HdM.
  assert (Hdpos : 0 < d) by (subst d; lia).
  unfold magnitude, depth in *.
  set (P := 2 ^ (E + 2200)) in *.
  set (A := 2 ^ (e1 - E)) in *.
  assert (HP : 0 < P) by (apply pow_pos; lia).
  assert (HA : 0 < A) by (apply pow_pos; lia).
  assert (He1P : 2 ^ (e1 + 2200) = A * P).
  { subst A P. rewrite <- pow_split by lia. f_equal. lia. }
  (* the exact case: nothing is shifted out *)
  assert (Hsame : e1 = E → m2 = Zpos M).
  { intros Heq. assert (HA1 : A = 1) by (subst A; rewrite Heq, Z.sub_diag; done).
    assert (m2 ≤ Zpos M) by (apply Hup; lia).
    assert (Zpos M ≤ m2) by (apply Hlo; lia). lia. }
  (* the rounded case above the smallest exponent: a full mantissa *)
  assert (Hfull : E < e1 → -1074 < e1 →
            2 ^ 52 ≤ m2 ∧ 2 ^ (52 + e1 + 2200) ≤ Zpos M * P).
  { intros HEe1 Hnormal.
    assert (Hd : d = e1 - E + 53) by (subst e1; unfold fexp64 in *; lia).
    assert (HM : 2 ^ 52 * A ≤ Zpos M).
    { assert (2 ^ d = 2 * (2 ^ 52 * A)); [|lia].
      subst A. rewrite <- pow_split, <- Z.pow_succ_r by lia. f_equal. lia. }
    split; [by apply Hlo|].
    replace (52 + e1 + 2200) with (52 + ((e1 - E) + (E + 2200))) by lia.
    rewrite !pow_split by lia. fold A P. rewrite Z.mul_assoc.
    apply Z.mul_le_mono_nonneg_r; lia. }
  assert (HV1 : m2 * (A * P) ≤ Zpos mh * 2 ^ (eh + 2200)).
  { destruct (Z_le_gt_dec e1 eh) as [Hle | Hgt].
    - set (B := 2 ^ (eh - e1)).
      assert (HB : 0 < B) by (apply pow_pos; lia).
      assert (HehP : 2 ^ (eh + 2200) = B * (A * P)).
      { rewrite <- He1P. subst B. rewrite <- pow_split by lia. f_equal. lia. }
      rewrite HehP in *.
      assert (HMB : Zpos M ≤ Zpos mh * B * A).
      { apply (Z.mul_le_mono_pos_r _ _ P HP).
        by replace (Zpos mh * B * A * P) with (Zpos mh * (B * (A * P))) by ring. }
      assert (Hm2B : m2 ≤ Zpos mh * B) by (by apply Hup).
      replace (Zpos mh * (B * (A * P))) with (Zpos mh * B * (A * P)) by ring.
      apply Z.mul_le_mono_nonneg_r; [|done].
      by apply Z.lt_le_incl, Z.mul_pos_pos.
    - destruct (Z.eq_dec e1 E) as [Heq | Hne].
      + rewrite (Hsame Heq).
        assert (HA1 : A = 1) by (subst A; rewrite Heq, Z.sub_diag; done).
        rewrite HA1. lia.
      + exfalso. destruct Hfull as [_ HX]; [lia | lia |].
        assert (Hpow : 2 ^ (53 + eh + 2200) ≤ 2 ^ (52 + e1 + 2200))
          by (apply Z.pow_le_mono_r; lia).
        assert (Hpow' : 2 ^ (53 + eh + 2200) = 2 ^ 53 * 2 ^ (eh + 2200)).
        { rewrite <- pow_split by lia. f_equal. lia. }
        assert (HT : 0 < 2 ^ (eh + 2200)) by (apply pow_pos; lia).
        assert (Zpos mh * 2 ^ (eh + 2200) < 2 ^ 53 * 2 ^ (eh + 2200))
          by (by apply Z.mul_lt_mono_pos_r).
        lia. }
  (* no overflow *)
  assert (HT : 0 < 2 ^ (eh + 2200)) by (apply pow_pos; lia).
  assert (Hover : ∀ c, 2 ^ 53 ≤ c * 2 ^ (e1 - eh) → eh ≤ e1 → c ≤ m2 → False).
  { intros c Hc Hehe1 Hcm.
    assert (He1T : A * P = 2 ^ (e1 - eh) * 2 ^ (eh + 2200)).
    { rewrite <- He1P, <- pow_split by lia. f_equal. lia. }
    rewrite He1T in HV1.
    assert (0 < 2 ^ (e1 - eh)) by (apply pow_pos; lia).
    assert (2 ^ 53 * 2 ^ (eh + 2200) ≤ c * 2 ^ (e1 - eh) * 2 ^ (eh + 2200))
      by (apply Z.mul_le_mono_nonneg_r; lia).
    assert (c * 2 ^ (e1 - eh) * 2 ^ (eh + 2200)
            ≤ m2 * 2 ^ (e1 - eh) * 2 ^ (eh + 2200)).
    { apply Z.mul_le_mono_nonneg_r; [lia|]. apply Z.mul_le_mono_nonneg_r; lia. }
    assert (Zpos mh * 2 ^ (eh + 2200) < 2 ^ 53 * 2 ^ (eh + 2200))
      by (apply Z.mul_lt_mono_pos_r; lia).
    lia. }
  assert (Hrange : (m2 = 0 ∨ e1 ≤ 971) ∧ (m2 = 2 ^ 53 → e1 ≤ 970)).
  { split.
    - destruct (Z.eq_dec m2 0) as [|Hpos]; [by left | right].
      destruct (Z_le_gt_dec e1 971) as [|Hbig]; [done | exfalso].
      destruct (Z.eq_dec e1 E) as [Heq | Hne].
      + subst e1. unfold fexp64 in *. lia.
      + destruct Hfull as [Hm52 _]; [lia | lia |].
        apply (Hover (2 ^ 52)); [ | lia | done ].
        assert (2 ^ 1 ≤ 2 ^ (e1 - eh)) by (apply Z.pow_le_mono_r; lia).
        change (2 ^ 53) with (2 ^ 52 * 2 ^ 1). lia.
    - intros Hfull53. destruct (Z_le_gt_dec e1 970) as [|Hbig]; [done | exfalso].
      apply (Hover (2 ^ 53)); [ | lia | lia ].
      assert (2 ^ 0 ≤ 2 ^ (e1 - eh)) by (apply Z.pow_le_mono_r; lia).
      change (2 ^ 0) with 1 in *. lia. }
  destruct Hrange as [Hfin Hfin53].
  (* the result and its value *)
  assert (Hresult : ∃ mf ef, finish sx m2 e1 = rounded sx mf ef ∧ 0 ≤ mf
                    ∧ -2200 ≤ ef ∧ mf * 2 ^ (ef + 2200) = m2 * (A * P)).
  { unfold finish. destruct (Z.eqb_spec m2 (2 ^ 53)) as [Hfull53 | Hpart].
    - exists (2 ^ 52), (e1 + 1).
      rewrite (proj2 (Z.leb_le _ _)) by (specialize (Hfin53 Hfull53); lia).
      split_and!; [done | done | subst e1; lia |].
      rewrite Hfull53, <- He1P.
      replace (e1 + 1 + 2200) with (1 + (e1 + 2200)) by lia.
      rewrite pow_split by (subst e1; lia). change (2 ^ 53) with (2 ^ 52 * 2 ^ 1). lia.
    - exists m2, e1. destruct m2 as [|q|q]; [ | | lia].
      + split_and!; [done | done | subst e1; lia | lia].
      + rewrite (proj2 (Z.leb_le _ _)) by (destruct Hfin; [done | lia]).
        split_and!; [done | done | subst e1; lia | by rewrite He1P]. }
  destruct Hresult as (mf & ef & -> & Hmf & Hef & Hval).
  exists mf, ef. rewrite Hval. split_and!; [done | done | done | done | | ].
  2: { assert (HAP : 0 < A * P) by (by apply Z.mul_pos_pos).
       destruct (Z.eq_dec e1 E) as [Heq | Hne].
       - left. rewrite (Hsame Heq).
         assert (HA1 : A = 1) by (subst A; rewrite Heq, Z.sub_diag; done).
         rewrite HA1, Z.mul_1_l. lia.
       - destruct (Z.eq_dec e1 (-1074)) as [Hmin | Hnormal].
         + right. rewrite <- He1P, Hmin, Z.mul_1_l.
           replace (-1021 + 2200) with (53 + (-1074 + 2200)) by lia.
           rewrite (pow_split 53 (-1074 + 2200)) by lia.
           apply Z.mul_le_mono_nonneg_r; [|lia].
           apply Z.lt_le_incl, pow_pos. lia.
         + left. destruct Hfull as [_ HX]; [lia | lia |].
           replace (52 + e1 + 2200) with (52 + (e1 + 2200)) in HX by lia.
           rewrite pow_split, He1P in HX by lia.
           assert (Hscaled : (2 * m2 - 1) * A * P ≤ 2 * Zpos M * P)
             by (apply Z.mul_le_mono_nonneg_r; lia).
           change (2 ^ 53) with (2 * 2 ^ 52).
           replace (2 * 2 ^ 52 * (m2 * (A * P)))
             with (2 ^ 52 * ((2 * m2 - 1) * A * P) + 2 ^ 52 * (A * P)) by ring.
           assert (2 ^ 52 * ((2 * m2 - 1) * A * P) ≤ 2 ^ 52 * (2 * Zpos M * P))
             by (apply Z.mul_le_mono_nonneg_l; lia).
           lia. }
  intros ml el Hbl HLX.
  destruct (bounded_range ml el Hbl) as (Hel & Hml & _).
  destruct (Z_le_gt_dec e1 el) as [Hle | Hgt].
  - set (B := 2 ^ (el - e1)).
    assert (HB : 0 < B) by (apply pow_pos; lia).
    assert (HelP : 2 ^ (el + 2200) = B * (A * P)).
    { rewrite <- He1P. subst B. rewrite <- pow_split by lia. f_equal. lia. }
    rewrite HelP in *.
    assert (HMB : Zpos ml * B * A ≤ Zpos M).
    { apply (Z.mul_le_mono_pos_r _ _ P HP).
      by replace (Zpos ml * B * A * P) with (Zpos ml * (B * (A * P))) by ring. }
    assert (Hm2B : Zpos ml * B ≤ m2) by (by apply Hlo).
    replace (Zpos ml * (B * (A * P))) with (Zpos ml * B * (A * P)) by ring.
    apply Z.mul_le_mono_nonneg_r; [|done].
    by apply Z.lt_le_incl, Z.mul_pos_pos.
  - destruct (Z.eq_dec e1 E) as [Heq | Hne].
    + rewrite (Hsame Heq).
      assert (HA1 : A = 1) by (subst A; rewrite Heq, Z.sub_diag; done).
      rewrite HA1. lia.
    + destruct Hfull as [Hm52 _]; [lia | lia |].
      assert (2 ^ (53 + el + 2200) ≤ 2 ^ (52 + e1 + 2200))
        by (apply Z.pow_le_mono_r; lia).
      assert (2 ^ (53 + el + 2200) = 2 ^ 53 * 2 ^ (el + 2200)).
      { rewrite <- pow_split by lia. f_equal. lia. }
      assert (2 ^ (52 + e1 + 2200) = 2 ^ 52 * (A * P)).
      { rewrite <- He1P, <- pow_split by lia. f_equal. lia. }
      assert (HL : 0 < 2 ^ (el + 2200)) by (apply pow_pos; lia).
      assert (Zpos ml * 2 ^ (el + 2200) < 2 ^ 53 * 2 ^ (el + 2200))
        by (by apply Z.mul_lt_mono_pos_r).
      assert (2 ^ 52 * (A * P) ≤ m2 * (A * P)).
      { apply Z.mul_le_mono_nonneg_r; [|done]. by apply Z.lt_le_incl, Z.mul_pos_pos. }
      lia.
Qed.

(** *** Products, sums and comparisons of valid numbers *)

Lemma magnitude_pos (m : positive) (e : Z) : - depth ≤ e → 0 < magnitude (Zpos m) e.
Proof.
  intros He. unfold magnitude.
  assert (0 < 2 ^ (e + depth)) by (apply pow_pos; lia). lia.
Qed.

Lemma magnitude_mul (mx my : positive) (ex ey : Z) :
  - depth ≤ ex + ey → 0 ≤ ex + depth → 0 ≤ ey + depth →
  magnitude (Zpos mx) ex * magnitude (Zpos my) ey
  = magnitude (Zpos (mx * my)) (ex + ey) * 2 ^ depth.
Proof.
  intros Hxy Hx Hy. unfold magnitude. rewrite Pos2Z.inj_mul.
  assert (Hpow : 2 ^ (ex + depth) * 2 ^ (ey + depth)
                 = 2 ^ (ex + ey + depth) * 2 ^ depth).
  { rewrite <- !pow_split by (unfold depth in *; lia). f_equal. lia. }
  nia.
Qed.

Lemma SFmul_between (sx sy : bool) (mx my mh : positive) (ex ey eh : Z) :
  bounded prec emax mx ex = true → bounded prec emax my ey = true →
  bounded prec emax mh eh = true →
  magnitude (Zpos mx) ex * magnitude (Zpos my) ey ≤ magnitude (Zpos mh) eh * 2 ^ depth →
  ∃ mf ef : Z,
    SF64mul (S754_finite sx mx ex) (S754_finite sy my ey) = rounded (xorb sx sy) mf ef
    ∧ 0 ≤ mf ∧ - depth ≤ ef
    ∧ magnitude mf ef ≤ magnitude (Zpos mh) eh
    ∧ (∀ (ml : positive) (el : Z),
         bounded prec emax ml el = true →
         magnitude (Zpos ml) el * 2 ^ depth
           ≤ magnitude (Zpos mx) ex * magnitude (Zpos my) ey →
         magnitude (Zpos ml) el ≤ magnitude mf ef)
    ∧ (2 ^ 53 * magnitude mf ef * 2 ^ depth
         ≤ (2 ^ 53 + 1) * (magnitude (Zpos mx) ex * magnitude (Zpos my) ey)
       ∨ magnitude mf ef ≤ magnitude 1 (-1021)).
Proof.
  intros Hbx Hby Hbh Hhi.
  destruct (bounded_range mx ex Hbx) as (Hex & Hmx & Hnx).
  destruct (bounded_range my ey Hby) as (Hey & Hmy & Hny).
  assert (HD : 0 < 2 ^ depth) by (by apply pow_pos).
  rewrite magnitude_mul in Hhi by (unfold depth; lia).
  unfold SF64mul. cbn [SFmul].
  destruct (round_between (xorb sx sy) (mx * my) (ex + ey) mh eh)
    as (mf & ef & -> & Hmf & Hef & Hle & Hlow & Hnear).
  - unfold depth. lia.
  - intros Hexact.
    destruct (Z_le_gt_dec (ex + ey) 971) as [|Hbig]; [done | exfalso].
    assert (H104 : 2 ^ 104 ≤ Zpos (mx * my)).
    { rewrite Pos2Z.inj_mul. change (2 ^ 104) with (2 ^ 52 * 2 ^ 52).
      specialize (Hnx ltac:(lia)). specialize (Hny ltac:(lia)).
      apply Z.mul_le_mono_nonneg; lia. }
    apply digits2_lower in H104; [|lia]. unfold fexp64 in Hexact. lia.
  - done.
  - by apply (Z.mul_le_mono_pos_r _ _ (2 ^ depth)).
  - exists mf, ef. split_and!; [done | done | done | done | | ].
    + intros ml el Hbl Hlo. apply Hlow; [done|].
      rewrite magnitude_mul in Hlo by (unfold depth; lia).
      by apply (Z.mul_le_mono_pos_r _ _ (2 ^ depth)).
    + destruct Hnear as [Hrel | Hsmall]; [left | by right].
      rewrite magnitude_mul by (unfold depth; lia).
      rewrite Z.mul_assoc. by apply Z.mul_le_mono_nonneg_r; [lia|].
Qed.

Lemma SFadd_between (mx my mh : positive) (ex ey eh : Z) :
  bounded prec emax mx ex = true → bounded prec emax my ey = true →
  bounded prec emax mh eh = true →
  magnitude (Zpos mx) ex + magnitude (Zpos my) ey ≤ magnitude (Zpos mh) eh →
  ∃ mf ef : Z,
    SF64add (S754_finite false mx ex) (S754_finite false my ey) = rounded false mf ef
    ∧ 0 ≤ mf ∧ - depth ≤ ef
    ∧ magnitude mf ef ≤ magnitude (Zpos mh) eh
    ∧ (∀ (ml : positive) (el : Z),
         bounded prec emax ml el = true →
         magnitude (Zpos ml) el ≤ magnitude (Zpos mx) ex + magnitude (Zpos my) ey →
         magnitude (Zpos ml) el ≤ magnitude mf ef).
Proof.
  intros Hbx Hby Hbh Hhi.
  destruct (bounded_range mx ex Hbx) as (Hex & _ & _).
  destruct (bounded_range my ey Hby) as (Hey & _ & _).
  unfold SF64add. cbn [SFadd cond_Zopp].
  set (ez := Z.min ex ey).
  destruct (shl_align_spec mx ex ez) as (a & -> & Ha).
  destruct (shl_align_spec my ey ez) as (b & -> & Hb).
  cbn [fst]. replace (Z.min ex ez) with ez in Ha by lia.
  replace (Z.min ey ez) with ez in Hb by lia.
  change (Zpos a + Zpos b) with (Zpos (a + b)).
  cbn [binary_normalize]. unfold binary_round. rewrite fexp64_eq.
  set (target := fexp64 (Zpos (digits2_pos (a + b)) + ez)).
  destruct (shl_align_spec (a + b) ez target) as (mz & -> & Hmz).
  set (ez' := Z.min ez target) in *.
  assert (Hez' : -1074 ≤ ez' ≤ 971) by (subst ez' ez target; unfold fexp64; lia).
  assert (Hsum : magnitude (Zpos mz) ez'
                 = magnitude (Zpos mx) ex + magnitude (Zpos my) ey).
  { unfold magnitude. rewrite Hmz, Pos2Z.inj_add, Ha, Hb.
    assert (Hx : 2 ^ (ex + depth) = 2 ^ (ex - ez) * 2 ^ (ez + depth)).
    { rewrite <- pow_split by (unfold depth; lia). f_equal. lia. }
    assert (Hy : 2 ^ (ey + depth) = 2 ^ (ey - ez) * 2 ^ (ez + depth)).
    { rewrite <- pow_split by (unfold depth; lia). f_equal. lia. }
    assert (Hz : 2 ^ (ez + depth) = 2 ^ (ez - ez') * 2 ^ (ez' + depth)).
    { rewrite <- pow_split by (unfold depth; lia). f_equal. lia. }
    rewrite Hx, Hy, Hz. ring. }
  assert (Hside : fexp64 (Zpos (digits2_pos mz) + ez') ≤ ez' → ez' ≤ 971) by lia.
  assert (Hdeep : - depth ≤ ez') by (unfold depth; lia).
  rewrite <- Hsum in Hhi.
  destruct (round_between false mz ez' mh eh Hdeep Hside Hbh Hhi)
    as (mf & ef & Hround & Hmf & Hef & Hle & Hlow & _).
  exists mf, ef. split_and!; try done.
  intros ml el Hbl Hlo. apply Hlow; [done|]. by rewrite Hsum.
Qed.

(** Valid finite positive numbers compare as their values do. *)
Lemma magnitude_lt (m1 m2 : positive) (e1 e2 : Z) :
  bounded prec emax m1 e1 = true → bounded prec emax m2 e2 = true →
  e1 < e2 → magnitude (Zpos m1) e1 < magnitude (Zpos m2) e2.
Proof.
  intros Hb1 Hb2 Hlt.
  destruct (bounded_range m1 e1 Hb1) as (He1 & Hm1 & _).
  destruct (bounded_range m2 e2 Hb2) as (He2 & _ & Hn2).
  specialize (Hn2 ltac:(lia)). unfold magnitude.
  assert (Hpow : 2 ^ (e2 + depth) = 2 ^ (e2 - e1) * 2 ^ (e1 + depth)).
  { rewrite <- pow_split by (unfold depth; lia). f_equal. lia. }
  assert (0 < 2 ^ (e1 + depth)) by (apply pow_pos; unfold depth; lia).
  assert (2 ^ 1 ≤ 2 ^ (e2 - e1)) by (apply Z.pow_le_mono_r; lia).
  rewrite Hpow. change (2 ^ 53) with (2 ^ 52 * 2 ^ 1) in Hm1. nia.
Qed.

Lemma magnitude_compare (m1 m2 : positive) (e1 e2 : Z) :
  bounded prec emax m1 e1 = true → bounded prec emax m2 e2 = true →
  match e1 ?= e2 with
  | Lt => Lt
  | Gt => Gt
  | Eq => Pos.compare_cont Eq m1 m2
  end = (magnitude (Zpos m1) e1 ?= magnitude (Zpos m2) e2).
Proof.
  intros Hb1 Hb2. symmetry.
  destruct (Z.compare_spec e1 e2) as [-> | Hlt | Hgt].
  - change (Pos.compare_cont Eq m1 m2) with (Zpos m1 ?= Zpos m2).
    unfold magnitude.
    destruct (bounded_range m2 e2 Hb2) as (He2 & _ & _).
    assert (0 < 2 ^ (e2 + depth)) by (apply pow_pos; unfold depth; lia).
    destruct (Z.compare_spec (Zpos m1) (Zpos m2)) as [Heq | Hlt | Hgt].
    + apply Z.compare_eq_iff. by rewrite Heq.
    + apply Z.compare_lt_iff. nia.
    + apply Z.compare_gt_iff. nia.
  - apply Z.compare_lt_iff. by apply magnitude_lt.
  - apply Z.compare_gt_iff. by apply magnitude_lt.
Qed.

Lemma SFcompare_val (x y : spec_float) :
  finite x = true → finite y = true →
  valid_binary x = true → valid_binary y = true →
  SFcompare x y = Some (val x ?= val y).
Proof.
  intros Hfx Hfy Hvx Hvy.
  destruct x as [sx | sx | | sx mx ex]; try discriminate Hfx;
    destruct y as [sy | sy | | sy my ey]; try discriminate Hfy;
    cbn [SFcompare val valid_binary] in *.
  - done.
  - destruct (bounded_range my ey Hvy) as (Hey & _ & _).
    pose proof (magnitude_pos my ey ltac:(unfold depth; lia)).
    f_equal. symmetry. destruct sy; cbn [cond_Zopp].
    + apply Z.compare_gt_iff. lia.
    + apply Z.compare_lt_iff. lia.
  - destruct (bounded_range mx ex Hvx) as (Hex & _ & _).
    pose proof (magnitude_pos mx ex ltac:(unfold depth; lia)).
    f_equal. symmetry. destruct sx; cbn [cond_Zopp].
    + apply Z.compare_lt_iff. lia.
    + apply Z.compare_gt_iff. lia.
  - destruct (bounded_range mx ex Hvx) as (Hex & _ & _).
    destruct (bounded_range my ey Hvy) as (Hey & _ & _).
    pose proof (magnitude_pos mx ex ltac:(unfold depth; lia)).
    pose proof (magnitude_pos my ey ltac:(unfold depth; lia)).
    f_equal. destruct sx, sy; cbn [cond_Zopp].
    + rewrite Z.compare_opp, <- (magnitude_compare my mx ey ex) by done.
      destruct (Z.compare_spec ex ey) as [-> | Hlt | Hgt].
      * rewrite Z.compare_refl.
        change (CompOpp (mx ?= my)%positive = (my ?= mx)%positive).
        symmetry. apply Pos.compare_antisym.
      * by rewrite (proj2 (Z.compare_gt_iff ey ex)) by lia.
      * by rewrite (proj2 (Z.compare_lt_iff ey ex)) by lia.
    + symmetry. apply Z.compare_lt_iff. lia.
    + symmetry. apply Z.compare_gt_iff. lia.
    + by apply magnitude_compare.
Qed.

(** *** Primitive floats *)

Lemma proper_cases (x : float) :
  proper x →
  (∃ s, Prim2SF x = S754_zero s)
  ∨ (∃ m e, Prim2SF x = S754_finite false m e ∧ bounded prec emax m e = true).
Proof.
  unfold proper. intros Hx. pose proof (Prim2SF_valid x) as Hv.
  destruct (Prim2SF x) as [s | s | | [] m e]; try discriminate Hx.
  - left. by exists s.
  - right. by exists m, e.
Qed.

Lemma proper_finite (x : float) : proper x → finite (Prim2SF x) = true.
Proof. unfold proper. by destruct (Prim2SF x) as [s | s | | [] m e]. Qed.

Lemma value_nonneg (x : float) : proper x → 0 ≤ value x.
Proof.
  intros [[s Hx] | (m & e & Hx & Hb)]%proper_cases; unfold value; rewrite Hx; cbn.
  - done.
  - destruct (bounded_range m e Hb) as (He & _ & _).
    pose proof (magnitude_pos m e ltac:(unfold depth; lia)). lia.
Qed.

Lemma val_rounded (mf ef : Z) :
  0 ≤ mf → nonneg (rounded false mf ef) = true ∧ val (rounded false mf ef) = magnitude mf ef.
Proof. intros Hmf. destruct mf as [|q|q]; [done | done | lia]. Qed.

(** The rounded product of two proper numbers lies between every two
    proper numbers that enclose the exact product. *)
Lemma mul_between (x y lo hi : float) :
  proper x → proper y → proper lo → proper hi →
  value lo * 2 ^ depth ≤ value x * value y →
  value x * value y ≤ value hi * 2 ^ depth →
  proper (x * y) ∧ value lo ≤ value (x * y) ≤ value hi
  ∧ (2 ^ 53 * value (x * y) * 2 ^ depth ≤ (2 ^ 53 + 1) * (value x * value y)
     ∨ value (x * y) ≤ magnitude 1 (-1021)).
Proof.
  intros Hx Hy Hlo Hhi Hlow Hup.
  assert (HD : 0 < 2 ^ depth) by (by apply pow_pos).
  pose proof (value_nonneg hi Hhi) as Hhi0.
  pose proof (value_nonneg lo Hlo) as Hlo0.
  unfold proper, value in *. rewrite mul_spec.
  apply proper_cases in Hx as [[sx Hx] | (mx & ex & Hx & Hbx)];
    apply proper_cases in Hy as [[sy Hy] | (my & ey & Hy & Hby)];
    rewrite Hx, Hy in *; cbn [val cond_Zopp] in *.
  1-3: cbn; rewrite ?Z.mul_0_l, ?Z.mul_0_r in *;
    (split; [done | split; [lia | left; lia]]).
  destruct (bounded_range mx ex Hbx) as (Hex & _ & _).
  destruct (bounded_range my ey Hby) as (Hey & _ & _).
  pose proof (magnitude_pos mx ex ltac:(unfold depth; lia)) as Hxpos.
  pose proof (magnitude_pos my ey ltac:(unfold depth; lia)) as Hypos.
  pose proof (Z.mul_pos_pos _ _ Hxpos Hypos) as Hxypos.
  apply proper_cases in Hhi as [[sh Hh] | (mh & eh & Hh & Hbh)];
    rewrite Hh in *; cbn [val cond_Zopp] in *; [lia|].
  destruct (SFmul_between false false mx my mh ex ey eh Hbx Hby Hbh Hup)
    as (mf & ef & -> & Hmf & Hef & Hle & Hlower & Hrel).
  cbn [xorb]. destruct (val_rounded mf ef Hmf) as [-> ->].
  split; [done|]. split; [|done]. split; [|done].
  apply proper_cases in Hlo as [[sl Hl] | (ml & el & Hl & Hbl)];
    rewrite Hl in *; cbn [val cond_Zopp] in *.
  - unfold magnitude. apply Z.mul_nonneg_nonneg; [done|].
    apply Z.lt_le_incl, pow_pos. lia.
  - by apply Hlower.
Qed.

(** The rounded sum of two proper numbers lies between every two proper
    numbers that enclose the exact sum. *)
Lemma add_between (x y lo hi : float) :
  proper x → proper y → proper lo → proper hi →
  value lo ≤ value x + value y → value x + value y ≤ value hi →
  proper (x + y) ∧ value lo ≤ value (x + y) ≤ value hi.
Proof.
  intros Hx Hy Hlo Hhi Hlow Hup.
  pose proof (value_nonneg hi Hhi) as Hhi0.
  pose proof (value_nonneg lo Hlo) as Hlo0.
  pose proof (value_nonneg x Hx) as Hx0.
  pose proof (value_nonneg y Hy) as Hy0.
  pose proof Hx as Hpx. pose proof Hy as Hpy.
  unfold proper, value in *. rewrite add_spec.
  apply proper_cases in Hx as [[sx Hx] | (mx & ex & Hx & Hbx)];
    apply proper_cases in Hy as [[sy Hy] | (my & ey & Hy & Hby)];
    rewrite Hx, Hy in *; cbn [val cond_Zopp] in *.
  - assert (Hzero : ∃ s, SF64add (S754_zero sx) (S754_zero sy) = S754_zero s).
    { destruct sx, sy; by eexists. }
    destruct Hzero as [s ->]. cbn. split; [done | lia].
  - cbn [SF64add SFadd]. unfold SF64add. cbn [SFadd val cond_Zopp nonneg]. lia.
  - unfold SF64add. cbn [SFadd val cond_Zopp nonneg]. lia.
  - destruct (bounded_range mx ex Hbx) as (Hex & _ & _).
    destruct (bounded_range my ey Hby) as (Hey & _ & _).
    pose proof (magnitude_pos mx ex ltac:(unfold depth; lia)) as Hxpos.
    pose proof (magnitude_pos my ey ltac:(unfold depth; lia)) as Hypos.
    apply proper_cases in Hhi as [[sh Hh] | (mh & eh & Hh & Hbh)];
      rewrite Hh in *; cbn [val cond_Zopp] in *; [lia|].
    destruct (SFadd_between mx my mh ex ey eh Hbx Hby Hbh Hup)
      as (mf & ef & -> & Hmf & Hef & Hle & Hlower).
    destruct (val_rounded mf ef Hmf) as [-> ->].
    split; [done|]. split; [|done].
    apply proper_cases in Hlo as [[sl Hl] | (ml & el & Hl & Hbl)];
      rewrite Hl in *; cbn [val cond_Zopp] in *.
    + unfold magnitude. assert (0 < 2 ^ (ef + depth)) by (apply pow_pos; lia). nia.
    + by apply Hlower.
Qed.

(** Comparisons of finite numbers are comparisons of their values. *)
Lemma leb_value (x y : float) :
  finite (Prim2SF x) = true → finite (Prim2SF y) = true →
  (x <=? y)%float = true ↔ value x ≤ value y.
Proof.
  intros Hx Hy. rewrite leb_spec. unfold SFleb, value.
  rewrite SFcompare_val by (done || apply Prim2SF_valid).
  destruct (Z.compare_spec (val (Prim2SF x)) (val (Prim2SF y))); split; (done || lia).
Qed.

Lemma ltb_value (x y : float) :
  finite (Prim2SF x) = true → finite (Prim2SF y) = true →
  (x <? y)%float = true ↔ value x < value y.
Proof.
  intros Hx Hy. rewrite ltb_spec. unfold SFltb, value.
  rewrite SFcompare_val by (done || apply Prim2SF_valid).
  destruct (Z.compare_spec (val (Prim2SF x)) (val (Prim2SF y))); split; (done || lia).
Qed.

(** A number that compares with 0 and 1 as [0 <= r < 1] is proper. *)
Lemma unit_interval (r : float) :
  (0 <=? r)%float = true → (r <? 1)%float = true →
  proper r ∧ value r < 2 ^ depth.
Proof.
  intros Hge Hlt.
  assert (Hr : proper r).
  { unfold proper. rewrite leb_spec in Hge. rewrite ltb_spec in Hlt.
    change (Prim2SF 0) with (S754_zero false) in Hge.
    change (Prim2SF 1) with (S754_finite false 4503599627370496 (-52)) in Hlt.
    destruct (Prim2SF r) as [s | [] | | [] m e]; try done. }
  split; [done|].
  apply ltb_value in Hlt; [ | by apply proper_finite | done ].
  assert (Hone : value 1 = 2 ^ depth).
  { unfold value. change (Prim2SF 1) with (S754_finite false 4503599627370496 (-52)).
    cbn [val cond_Zopp]. unfold magnitude.
    change 4503599627370496 with (2 ^ 52).
    rewrite <- pow_split by (unfold depth; lia). f_equal; unfold depth; lia. }
  by rewrite <- Hone.
Qed.

(** A proper number below 1 is at most [1 - 2^-53]. *)
Lemma below_one (r : float) :
  proper r → value r < 2 ^ depth → 2 ^ 53 * value r ≤ (2 ^ 53 - 1) * 2 ^ depth.
Proof.
  intros Hr Hlt.
  assert (HD : 2 ^ depth = 2 ^ 53 * 2 ^ (-53 + depth)).
  { rewrite <- pow_split by (unfold depth; lia). f_equal; unfold depth; lia. }
  assert (HU : 0 < 2 ^ (-53 + depth)) by (apply pow_pos; unfold depth; lia).
  apply proper_cases in Hr as [[s Hx] | (m & e & Hx & Hb)];
    unfold value in *; rewrite Hx in *; cbn [val cond_Zopp] in *.
  - rewrite Z.mul_0_r. apply Z.mul_nonneg_nonneg; [lia|]. rewrite HD. lia.
  - destruct (bounded_range m e Hb) as (He & Hm & _).
    unfold magnitude in *.
    destruct (Z_le_gt_dec (-53) e) as [Hhigh | Hlow].
    + (* the value is a multiple of 2^(-53), below 1 *)
      assert (Hpow : 2 ^ (e + depth) = 2 ^ (e + 53) * 2 ^ (-53 + depth)).
      { rewrite <- pow_split by (unfold depth; lia). f_equal. lia. }
      rewrite Hpow, HD in *.
      assert (Hk : Zpos m * 2 ^ (e + 53) < 2 ^ 53).
      { apply (Z.mul_lt_mono_pos_r (2 ^ (-53 + depth))); [done|].
        by rewrite <- Z.mul_assoc. }
      replace (2 ^ 53 * (Zpos m * (2 ^ (e + 53) * 2 ^ (-53 + depth))))
        with (Zpos m * 2 ^ (e + 53) * (2 ^ 53 * 2 ^ (-53 + depth))) by ring.
      apply Z.mul_le_mono_nonneg_r; lia.
    + (* the value is below 1/2 *)
      assert (Hpow : 2 ^ (-53 + depth) = 2 ^ (-54 - e) * (2 * 2 ^ (e + depth))).
      { rewrite <- Z.pow_succ_r, <- pow_split by (unfold depth; lia).
        f_equal. lia. }
      assert (Hq : 0 < 2 ^ (-54 - e)) by (apply pow_pos; lia).
      assert (Hu : 0 < 2 ^ (e + depth)) by (apply pow_pos; unfold depth; lia).
      assert (Hunit : 2 * 2 ^ (e + depth) ≤ 2 ^ (-53 + depth)).
      { rewrite Hpow.
        assert (1 * (2 * 2 ^ (e + depth)) ≤ 2 ^ (-54 - e) * (2 * 2 ^ (e + depth)))
          by (apply Z.mul_le_mono_nonneg_r; lia).
        lia. }
      assert (Hhalf : 2 * (Zpos m * 2 ^ (e + depth))
                      ≤ (2 ^ 53 - 1) * 2 ^ (-53 + depth)).
      { replace (2 * (Zpos m * 2 ^ (e + depth)))
          with (Zpos m * (2 * 2 ^ (e + depth))) by ring.
        assert (Zpos m * (2 * 2 ^ (e + depth)) ≤ (2 ^ 53 - 1) * (2 * 2 ^ (e + depth)))
          by (apply Z.mul_le_mono_nonneg_r; lia).
        assert ((2 ^ 53 - 1) * (2 * 2 ^ (e + depth))
                ≤ (2 ^ 53 - 1) * 2 ^ (-53 + depth))
          by (apply Z.mul_le_mono_nonneg_l; lia).
        lia. }
      rewrite HD. lia.
Qed.

(** [r * c] for a proper [r] below 1 and [c] at least 1: strictly below
    [c]. *)
Lemma scale_strict (r c : float) :
  proper r → value r < 2 ^ depth → proper c → 2 ^ depth ≤ value c →
  proper (r * c) ∧ value (r * c) < value c.
Proof.
  intros Hr Hlt Hc Hc1.
  pose proof (value_nonneg r Hr) as Hr0.
  assert (HD : 0 < 2 ^ depth) by (by apply pow_pos).
  assert (H0 : proper 0) by reflexivity.
  assert (Hlow : value 0 * 2 ^ depth ≤ value r * value c).
  { change (value 0) with 0. rewrite Z.mul_0_l. apply Z.mul_nonneg_nonneg; lia. }
  assert (Hup : value r * value c ≤ value c * 2 ^ depth).
  { rewrite (Z.mul_comm (value c)). apply Z.mul_le_mono_nonneg_r; lia. }
  destruct (mul_between r c 0 c Hr Hc H0 Hc Hlow Hup) as (Hp & _ & [Hrel | Hsmall]).
  - split; [done|].
    pose proof (below_one r Hr Hlt) as Hone.
    set (V := value (r * c)) in *. set (R := value r) in *. set (C := value c) in *.
    set (D := 2 ^ depth) in *.
    (* 2^106 V D <= (2^53+1) (2^53 R) C <= (2^53+1) (2^53-1) D C < 2^106 D C *)
    assert (H1 : 2 ^ 53 * (2 ^ 53 * V * D) ≤ 2 ^ 53 * ((2 ^ 53 + 1) * (R * C)))
      by (apply Z.mul_le_mono_nonneg_l; lia).
    assert (H2 : (2 ^ 53 + 1) * (2 ^ 53 * R) * C
                 ≤ (2 ^ 53 + 1) * ((2 ^ 53 - 1) * D) * C).
    { apply Z.mul_le_mono_nonneg_r; [lia|]. apply Z.mul_le_mono_nonneg_l; lia. }
    assert (H3 : 0 < D * C) by (apply Z.mul_pos_pos; lia).
    apply (Z.mul_lt_mono_pos_r (2 ^ 106 * D)); [lia|].
    replace (V * (2 ^ 106 * D)) with (2 ^ 53 * (2 ^ 53 * V * D)) by ring.
    replace (C * (2 ^ 106 * D)) with ((2 ^ 53 + 1) * ((2 ^ 53 - 1) * D) * C + D * C)
      by ring.
    replace (2 ^ 53 * ((2 ^ 53 + 1) * (R * C)))
      with ((2 ^ 53 + 1) * (2 ^ 53 * R) * C) in H1 by ring.
    lia.
  - split; [done|].
    assert (magnitude 1 (-1021) < 2 ^ depth); [|lia].
    unfold magnitude. rewrite Z.mul_1_l. apply Z.pow_lt_mono_r; unfold depth; lia.
Qed.

(** A valid number below a valid [c] with a predecessor [p] of the same
    exponent is at most [p]. *)
Lemma below_pred (x c p : float) (mc : positive) (ec : Z) :
  proper x →
  Prim2SF c = S754_finite false (mc + 1) ec → Prim2SF p = S754_finite false mc ec →
  value x < value c → value x ≤ value p.
Proof.
  intros Hx Hc Hp Hlt.
  pose proof (Prim2SF_valid c) as Hvc. pose proof (Prim2SF_valid p) as Hvp.
  unfold value in *. rewrite Hc, Hp in *. cbn [val cond_Zopp valid_binary] in *.
  destruct (bounded_range mc ec Hvp) as (Hec & _ & _).
  pose proof (magnitude_pos mc ec ltac:(unfold depth; lia)) as Hppos.
  apply proper_cases in Hx as [[s Hx] | (m & e & Hx & Hb)];
    rewrite Hx in *; cbn [val cond_Zopp] in *; [lia|].
  destruct (bounded_range m e Hb) as (He & _ & _).
  destruct (Z.lt_trichotomy e ec) as [Hless | [-> | Hmore]].
  - apply Z.lt_le_incl. by apply magnitude_lt.
  - unfold magnitude in *.
    assert (HU : 0 < 2 ^ (ec + depth)) by (apply pow_pos; unfold depth; lia).
    apply Z.mul_le_mono_nonneg_r; [lia|].
    apply Z.mul_lt_mono_pos_r in Hlt; [lia | done].
  - pose proof (magnitude_lt (mc + 1) m ec e Hvc Hb Hmore). lia.
Qed.

(** Negation. *)
Lemma value_opp (x : float) :
  value (- x) = - value x ∧ finite (Prim2SF (- x)) = finite (Prim2SF x).
Proof.
  unfold value. rewrite opp_spec.
  destruct (Prim2SF x) as [s | s | | s m e]; cbn; try done.
  destruct s; cbn; split; (done || lia).
Qed.

Lemma binary_round_aux_opp (sx : bool) (m e : Z) (l : location) :
  binary_round_aux prec emax (negb sx) m e l
  = SFopp (binary_round_aux prec emax sx m e l).
Proof.
  unfold binary_round_aux.
  destruct (shr_fexp prec emax m e l) as [mrs1 e1].
  destruct (shr_fexp prec emax _ e1 loc_Exact) as [mrs2 e2].
  destruct (shr_m mrs2) as [|q|q]; [done | | done].
  by destruct (e2 <=? emax - prec).
Qed.

Lemma mul_opp_l (x y : float) : (- x * y = - (x * y))%float.
Proof.
  apply Prim2SF_inj. rewrite opp_spec, !mul_spec, opp_spec.
  destruct (Prim2SF x) as [sx | sx | | sx mx ex],
           (Prim2SF y) as [sy | sy | | sy my ey];
    unfold SF64mul; cbn [SFmul SFopp]; try done;
    try (by destruct sx, sy).
  rewrite <- binary_round_aux_opp. by destruct sx, sy.
Qed.

End RoundingFacts.

(** ** The distraction cycle *)

Module GazeRanges.
Import Scaled RoundingFacts Gaze.
Local Open Scope Z_scope.

Lemma proper_constants :
  proper 0 ∧ proper 5000 ∧ proper 3000 ∧ proper 8000
  ∧ proper below5000 ∧ proper below8000
  ∧ proper 800 ∧ proper 200 ∧ proper 1000
  ∧ proper 0.22 ∧ proper 0.06 ∧ proper 0.2 ∧ proper 0.08 ∧ proper 0.28
  ∧ proper 18 ∧ proper 3.96 ∧ proper 3.6 ∧ proper 5.040000000000001.
Proof. split_and!; reflexivity. Qed.

Lemma values :
  value 0 = 0
  ∧ 2 ^ depth ≤ value 5000
  ∧ value below5000 + value 3000 = value below8000
  ∧ value below8000 < value 8000
  ∧ value 200 + value 800 = value 1000
  ∧ value 0.22 + value 0.06 ≤ value 0.28
  ∧ value 0.2 + value 0.08 ≤ value 0.28
  ∧ value 3.96 * 2 ^ depth ≤ value 18 * value 0.22
  ∧ value 3.6 * 2 ^ depth ≤ value 18 * value 0.2
  ∧ value 18 * value 0.28 ≤ value 5.040000000000001 * 2 ^ depth
  ∧ value (-3.96) = - value 3.96
  ∧ value (-3.6) = - value 3.6
  ∧ value (-5.040000000000001) = - value 5.040000000000001.
Proof.
  split_and!;
    first [ vm_compute; reflexivity
          | apply Z.leb_le; vm_compute; reflexivity
          | apply Z.ltb_lt; vm_compute; reflexivity ].
Qed.

(** [r * c] for [0 <= r < 1] and a proper [c]: between 0 and [c]. *)
Lemma scale_range (r c : float) :
  proper r → value r < 2 ^ depth → proper c →
  proper (r * c) ∧ 0 ≤ value (r * c) ≤ value c.
Proof.
  intros Hr Hlt Hc.
  pose proof (value_nonneg r Hr) as Hr0. pose proof (value_nonneg c Hc) as Hc0.
  assert (H0 : proper 0) by reflexivity.
  assert (Hlow : value 0 * 2 ^ depth ≤ value r * value c).
  { change (value 0) with 0. nia. }
  assert (Hup : value r * value c ≤ value c * 2 ^ depth) by nia.
  destruct (mul_between r c 0 c Hr Hc H0 Hc Hlow Hup) as (Hp & Hv & _).
  split; [done|]. by change (value 0) with 0 in Hv.
Qed.

(** [base + r * span] lies between [base] and the proper number [top]
    that [base + span] does not exceed. *)
Lemma affine_range (r base span top : float) :
  (0 <=? r)%float = true → (r <? 1)%float = true →
  proper base → proper span → proper top →
  value base + value span ≤ value top →
  proper (base + r * span) ∧ proper (r * span + base)
  ∧ value base ≤ value (base + r * span) ≤ value top
  ∧ value base ≤ value (r * span + base) ≤ value top.
Proof.
  intros Hge Hlt Hbase Hspan Htop Hsum.
  destruct (unit_interval r Hge Hlt) as [Hr Hr1].
  destruct (scale_range r span Hr Hr1 Hspan) as [Hp Hv].
  destruct (add_between base (r * span) base top Hbase Hp Hbase Htop) as [Hp1 Hv1];
    [lia | lia |].
  destruct (add_between (r * span) base base top Hp Hbase Hbase Htop) as [Hp2 Hv2];
    [lia | lia |].
  done.
Qed.

(** The delay before the next distraction: at least 3000 and below 8000. *)
Lemma delay_range (r : float) :
  (0 <=? r)%float = true → (r <? 1)%float = true →
  (3000 <=? nextDistractionDelay r)%float = true
  ∧ (nextDistractionDelay r <? 8000)%float = true.
Proof.
  intros Hge Hlt. unfold nextDistractionDelay.
  destruct proper_constants as (_ & H5000 & H3000 & H8000 & Hb5 & Hb8 & _).
  destruct values as (_ & Hone & Hsum & Hbelow & _).
  destruct (unit_interval r Hge Hlt) as [Hr Hr1].
  destruct (scale_strict r 5000 Hr Hr1 H5000 Hone) as [Hp Hstrict].
  assert (Hpred : value (r * 5000) ≤ value below5000).
  { by apply (below_pred (r * 5000) 5000 below5000 5497558138879999 (-40)). }
  pose proof (value_nonneg _ Hp) as Hp0.
  destruct (add_between (r * 5000) 3000 3000 below8000 Hp H3000 H3000 Hb8)
    as [Hq Hv]; [lia | lia |].
  split.
  - apply leb_value; [by apply proper_finite | by apply proper_finite | lia].
  - apply ltb_value; [by apply proper_finite | by apply proper_finite | lia].
Qed.

(** How long a distraction lasts: between 800 and 1000. *)
Lemma duration_range (r : float) :
  (0 <=? r)%float = true → (r <? 1)%float = true →
  (800 <=? distractionDuration r)%float = true
  ∧ (distractionDuration r <=? 1000)%float = true.
Proof.
  intros Hge Hlt. unfold distractionDuration.
  destruct proper_constants as (_ & _ & _ & _ & _ & _ & H800 & H200 & H1000 & _).
  destruct values as (_ & _ & _ & _ & Hsum & _).
  destruct (affine_range r 800 200 1000 Hge Hlt H800 H200 H1000) as (Hp & _ & Hv & _);
    [lia|].
  split; apply leb_value; try (by apply proper_finite); lia.
Qed.

(** [- eyeWidth * (base + r * span)] lies between [- top] and [- bottom]
    for proper bounds with [bottom <= 18 * base] and
    [18 * (base + span) <= top]. *)
Lemma offset_range (r base span sum bottom top : float) :
  (0 <=? r)%float = true → (r <? 1)%float = true →
  proper base → proper span → proper sum → proper bottom → proper top →
  value base + value span ≤ value sum →
  value bottom * 2 ^ depth ≤ value 18 * value base →
  value 18 * value sum ≤ value top * 2 ^ depth →
  (- top <=? - Eyes.eyeWidth * (base + r * span))%float = true
  ∧ (- Eyes.eyeWidth * (base + r * span) <=? - bottom)%float = true
  ∧ - value top ≤ value (- Eyes.eyeWidth * (base + r * span))%float ≤ - value bottom.
Proof.
  intros Hge Hlt Hbase Hspan Hsum Hbottom Htop Hadd Hlow Hup.
  destruct (affine_range r base span sum Hge Hlt Hbase Hspan Hsum Hadd)
    as (Hp & _ & Hv & _).
  assert (H18 : proper 18) by reflexivity.
  pose proof (value_nonneg 18 H18) as H18pos.
  assert (Hlow' : value bottom * 2 ^ depth ≤ value 18 * value (base + r * span)).
  { etrans; [exact Hlow|]. apply Z.mul_le_mono_nonneg_l; lia. }
  assert (Hup' : value 18 * value (base + r * span) ≤ value top * 2 ^ depth).
  { etrans; [|exact Hup]. apply Z.mul_le_mono_nonneg_l; lia. }
  destruct (mul_between 18 (base + r * span) bottom top H18 Hp Hbottom Htop Hlow' Hup')
    as (Hq & Hw & _).
  change Eyes.eyeWidth with 18%float. rewrite mul_opp_l.
  destruct (value_opp (18 * (base + r * span))) as [Hval Hfin].
  destruct (value_opp top) as [Hvt Hft].
  destruct (value_opp bottom) as [Hvb Hfb].
  split_and!; [apply leb_value | apply leb_value | lia | lia];
    rewrite ?Hfin, ?Hft, ?Hfb; try (by apply proper_finite); lia.
Qed.

End GazeRanges.

Section GazeFacts.
Import Gaze.

Example gaze_samples :
  map nextDistractionDelay [ 0; 0.5 ]%float = [ 3000; 5500 ]%float
  ∧ map distractionDuration [ 0; 0.5 ]%float = [ 800; 900 ]%float
  ∧ map leftOffset [ 0; 0.5 ]%float = [ -3.96; -4.5 ]%float
  ∧ map rightOffset [ 0; 0.5 ]%float = [ -3.6; -4.32 ]%float.
Proof. split_and!; reflexivity. Qed.

(** X6.  For every binary64 r in [0, 1): the delay before a distraction,
    [r * 5000 + 3000], is at least 3000 and below 8000; a distraction
    lasts [800 + r * 200], between 800 and 1000, and 1000 is reached by
    rounding for the largest r below 1; both highlights move to the left,
    the left one by between 3.96 and 5.040000000000001 units and the
    right one by between 3.6 and 5.040000000000001 units. *)
Theorem gaze_ranges (r : float) :
  (0 <=? r)%float = true → (r <? 1)%float = true →
  ((3000 <=? nextDistractionDelay r)%float = true
   ∧ (nextDistractionDelay r <? 8000)%float = true)
  ∧ ((800 <=? distractionDuration r)%float = true
     ∧ (distractionDuration r <=? 1000)%float = true
     ∧ distractionDuration largestBelowOne = 1000%float)
  ∧ ((-5.040000000000001 <=? leftOffset r)%float = true
     ∧ (leftOffset r <=? -3.96)%float = true)
  ∧ ((-5.040000000000001 <=? rightOffset r)%float = true
     ∧ (rightOffset r <=? -3.6)%float = true
     ∧ rightOffset largestBelowOne = (-5.040000000000001)%float).
Proof.
  intros Hge Hlt.
  destruct GazeRanges.proper_constants
    as (_ & _ & _ & _ & _ & _ & _ & _ & _ & H22 & H06 & H20 & H08 & H28 & _
        & H396 & H36 & H504).
  destruct GazeRanges.values
    as (_ & _ & _ & _ & _ & Hl & Hr & Hlb & Hrb & Htop & _).
  pose proof (GazeRanges.delay_range r Hge Hlt) as Hdelay.
  pose proof (GazeRanges.duration_range r Hge Hlt) as [Hd1 Hd2].
  pose proof (GazeRanges.offset_range r 0.22 0.06 0.28 3.96 5.040000000000001
                Hge Hlt H22 H06 H28 H396 H504 Hl Hlb Htop) as (Hl1 & Hl2 & _).
  pose proof (GazeRanges.offset_range r 0.2 0.08 0.28 3.6 5.040000000000001
                Hge Hlt H20 H08 H28 H36 H504 Hr Hrb Htop) as (Hr1 & Hr2 & _).
  split; [exact Hdelay|]. split; [|split; [by split|]].
  - split; [exact Hd1|]. split; [exact Hd2 | reflexivity].
  - split; [exact Hr1|]. split; [exact Hr2 | reflexivity].
Qed.

Lemma mount_lookingAhead (random : float) : lookingAhead random (mount random).
Proof.
  split_and!; [done | done |]. exists 1. split_and!; [done | cbn; lia | done].
Qed.

Lemma expire_lookingAhead
    (build : Build) (random r1 r2 r3 : float) (s : State) (t : Timeout) :
  lookingAhead random s → t ∈ timeouts s →
  lookingAway r1 r2 r3 (expire build t r1 r2 r3 s).
Proof.
  intros (Hm & Hd & h & Href & Hh & Hts) Ht.
  rewrite Hts in Ht. apply list_elem_of_singleton in Ht. subst t.
  unfold expire, look, clearTimeout, setTimeout. cbn. rewrite Hm. cbn.
  rewrite Hts. cbn. rewrite decide_False by (intros Hne; by apply Hne).
  split_and!; [done | done | done | done |].
  exists (nextHandle s). split_and!; [cbn; lia | | done].
  cbn. intros h0 Hh0. rewrite Href in Hh0. by injection Hh0 as <-.
Qed.

Lemma expire_lookingAway
    (build : Build) (r1 r2 r3 r4 r5 r6 : float) (s : State) (t : Timeout) :
  lookingAway r1 r2 r3 s → t ∈ timeouts s →
  lookingAhead r4 (expire build t r4 r5 r6 s)
  ∧ leftEyeShineX (expire build t r4 r5 r6 s) = Some 0%float
  ∧ rightEyeShineX (expire build t r4 r5 r6 s) = Some 0%float.
Proof.
  intros (Hm & Hd & _ & _ & h & Hh & Href & Hts) Ht.
  rewrite Hts in Ht. apply list_elem_of_singleton in Ht. subst t.
  unfold expire, look, scheduleNextDistraction, clearTimeout, setTimeout. cbn.
  rewrite Hm. cbn.
  rewrite Hts. cbn. rewrite decide_False by (intros Hne; by apply Hne).
  destruct (distractionIntervalRef s) as [h0|]; cbn.
  all: split_and!; [|done|done].
  all: split_and!; [done | done |];
       exists (nextHandle s); split_and!; [done | cbn; lia | done].
Qed.

Lemma cleanup_lookingAhead (random : float) (s : State) :
  lookingAhead random s → timeouts (cleanup s) = [].
Proof.
  intros (_ & _ & h & Href & _ & Hts). unfold cleanup, clearTimeout. rewrite Href. cbn.
  rewrite Hts. cbn. by rewrite decide_False by (intros Hne; by apply Hne).
Qed.

Lemma cleanup_lookingAway (r1 r2 r3 : float) (s : State) :
  lookingAway r1 r2 r3 s → cleanup s = s.
Proof.
  intros (_ & _ & _ & _ & h & _ & Href & Hts). unfold cleanup, clearTimeout.
  destruct (distractionIntervalRef s) as [h0|] eqn:Hh0; [|done].
  specialize (Href h0 eq_refl).
  rewrite Hts. cbn. rewrite decide_True by lia.
  destruct s; cbn in *. by subst.
Qed.

(** After unmount in a development build the callback of the untracked
    timeout ends at its first [start]: no timeout is pending any more. *)
Lemma expire_unmounted_development
    (r1 r2 r3 r4 r5 r6 : float) (s : State) (t : Timeout) :
  lookingAway r1 r2 r3 s → t ∈ timeouts s →
  timeouts (expire Development t r4 r5 r6 (unmount s)) = [].
Proof.
  intros Haway Ht. unfold unmount. rewrite (cleanup_lookingAway r1 r2 r3 s Haway).
  destruct Haway as (_ & _ & _ & _ & h & _ & _ & Hts).
  rewrite Hts in Ht. apply list_elem_of_singleton in Ht. subst t.
  unfold expire, look, clearTimeout. cbn. rewrite Hts. cbn.
  by rewrite decide_False by (intros Hne; by apply Hne).
Qed.

(** In a production build it goes on to schedule the next distraction. *)
Lemma expire_unmounted_production
    (r1 r2 r3 r4 r5 r6 : float) (s : State) (t : Timeout) :
  lookingAway r1 r2 r3 s → t ∈ timeouts s →
  ∃ h, distractionIntervalRef (expire Production t r4 r5 r6 (unmount s)) = Some h
       ∧ timeouts (expire Production t r4 r5 r6 (unmount s))
         = [ {| handle := h; delay := nextDistractionDelay r4;
                callback := DistractionStart |} ].
Proof.
  intros Haway Ht. unfold unmount. rewrite (cleanup_lookingAway r1 r2 r3 s Haway).
  destruct Haway as (_ & _ & _ & _ & h & _ & _ & Hts).
  rewrite Hts in Ht. apply list_elem_of_singleton in Ht. subst t.
  exists (nextHandle s).
  unfold expire, look, scheduleNextDistraction, clearTimeout, setTimeout. cbn.
  rewrite Hts. cbn. rewrite decide_False by (intros Hne; by apply Hne).
  by destruct (distractionIntervalRef s) as [h0|].
Qed.

(** X7.  The distraction cycle.  Mounting arms one timeout, tracked by
    [distractionIntervalRef], with the delay [r * 5000 + 3000].  When it
    expires the avatar is distracted, both highlights are sent to their
    offsets and the only pending timeout is the untracked one of
    [800 + r * 200] ms; when that expires the avatar is no longer
    distracted, both highlights are sent back to 0 and the only pending
    timeout is the next tracked one.  The cleanup of the effect cancels the
    tracked timeout and nothing else: between distractions an unmount
    leaves no timeout pending, during a distraction it cancels nothing and
    the untracked timeout still expires.  Its callback then runs on
    unmounted animation controls: in a development build it ends at the
    first [start] and no timeout is pending any more, in a production build
    it schedules the next distraction. *)
Theorem gaze_cycle
    (build : Build) (random r1 r2 r3 r4 r5 r6 : float) (s : State) (t t' : Timeout) :
  lookingAhead random s → t ∈ timeouts s →
  t' ∈ timeouts (expire build t r1 r2 r3 s) →
  lookingAhead random (mount random)
  ∧ delay t = nextDistractionDelay random
  ∧ (lookingAway r1 r2 r3 (expire build t r1 r2 r3 s)
     ∧ delay t' = distractionDuration r3)
  ∧ (lookingAhead r4 (expire build t' r4 r5 r6 (expire build t r1 r2 r3 s))
     ∧ leftEyeShineX (expire build t' r4 r5 r6 (expire build t r1 r2 r3 s))
       = Some 0%float
     ∧ rightEyeShineX (expire build t' r4 r5 r6 (expire build t r1 r2 r3 s))
       = Some 0%float)
  ∧ (timeouts (cleanup s) = [] ∧ timeouts (unmount s) = [])
  ∧ (cleanup (expire build t r1 r2 r3 s) = expire build t r1 r2 r3 s
     ∧ timeouts (unmount (expire build t r1 r2 r3 s)) = [ t' ])
  ∧ timeouts (expire Development t' r4 r5 r6 (unmount (expire build t r1 r2 r3 s)))
    = []
  ∧ ∃ h, distractionIntervalRef
           (expire Production t' r4 r5 r6 (unmount (expire build t r1 r2 r3 s)))
         = Some h
       ∧ timeouts
           (expire Production t' r4 r5 r6 (unmount (expire build t r1 r2 r3 s)))
         = [ {| handle := h; delay := nextDistractionDelay r4;
                callback := DistractionStart |} ].
Proof.
  intros Hahead Ht Ht'.
  pose proof (expire_lookingAhead build random r1 r2 r3 s t Hahead Ht) as Haway.
  pose proof (expire_lookingAway build r1 r2 r3 r4 r5 r6 _ t' Haway Ht') as Hback.
  pose proof (cleanup_lookingAway r1 r2 r3 _ Haway) as Hclean.
  pose proof (cleanup_lookingAhead random s Hahead) as Hnone.
  split_and!.
  - apply mount_lookingAhead.
  - destruct Hahead as (_ & _ & h & _ & _ & Hts). rewrite Hts in Ht.
    apply list_elem_of_singleton in Ht. by subst t.
  - exact Haway.
  - destruct Haway as (_ & _ & _ & _ & h & _ & _ & Hts). rewrite Hts in Ht'.
    apply list_elem_of_singleton in Ht'. by subst t'.
  - apply Hback.
  - apply Hback.
  - apply Hback.
  - exact Hnone.
  - exact Hnone.
  - exact Hclean.
  - unfold unmount. cbn [timeouts]. rewrite Hclean.
    destruct Haway as (_ & _ & _ & _ & h & _ & _ & Hts). rewrite Hts in Ht' |- *.
    apply list_elem_of_singleton in Ht'. by subst t'.
  - by apply (expire_unmounted_development r1 r2 r3).
  - by apply (expire_unmounted_production r1 r2 r3).
Qed.

Lemma gaze_cycle_witness :
  lookingAhead 0.25%float
    (Gaze.expire Gaze.Development
       {| Gaze.handle := 2; Gaze.delay := 900%float;
          Gaze.callback := Gaze.DistractionEnd |}
       0.25%float 0%float 0%float
       (Gaze.expire Gaze.Development
          {| Gaze.handle := 1; Gaze.delay := 5500%float;
             Gaze.callback := Gaze.DistractionStart |}
          0.5%float 0.5%float 0.5%float (Gaze.mount 0.5%float)))
  ∧ Gaze.timeouts
      (Gaze.expire Gaze.Development
         {| Gaze.handle := 2; Gaze.delay := 900%float;
            Gaze.callback := Gaze.DistractionEnd |}
         0.25%float 0%float 0%float
         (Gaze.unmount
            (Gaze.expire Gaze.Development
               {| Gaze.handle := 1; Gaze.delay := 5500%float;
                  Gaze.callback := Gaze.DistractionStart |}
               0.5%float 0.5%float 0.5%float (Gaze.mount 0.5%float))))
    = [].
Proof.
  destruct (gaze_cycle Development
              0.5%float 0.5%float 0.5%float 0.5%float 0.25%float 0%float 0%float
              (mount 0.5%float)
              {| handle := 1; delay := 5500%float; callback := DistractionStart |}
              {| handle := 2; delay := 900%float; callback := DistractionEnd |})
    as (_ & _ & _ & (Hback & _) & _ & _ & Hstops & _).
  - apply mount_lookingAhead.
  - apply list_elem_of_singleton. reflexivity.
  - apply list_elem_of_singleton. reflexivity.
  - split; [exact Hback | exact Hstops].
Defined.

Lemma gaze_ranges_witness :
  (Gaze.nextDistractionDelay 0.75 <? 8000)%float = true
  ∧ (Gaze.leftOffset 0.75 <=? -3.96)%float = true.
Proof.
  destruct (gaze_ranges 0.75%float) as ((_ & Hdelay) & _ & (_ & Hleft) & _);
    [ reflexivity | reflexivity | by split ].
Defined.

End GazeFacts.

(** ** The mouth *)

Section MouthFacts.
Import Mouth.
Local Open Scope float_scope.

Example getMouthPath_rest :
  getMouthPath Shape.X = [ MoveTo (-20) 25; CurveTo (-14) 27 14 27 20 25 ].
Proof. reflexivity. Qed.

(** X8.  Every viseme has a mouth path of its own: two visemes with the
    same path are the same viseme.  The path is closed exactly for the
    visemes whose mouth is filled, that is for all but B, E and X, whose
    open curve gets the fill "none".  Every mouth path is its own mirror
    image in the vertical axis of the face. *)
Theorem mouth_shapes (v w : Viseme) :
  (getMouthPath v = getMouthPath w → v = w)
  ∧ (closed (getMouthPath v) ↔ mouthFill v ≠ "none")
  ∧ (mouthFill v = "none" ↔ v = Shape.B ∨ v = Shape.E ∨ v = Shape.X)
  ∧ mirrored 0 0 (getMouthPath v) = true.
Proof.
  split_and!.
  - intros Hsame. apply (f_equal numbers) in Hsame.
    destruct v, w; try reflexivity; vm_compute in Hsame; discriminate Hsame.
  - unfold closed. destruct v; vm_compute; split; congruence.
  - destruct v; vm_compute; split; intros H; try discriminate H; auto;
      destruct H as [H | [H | H]]; discriminate H.
  - by destruct v.
Qed.

End MouthFacts.

(** ** The eye highlights *)

Section HighlightFacts.
Import Eyes Highlight Scaled RoundingFacts.
Local Open Scope Z_scope.

Example getEyeShineSize_samples :
  map getEyeShineSize [ neutral; surprised ] = [ 2.6999999999999997; 3.5100000000000002 ]%float.
Proof. reflexivity. Qed.

(** The room around a highlight at rest: on its left more than the largest
    distraction offset, on its right none is needed. *)
Lemma highlight_margin (emotion : EyeEmotion) (isLeft : bool) :
  let x := if isLeft then (- eyeOffsetX)%float else eyeOffsetX in
  let c := getEyeShinePosition emotion isLeft in
  value (x - eyePathWidth emotion / 2)%float + value 5.040000000000001
    + value (getEyeShineSize emotion) ≤ value (px c)
  ∧ value (px c) + value (getEyeShineSize emotion)
    ≤ value (x + eyePathWidth emotion / 2)%float.
Proof.
  destruct emotion, isLeft; cbv zeta; split; apply Z.leb_le; vm_compute; reflexivity.
Qed.

(** X9.  No highlight is drawn during a blink, and two otherwise.  For
    every emotion and eye the highlight circle lies within the horizontal
    extent of the eye outline, and stays there when it is moved by any
    distraction offset ([r] in [0, 1)): its leftmost point is not left of
    the outline's leftmost point and its rightmost point not right of the
    outline's rightmost point. *)
Theorem highlight_in_eye (emotion : EyeEmotion) (isLeft : bool) (random : float) :
  (0 <=? random)%float = true → (random <? 1)%float = true →
  let x := if isLeft then (- eyeOffsetX)%float else eyeOffsetX in
  let c := getEyeShinePosition emotion isLeft in
  let size := getEyeShineSize emotion in
  let offset := if isLeft then Gaze.leftOffset random else Gaze.rightOffset random in
  (eyeShines emotion true = [] ∧ length (eyeShines emotion false) = 2%nat)
  ∧ (value (x - eyePathWidth emotion / 2)%float ≤ value (px c) - value size
     ∧ value (px c) + value size ≤ value (x + eyePathWidth emotion / 2)%float)
  ∧ (value (x - eyePathWidth emotion / 2)%float
       ≤ value (px c) + value offset - value size
     ∧ value (px c) + value offset + value size
       ≤ value (x + eyePathWidth emotion / 2)%float).
Proof.
  intros Hge Hlt x c size offset.
  destruct (highlight_margin emotion isLeft) as [Hleft Hright].
  fold x c size in Hleft, Hright.
  destruct GazeRanges.proper_constants
    as (_ & _ & _ & _ & _ & _ & _ & _ & _ & H22 & H06 & H20 & H08 & H28 & _
        & H396 & H36 & H504).
  destruct GazeRanges.values
    as (_ & _ & _ & _ & _ & Hl & Hr & Hlb & Hrb & Htop & _).
  pose proof (value_nonneg _ H504) as H504pos.
  pose proof (value_nonneg _ H396) as H396pos.
  pose proof (value_nonneg _ H36) as H36pos.
  assert (Hoffset : - value 5.040000000000001 ≤ value offset ≤ 0).
  { subst offset. destruct isLeft.
    - destruct (GazeRanges.offset_range random 0.22 0.06 0.28 3.96 5.040000000000001
                  Hge Hlt H22 H06 H28 H396 H504 Hl Hlb Htop) as (_ & _ & Hv).
      unfold Gaze.leftOffset. lia.
    - destruct (GazeRanges.offset_range random 0.2 0.08 0.28 3.6 5.040000000000001
                  Hge Hlt H20 H08 H28 H36 H504 Hr Hrb Htop) as (_ & _ & Hv).
      unfold Gaze.rightOffset. lia. }
  assert (Hsize : 0 ≤ value size).
  { subst size. apply value_nonneg. by destruct emotion. }
  split_and!; [done | done | lia | lia | lia | lia].
Qed.

Lemma highlight_in_eye_witness :
  value (-20 - 18 / 2)%float
  ≤ value (Eyes.px (Eyes.getEyeShinePosition sad true)) + value (Gaze.leftOffset 0.75)
    - value (Highlight.getEyeShineSize sad).
Proof.
  refine (proj1 (proj2 (proj2 (highlight_in_eye sad true 0.75%float _ _))));
    reflexivity.
Defined.

End HighlightFacts.

(** ** The producer: bookkeeping, timeouts and text changes *)

Section StreamFacts.
Import App.

Lemma split_length (text : string) : length (split text) = String.length text.
Proof. induction text as [|c rest IH]; cbn; congruence. Qed.

Lemma join_split (text : string) : join (split text) = text.
Proof.
  induction text as [|c rest IH]; [done|].
  cbn [split join]. rewrite IH. reflexivity.
Qed.

Lemma slice_length (n : nat) (text : string) :
  String.length (slice n text) = String.length text - n.
Proof.
  revert text. induction n as [|n IH]; intros [|c rest]; cbn; done.
Qed.

Lemma slice_short (n : nat) (text : string) :
  String.length text ≤ n → slice n text = "".
Proof.
  intros Hn. pose proof (slice_length n text) as Hlen.
  destruct (slice n text); [done|]. cbn in Hlen. lia.
Qed.

Lemma slice_app (prefix more : string) :
  slice (String.length prefix) (prefix +:+ more) = more.
Proof. induction prefix as [|c rest IH]; [by destruct more|exact IH]. Qed.

Lemma split_app (s1 s2 : string) : split (s1 +:+ s2) = (split s1 ++ split s2)%list.
Proof.
  induction s1 as [|c rest IH]; [done|].
  change (split (String c (rest +:+ s2)) = (split (String c rest) ++ split s2)%list).
  cbn [split]. by rewrite IH.
Qed.

Lemma lastN_snoc {A : Type} (l : list A) (x : A) :
  lastN 20 (lastN 20 l ++ [x]) = lastN 20 (l ++ [x]).
Proof.
  unfold lastN.
  destruct (Nat.le_gt_cases (length l) 20) as [Hle | Hgt].
  - replace (length l - 20) with 0 by lia. by rewrite drop_0.
  - set (k := length l - 20).
    assert (Hk : length (drop k l) = 20) by (rewrite length_drop; lia).
    rewrite !length_app, Hk. cbn [length].
    replace (20 + 1 - 20) with 1 by lia.
    replace (length l + 1 - 20) with (k + 1) by lia.
    rewrite !drop_app_le by lia. by rewrite drop_drop.
Qed.

Lemma appendChunk_lastN (newToken : string) (prev : list string) :
  appendChunk newToken prev = lastN 20 (prev ++ [newToken]).
Proof. apply appendChunk_drop. Qed.

(** *** The bookkeeping invariant *)

Lemma bookkeeping_lowerFlag (s : State) : bookkeeping s → bookkeeping (lowerFlag s).
Proof. unfold lowerFlag. by case_match. Qed.

Lemma bookkeeping_streamNextToken (closureSpeaking : bool) (s : State) :
  bookkeeping s → bookkeeping (streamNextToken closureSpeaking s).
Proof.
  intros (Hcursor & Hlen & Hchunks). unfold streamNextToken.
  destruct (negb closureSpeaking); [done|].
  destruct (currentTokenRef s <? length (tokensToStreamRef s)) eqn:Hlt.
  - apply Nat.ltb_lt in Hlt.
    destruct (tokensToStreamRef s !! currentTokenRef s) as [newToken|] eqn:Htok; [|done].
    unfold bookkeeping, streamed. cbn. split_and!; [lia | done |].
    rewrite appendChunk_lastN, Hchunks. unfold streamed.
    by rewrite lastN_snoc, Nat.add_1_r, (take_S_r _ _ _ Htok).
  - case_match; [done|]. by apply bookkeeping_lowerFlag.
Qed.

Lemma bookkeeping_raiseFlag (s : State) : bookkeeping s → bookkeeping (raiseFlag s).
Proof.
  intros Hs. unfold raiseFlag. case_match; [done|].
  by apply bookkeeping_streamNextToken.
Qed.

Lemma bookkeeping_processText (text : string) (s : State) :
  bookkeeping s → bookkeeping (processText text s).
Proof.
  intros (Hcursor & Hlen & Hchunks). unfold processText.
  destruct (0 <? String.length (slice (String.length (lastTypedTextRef s)) text)) eqn:Hnew;
    [|done].
  apply Nat.ltb_lt in Hnew. rewrite slice_length in Hnew.
  set (s' := Build_State _ _ _ _ _ _ _ _ _).
  assert (Hs' : bookkeeping s').
  { unfold bookkeeping, streamed. subst s'. cbn. split_and!.
    - rewrite length_app. lia.
    - rewrite length_app, split_length, slice_length. lia.
    - rewrite take_app_le by lia. exact Hchunks. }
  case_match; [|done]. by apply bookkeeping_raiseFlag.
Qed.

Lemma bookkeeping_step (s : State) (e : Event) : bookkeeping s → bookkeeping (step s e).
Proof.
  intros Hs. destruct e; cbn [step].
  - unfold handleTextChange. by apply bookkeeping_processText.
  - unfold streamTimeoutExpires. case_match; [|done].
    by apply bookkeeping_streamNextToken.
  - unfold typingTimeoutExpires. repeat case_match; try done.
    by apply bookkeeping_lowerFlag.
  - done.
  - unfold bookkeeping. cbn. split_and!; [lia | done | done].
Qed.

Lemma bookkeeping_run (events : list Event) (s : State) :
  bookkeeping s → bookkeeping (run events s).
Proof.
  revert s. induction events as [|e events IH]; intros s Hs; [done|].
  cbn. apply IH. by apply bookkeeping_step.
Qed.

Lemma bookkeeping_initial : bookkeeping initial.
Proof. unfold bookkeeping. cbn. split_and!; [lia | done | done]. Qed.

(** X10.  In every state the producer reaches, the cursor lies within the
    token stream, the stream holds one token per code unit of the last
    processed text, and the chunks handed to the avatar are the last 20 of
    the tokens streamed so far, oldest first. *)
Theorem producer_bookkeeping (events : list Event) :
  let s := run events initial in
  currentTokenRef s ≤ length (tokensToStreamRef s)
  ∧ length (tokensToStreamRef s) = String.length (lastTypedTextRef s)
  ∧ textChunks s = lastN 20 (take (currentTokenRef s) (tokensToStreamRef s)).
Proof. apply bookkeeping_run, bookkeeping_initial. Qed.

(** *** The stream timeout *)

Lemma streaming_step (s : State) (e : Event) :
  bookkeeping s → streaming s → streaming (step s e).
Proof.
  intros (Hcursor & _ & _) Hs. pose proof Hs as [Htimer Htokens].
  assert (Hnext : ∀ s0 : State,
            isSpeaking s0 = true → tokensToStreamRef s0 ≠ [] →
            currentTokenRef s0 ≤ length (tokensToStreamRef s0) →
            streaming (streamNextToken true s0)).
  { intros s0 Hup Hne Hc. unfold streamNextToken. cbn [negb].
    destruct (currentTokenRef s0 <? length (tokensToStreamRef s0)) eqn:Hlt.
    - apply Nat.ltb_lt in Hlt.
      destruct (lookup_lt_is_Some_2 _ _ Hlt) as [newToken ->].
      split; cbn; by rewrite ?Hup.
    - destruct (tokensToStreamRef s0) as [|t ts] eqn:Hts; [done|].
      split; cbn; rewrite ?Hup, ?Hts; done. }
  destruct e; cbn [step].
  - unfold handleTextChange, processText. cbn [lastTypedTextRef isSpeaking].
    destruct (0 <? _) eqn:Hnew; [|done].
    apply Nat.ltb_lt in Hnew. rewrite <- split_length in Hnew.
    set (newChunks := split _) in *.
    assert (Hne : (tokensToStreamRef s ++ newChunks)%list ≠ []).
    { intros [_ Hnil]%app_eq_nil. rewrite Hnil in Hnew. cbn in Hnew. lia. }
    destruct (isSpeaking s) eqn:Hup; cbn [negb].
    + split; cbn; by rewrite ?Hup.
    + unfold setIsSpeaking, raiseFlag. cbn [isSpeaking].
      apply Hnext; cbn; [done | done |]. rewrite length_app. lia.
  - unfold streamTimeoutExpires.
    destruct (streamTimerRef s) as [c|] eqn:Href; [|done].
    destruct (isSpeaking s) eqn:Hup; [|done]. injection Htimer as ->.
    apply Hnext; cbn; auto.
  - unfold typingTimeoutExpires. destruct (typingTimeoutRef s); [|done].
    cbn [tokensToStreamRef currentTokenRef].
    destruct (_ <=? _); [|done].
    unfold setIsSpeaking, lowerFlag. cbn [isSpeaking].
    destruct (isSpeaking s) eqn:Hup; [done|]. split; cbn; by rewrite ?Hup.
  - done.
  - done.
Qed.

Lemma streaming_run (events : list Event) (s : State) :
  bookkeeping s → streaming s → streaming (run events s).
Proof.
  revert s. induction events as [|e events IH]; intros s Hb Hs; [done|].
  cbn. apply IH; [by apply bookkeeping_step | by apply streaming_step].
Qed.

(** X11.  In every state the producer reaches, a stream timeout is pending
    exactly while the flag is up, and it holds the [streamNextToken] of a
    speaking render; while the flag is up the token stream is not empty.  So
    a stream timeout that expires always finds a token to stream or waits:
    it never lowers the flag. *)
Theorem producer_stream_timeout (events : list Event) :
  let s := run events initial in
  streamTimerRef s = (if isSpeaking s then Some true else None)
  ∧ (isSpeaking s = true → tokensToStreamRef s ≠ [])
  ∧ isSpeaking (step s StreamTimeout) = isSpeaking s.
Proof.
  intros s.
  destruct (streaming_run events initial bookkeeping_initial) as [Htimer Htokens];
    [done|]. fold s in Htimer, Htokens.
  split_and!; [done | done |].
  cbn [step]. unfold streamTimeoutExpires.
  destruct (streamTimerRef s) as [c|]; [|done].
  destruct (isSpeaking s) eqn:Hup; [|done].
  rewrite streamNextToken_isSpeaking; cbn; auto.
Qed.

(** *** A flag that stays up *)

Lemma passive_keeps_speaking (s : State) (e : Event) :
  passive e = true →
  tokensToStreamRef s ≠ [] ∧ isSpeaking s = true ∧ typingTimeoutRef s = false →
  tokensToStreamRef (step s e) ≠ [] ∧ isSpeaking (step s e) = true
  ∧ typingTimeoutRef (step s e) = false.
Proof.
  intros He (Htokens & Hup & Htyping).
  destruct e; try discriminate He; cbn [step].
  - unfold streamTimeoutExpires. destruct (streamTimerRef s) as [c|]; [|done].
    rewrite streamNextToken_tokens, streamNextToken_isSpeaking by done.
    split_and!; [done | done |].
    unfold streamNextToken. repeat case_match; try done.
    unfold lowerFlag. by case_match.
  - unfold typingTimeoutExpires. by rewrite Htyping.
  - done.
Qed.

(** X12.  Once the typing timeout has expired with tokens still to stream,
    nothing but a new text change or a reset lowers the flag: it stays up
    through every further stream timeout, speed change and (stale) typing
    timeout, also after the last token was streamed. *)
Theorem producer_keeps_speaking (events quiet : list Event) :
  let s := run events initial in
  isSpeaking s = true → typingTimeoutRef s = false →
  forallb passive quiet = true →
  isSpeaking (run quiet s) = true.
Proof.
  intros s Hup Htyping Hquiet.
  assert (Htokens : tokensToStreamRef s ≠ []).
  { by apply (producer_stream_timeout events). }
  assert (Hinv : tokensToStreamRef s ≠ [] ∧ isSpeaking s = true
                 ∧ typingTimeoutRef s = false) by done.
  clear Hup Htyping Htokens. revert Hinv. generalize s. clear s.
  induction quiet as [|e quiet IH]; intros s Hinv; [by destruct Hinv as (_ & ? & _)|].
  cbn in Hquiet. apply andb_prop in Hquiet as [He Hquiet].
  cbn. apply IH; [done|]. by apply passive_keeps_speaking.
Qed.

Lemma producer_keeps_speaking_witness :
  let pasted := App.run (App.TextChange App.sampleText
                           :: replicate 14 App.StreamTimeout ++ [ App.TypingTimeout ])
                  App.initial in
  App.currentTokenRef pasted = 15
  ∧ length (App.tokensToStreamRef pasted) = 48
  ∧ App.currentTokenRef (App.run (replicate 40 App.StreamTimeout) pasted) = 48
  ∧ App.isSpeaking (App.run (replicate 40 App.StreamTimeout) pasted) = true.
Proof.
  split_and!; [ reflexivity | reflexivity | reflexivity | ].
  apply (producer_keeps_speaking
           (TextChange sampleText :: replicate 14 StreamTimeout ++ [ TypingTimeout ])
           (replicate 40 StreamTimeout)); reflexivity.
Defined.

(** *** Progress *)

Lemma streaming_timeout (s : State) :
  bookkeeping s → streaming s → isSpeaking s = true →
  currentTokenRef (step s StreamTimeout)
  = Nat.min (currentTokenRef s + 1) (length (tokensToStreamRef s))
  ∧ tokensToStreamRef (step s StreamTimeout) = tokensToStreamRef s
  ∧ isSpeaking (step s StreamTimeout) = true.
Proof.
  intros (Hcursor & _ & _) [Htimer Htokens] Hup. specialize (Htokens Hup).
  rewrite Hup in Htimer. cbn [step]. unfold streamTimeoutExpires. rewrite Htimer.
  rewrite streamNextToken_tokens, streamNextToken_isSpeaking by done.
  cbn [tokensToStreamRef isSpeaking]. split_and!; [|done|done].
  unfold streamNextToken. cbn [negb currentTokenRef tokensToStreamRef].
  destruct (currentTokenRef s <? length (tokensToStreamRef s)) eqn:Hlt.
  - apply Nat.ltb_lt in Hlt.
    destruct (lookup_lt_is_Some_2 _ _ Hlt) as [newToken ->]. cbn. lia.
  - apply Nat.ltb_ge in Hlt.
    destruct (tokensToStreamRef s) as [|token rest] eqn:Hts; [done|].
    cbn [length Nat.ltb Nat.leb currentTokenRef]. cbn in Hcursor, Hlt. lia.
Qed.

(** X16.  While the flag is up, every stream timeout streams exactly one
    token until none is left: after [n] stream timeouts the cursor has
    moved [n] tokens ahead or has reached the end of the token list, the
    list itself is unchanged and the flag is still up. *)
Theorem producer_streams_all (events : list Event) (n : nat) :
  let s := run events initial in
  isSpeaking s = true →
  let s' := run (replicate n StreamTimeout) s in
  currentTokenRef s' = Nat.min (currentTokenRef s + n) (length (tokensToStreamRef s))
  ∧ tokensToStreamRef s' = tokensToStreamRef s
  ∧ isSpeaking s' = true
  ∧ textChunks s' = lastN 20 (take (currentTokenRef s') (tokensToStreamRef s)).
Proof.
  intros s Hup s'.
  assert (Hb : bookkeeping s) by apply bookkeeping_run, bookkeeping_initial.
  assert (Hs : streaming s) by (apply streaming_run; [apply bookkeeping_initial | done]).
  assert (Hall : bookkeeping s' ∧ streaming s' ∧ isSpeaking s' = true
                 ∧ tokensToStreamRef s' = tokensToStreamRef s
                 ∧ currentTokenRef s'
                   = Nat.min (currentTokenRef s + n) (length (tokensToStreamRef s))).
  { subst s'. destruct Hb as (Hcursor & Hrest). pose proof (conj Hcursor Hrest) as Hb.
    clear Hrest. revert Hb Hs Hup Hcursor. generalize s. clear s.
    induction n as [|n IH]; intros s Hb Hs Hup Hcursor.
    - cbn. split_and!; try done. lia.
    - cbn [replicate]. change (run (StreamTimeout :: ?l) s) with (run l (step s StreamTimeout)).
      destruct (streaming_timeout s Hb Hs Hup) as (Hc1 & Ht1 & Hu1).
      pose proof (bookkeeping_step s StreamTimeout Hb) as Hb1.
      pose proof (streaming_step s StreamTimeout Hb Hs) as Hs1.
      destruct (IH (step s StreamTimeout) Hb1 Hs1 Hu1 (proj1 Hb1))
        as (Hb' & Hs' & Hu' & Ht' & Hc').
      split_and!; try done; [congruence|].
      rewrite Hc', Ht1, Hc1. lia. }
  destruct Hall as ((_ & _ & Hchunks) & _ & Hu' & Ht' & Hc').
  split_and!; try done. unfold streamed in Hchunks. by rewrite Hchunks, Ht'.
Qed.

Lemma producer_streams_all_witness :
  let pasted := App.run [ App.TextChange "hello world" ] App.initial in
  App.currentTokenRef pasted = 1
  ∧ App.currentTokenRef (App.run (replicate 4 App.StreamTimeout) pasted) = 5
  ∧ App.currentTokenRef (App.run (replicate 30 App.StreamTimeout) pasted) = 11.
Proof.
  split_and!; [ reflexivity | | ].
  - exact (proj1 (producer_streams_all [ TextChange "hello world" ] 4 eq_refl)).
  - exact (proj1 (producer_streams_all [ TextChange "hello world" ] 30 eq_refl)).
Defined.

(** *** Chunks are characters *)

Lemma split_characters (text : string) :
  Forall (λ token, ∃ c, token = String c "") (split text).
Proof.
  induction text as [|c rest IH]; [constructor|].
  cbn [split]. constructor; [by exists c | done].
Qed.

Lemma characters_step (s : State) (e : Event) :
  Forall (λ token, ∃ c, token = String c "") (tokensToStreamRef s) →
  Forall (λ token, ∃ c, token = String c "") (tokensToStreamRef (step s e)).
Proof.
  intros Hs. destruct e; cbn [step].
  - unfold handleTextChange, processText. repeat case_match; try done.
    + unfold setIsSpeaking. rewrite raiseFlag_tokens. cbn.
      apply Forall_app. split; [done | apply split_characters].
    + cbn. apply Forall_app. split; [done | apply split_characters].
  - unfold streamTimeoutExpires. case_match; [|done].
    by rewrite streamNextToken_tokens.
  - unfold typingTimeoutExpires. repeat case_match; try done.
    unfold setIsSpeaking. by rewrite (proj2 (lowerFlag_frame _)).
  - done.
  - constructor.
Qed.

(** X17.  In every state the producer reaches, every token of the
    stream and every chunk handed to the avatar is a string of exactly one
    character.  So the avatar's guard against empty chunks never fires for
    the producer's chunks: each of them sets the viseme of its character. *)
Theorem chunks_are_characters (events : list Event) (chunk : string) :
  let s := run events initial in
  Forall (λ token, ∃ c, token = String c "") (tokensToStreamRef s)
  ∧ Forall (λ token, ∃ c, token = String c "") (textChunks s)
  ∧ (chunk ∈ textChunks s →
     ∃ c, chunk = String c ""
          ∧ Resolver.chunkViseme chunk = Some (Resolver.resolve c)).
Proof.
  intros s.
  assert (Htokens : Forall (λ token, ∃ c, token = String c "") (tokensToStreamRef s)).
  { subst s. assert (Hinit : Forall (λ token, ∃ c, token = String c "")
                               (tokensToStreamRef initial)) by constructor.
    revert Hinit. generalize initial.
    induction events as [|e events IH]; intros s Hs; [done|].
    cbn. apply IH. by apply characters_step. }
  assert (Hchunks : Forall (λ token, ∃ c, token = String c "") (textChunks s)).
  { destruct (bookkeeping_run events initial bookkeeping_initial) as (_ & _ & Hshown).
    fold s in Hshown. rewrite Hshown.
    unfold lastN, streamed. by apply Forall_drop, Forall_take. }
  split_and!; [done | done |].
  intros Hin. rewrite list.Forall_forall in Hchunks.
  destruct (Hchunks chunk Hin) as [c ->]. by exists c.
Qed.

(** *** Text changes *)

Lemma prefix_app (s1 s2 : string) :
  String.prefix s1 s2 = true → ∃ more, s2 = s1 +:+ more.
Proof.
  revert s2. induction s1 as [|c rest IH]; intros s2 Hpre.
  - by exists s2.
  - destruct s2 as [|c2 rest2]; [done|]. cbn [String.prefix] in Hpre.
    destruct (ascii_dec c c2) as [<- | ]; [|done].
    destruct (IH rest2 Hpre) as [more ->]. by exists more.
Qed.

Lemma processText_app (more : string) (s : State) :
  tokensToStreamRef s = split (lastTypedTextRef s) →
  tokensToStreamRef (processText (lastTypedTextRef s +:+ more) s)
  = split (lastTypedTextRef (processText (lastTypedTextRef s +:+ more) s))
  ∧ lastTypedTextRef (processText (lastTypedTextRef s +:+ more) s)
    = lastTypedTextRef s +:+ more.
Proof.
  intros Hsync. unfold processText. rewrite slice_app.
  destruct more as [|c more].
  - cbn [String.length Nat.ltb Nat.leb].
    assert (Hnil : ∀ t : string, t +:+ "" = t).
    { induction t as [|c t IH]; [done|].
      change (String c (t +:+ "") = String c t). by rewrite IH. }
    by rewrite Hnil.
  - cbn [String.length Nat.ltb Nat.leb].
    set (s' := Build_State _ _ _ _ _ _ _ _ _).
    assert (Hs' : tokensToStreamRef s' = split (lastTypedTextRef s')
                  ∧ lastTypedTextRef s' = lastTypedTextRef s +:+ String c more).
    { subst s'. cbn. by rewrite split_app, Hsync. }
    case_match; [|done].
    unfold setIsSpeaking. rewrite raiseFlag_tokens.
    assert (Hlast : lastTypedTextRef (raiseFlag s') = lastTypedTextRef s').
    { unfold raiseFlag, streamNextToken, lowerFlag. repeat case_match; done. }
    by rewrite Hlast.
Qed.

Lemma inSync_step (s : State) (e : Event) :
  tokensToStreamRef s = split (lastTypedTextRef s) →
  match e with
  | TextChange newText => String.prefix (lastTypedTextRef s) newText
  | _ => true
  end = true →
  tokensToStreamRef (step s e) = split (lastTypedTextRef (step s e)).
Proof.
  intros Hsync He. destruct e; cbn [step].
  - apply prefix_app in He as [more ->]. unfold handleTextChange.
    set (s0 := Build_State _ _ _ _ _ _ _ _ _).
    change (lastTypedTextRef s) with (lastTypedTextRef s0).
    by apply processText_app.
  - unfold streamTimeoutExpires. case_match; [|done].
    rewrite streamNextToken_tokens. cbn [tokensToStreamRef].
    unfold streamNextToken, lowerFlag. repeat case_match; done.
  - unfold typingTimeoutExpires, setIsSpeaking, lowerFlag. repeat case_match; done.
  - done.
  - done.
Qed.

(** X13.  While every text change only extends the last processed text
    (typing or pasting at the end), the token stream is that text, one
    token per code unit and in order: joining the tokens gives the text
    back. *)
Theorem producer_tokens_are_text (events : list Event) :
  appendOnly initial events = true →
  let s := run events initial in
  tokensToStreamRef s = split (lastTypedTextRef s)
  ∧ join (tokensToStreamRef s) = lastTypedTextRef s.
Proof.
  intros Happend s.
  assert (Hsync : tokensToStreamRef s = split (lastTypedTextRef s)).
  { subst s. assert (Hinit : tokensToStreamRef initial = split (lastTypedTextRef initial))
      by done.
    revert Happend Hinit. generalize initial.
    induction events as [|e events IH]; intros s Happend Hsync; [done|].
    cbn [appendOnly] in Happend. apply andb_prop in Happend as [He Hrest].
    cbn. apply IH; [done|]. by apply inSync_step. }
  split; [done|]. by rewrite Hsync, join_split.
Qed.

Lemma producer_tokens_are_text_witness :
  let s := App.run [ App.TextChange "h"; App.StreamTimeout; App.TextChange "hi";
                     App.TextChange "hi!"; App.TypingTimeout ] App.initial in
  App.tokensToStreamRef s = [ "h"; "i"; "!" ]
  ∧ join (App.tokensToStreamRef s) = "hi!".
Proof.
  split; [ reflexivity | ].
  refine (proj2 (producer_tokens_are_text
            [ TextChange "h"; StreamTimeout; TextChange "hi"; TextChange "hi!";
              TypingTimeout ] _)).
  reflexivity.
Defined.

(** X14.  A text change that does not make the text longer than the last
    processed text (a deletion, or a replacement of equal length) is not
    processed: the input text is stored and the typing timeout re-armed,
    and nothing else changes; no token is added for the replaced
    characters. *)
Theorem edit_without_growth_ignored (newText : string) (s : State) :
  String.length newText ≤ String.length (lastTypedTextRef s) →
  handleTextChange newText s
  = {| textChunks := textChunks s; inputText := newText; isSpeaking := isSpeaking s;
       streamingSpeed := streamingSpeed s; streamTimerRef := streamTimerRef s;
       currentTokenRef := currentTokenRef s; tokensToStreamRef := tokensToStreamRef s;
       typingTimeoutRef := true; lastTypedTextRef := lastTypedTextRef s |}.
Proof.
  intros Hshort. unfold handleTextChange, processText. cbn [lastTypedTextRef].
  by rewrite slice_short.
Qed.

Lemma edit_without_growth_ignored_witness :
  let typed := App.run [ App.TextChange "abc" ] App.initial in
  App.tokensToStreamRef (App.handleTextChange "abd" typed) = [ "a"; "b"; "c" ]
  ∧ App.lastTypedTextRef (App.handleTextChange "abd" typed) = "abc"
  ∧ App.inputText (App.handleTextChange "abd" typed) = "abd".
Proof.
  cbv zeta.
  rewrite (edit_without_growth_ignored "abd" (run [ TextChange "abc" ] initial));
    [ split_and!; reflexivity | cbn; lia ].
Defined.

(** *** Reset *)

Lemma sameEngine_step (s1 s2 : State) (e : Event) :
  sameEngine s1 s2 → sameEngine (step s1 e) (step s2 e).
Proof.
  destruct s1 as [chunks1 input1 speaking1 speed1 timer1 cursor1 tokens1 typing1 last1].
  destruct s2 as [chunks2 input2 speaking2 speed2 timer2 cursor2 tokens2 typing2 last2].
  unfold sameEngine. cbn. intros (-> & -> & -> & -> & -> & -> & ->).
  destruct e; cbn [step].
  - unfold handleTextChange, processText, setIsSpeaking, raiseFlag, streamNextToken,
      lowerFlag. cbn. repeat case_match; cbn; done.
  - unfold streamTimeoutExpires, streamNextToken, lowerFlag. cbn.
    repeat case_match; cbn; done.
  - unfold typingTimeoutExpires, setIsSpeaking, lowerFlag. cbn.
    repeat case_match; cbn; done.
  - done.
  - done.
Qed.

(** X15.  After the reset button the producer is as freshly mounted, apart
    from the stored input text and the speed setting: under any further
    events it goes through the same chunks, flag, cursor, tokens and
    timeouts as a new producer does. *)
Theorem reset_forgets (s : State) (events : list Event) :
  sameEngine (run events (handleReset s)) (run events initial)
  ∧ textChunks (run events (handleReset s)) = textChunks (run events initial)
  ∧ isSpeaking (run events (handleReset s)) = isSpeaking (run events initial).
Proof.
  assert (Hsame : sameEngine (run events (handleReset s)) (run events initial)).
  { assert (Hinit : sameEngine (handleReset s) initial) by (by split_and!).
    revert Hinit. generalize (handleReset s) initial.
    induction events as [|e events IH]; intros s1 s2 Hsame; [done|].
    cbn. apply IH. by apply sameEngine_step. }
  split_and!; [done | apply Hsame | apply Hsame].
Qed.

End StreamFacts.

(** ** The producer's window under the avatar's cursor *)

Section WindowFacts.
Import Avatar.

Lemma appendChunk_lookup (newToken : string) (prev : list string) (k : nat) :
  length prev ≤ 20 →
  App.appendChunk newToken prev !! k
  = ((prev ++ [ newToken ])%list : list string)
      !! (if length prev =? 20 then k + 1 else k).
Proof.
  intros Hcap. rewrite appendChunk_drop, lookup_drop, length_app. cbn [length].
  destruct (length prev =? 20) eqn:Hfull.
  - apply Nat.eqb_eq in Hfull. rewrite Hfull. f_equal. lia.
  - apply Nat.eqb_neq in Hfull. f_equal. lia.
Qed.

(** X18.  The producer's next array under a playing avatar.  The avatar
    is speaking with its cursor on a chunk of a buffer of at most twenty
    chunks, and the producer hands over that buffer with one more token
    appended by its own update.  The render keeps the cursor and arms a
    new timeout.  Below twenty chunks the buffer only grows and the cursor
    stays on the same token.  At twenty chunks the oldest chunk is dropped,
    so the cursor now stands on the token that followed: the avatar moves
    one token ahead without a timeout having expired.  In both cases the
    mouth takes the viseme of the token now under the cursor. *)
Theorem window_slides_under_cursor (a : State) (newToken : string) :
  isSpeaking a = true →
  chunkIndex a < length (textChunks a) →
  length (textChunks a) ≤ 20 →
  let window := App.appendChunk newToken (textChunks a) in
  let b := render (Some window) true a in
  chunkIndex b = chunkIndex a
  ∧ textChunks b = window
  ∧ visemeTimerRef b
    = Some {| seenIndex := chunkIndex a; seenLength := length window |}
  ∧ (length (textChunks a) < 20 →
     window = (textChunks a ++ [ newToken ])%list
     ∧ window !! chunkIndex b = textChunks a !! chunkIndex a)
  ∧ (length (textChunks a) = 20 →
     window = (drop 1 (textChunks a) ++ [ newToken ])%list
     ∧ window !! chunkIndex b
       = ((textChunks a ++ [ newToken ])%list : list string) !! (chunkIndex a + 1))
  ∧ ∃ chunk, window !! chunkIndex b = Some chunk
      ∧ currentViseme b = default (currentViseme a) (Resolver.chunkViseme chunk).
Proof.
  intros Hup Hcursor Hcap window b.
  assert (Hlookup : window !! chunkIndex a
                    = ((textChunks a ++ [ newToken ])%list : list string)
                        !! (if length (textChunks a) =? 20
                            then chunkIndex a + 1 else chunkIndex a))
    by (by apply appendChunk_lookup).
  assert (Hsome : ∃ chunk, window !! chunkIndex a = Some chunk).
  { rewrite Hlookup. apply lookup_lt_is_Some_2. rewrite length_app. cbn [length].
    case_match; lia. }
  destruct Hsome as [chunk Hchunk].
  assert (Hb : b = playing window (chunkIndex a)
                     (default (currentViseme a) (Resolver.chunkViseme chunk))).
  { subst b.
    change (render (Some window) true a)
      with (commit (negb (Bool.eqb true (isSpeaking a))) true (withProps window true a)).
    rewrite Hup. change (negb (Bool.eqb true true)) with false.
    by rewrite (commit_playing false true (withProps window true a) chunk). }
  rewrite Hb. cbn [playing chunkIndex textChunks visemeTimerRef currentViseme].
  split_and!; [done | done | done | | | by exists chunk].
  - intros Hroom. split.
    + subst window. rewrite appendChunk_drop, length_app. cbn [length].
      by replace (length (textChunks a) + 1 - 20) with 0 by lia.
    + rewrite Hlookup. replace (length (textChunks a) =? 20) with false
        by (symmetry; apply Nat.eqb_neq; lia).
      by rewrite lookup_app_l.
  - intros Hfull. split.
    + subst window. rewrite appendChunk_drop, length_app. cbn [length].
      replace (length (textChunks a) + 1 - 20) with 1 by lia.
      rewrite drop_app_le by lia. done.
    + rewrite Hlookup. by rewrite Hfull.
Qed.

Lemma window_slides_under_cursor_witness :
  let full := session ("m" :: "o" :: replicate 18 "a")%list in
  let b := Avatar.render
             (Some (App.appendChunk "e" (Avatar.textChunks full))) true full in
  Avatar.currentViseme full = Shape.B
  ∧ Avatar.chunkIndex b = Avatar.chunkIndex full
  ∧ Avatar.textChunks b = ("o" :: replicate 18 "a" ++ [ "e" ])%list
  ∧ Avatar.currentViseme b = Shape.H.
Proof.
  cbv zeta.
  pose proof (window_slides_under_cursor
                (session ("m" :: "o" :: replicate 18 "a")%list) "e" eq_refl)
    as Hslides.
  cbv zeta in Hslides.
  destruct Hslides as (Hindex & Hchunks & _); [vm_compute; lia | vm_compute; lia |].
  split_and!; [reflexivity | exact Hindex | exact Hchunks | reflexivity].
Defined.

End WindowFacts.
